(** * Lockr: a shallow embedding of the LSM-tree engine

    The Go package [lsmtree] (cache.go, bloomfilter.go, memtable.go,
    sstable.go, wal.go, lsmtree.go) is transcribed function by function.
    Every definition keeps the name of the Go function it embeds, with the
    receiver type as a prefix ([Cache_Set] is the method [Set] of [Cache]).

    - Go strings are byte strings: [string].
    - A Go [map[string]T] is a [gmap string T].  The order in which [range]
      visits a map is chosen by the Go runtime; it is taken from the
      [GoRuntime] class, so every theorem stated for an arbitrary runtime
      holds for every iteration order.
    - The machine, as far as the package can see it, is a [World]: the
      directories and files of the file system, the wall clock, the
      runtime's iteration counter, standard output and the goroutines
      that were spawned and have not run yet.
    - [sync.RWMutex] is a record of its holders.  One goroutine runs at a
      time; a goroutine that waits for a lock that only itself could
      release never returns, which is the outcome [Blocks]. *)

From Stdlib Require Import ZArith Lia Ascii.
From stdpp Require Import gmap strings list fin_maps pretty.

Local Open Scope Z_scope.

(** ** The Go runtime *)

Class GoRuntime := {
  (** [strconv.IntSize]: the width of [int] and [uint]. *)
  IntSize : Z;
  IntSize_32_or_64 : IntSize = 32 ∨ IntSize = 64;
  (** The order in which the [r]-th [range] loop of the run visits a map. *)
  mapRange : ∀ {V : Type}, nat → gmap string V → list (string * V);
  mapRange_perm : ∀ (V : Type) (r : nat) (m : gmap string V),
    mapRange r m ≡ₚ map_to_list m;
  (** The wall clock (nanoseconds) at the next reading, given this one. *)
  clockStep : Z → Z;
  clockStep_lt : ∀ t, t < clockStep t
}.

(** [error]: [None] is [nil], [Some msg] an error whose [Error()] is [msg]. *)
Definition error : Type := option string.

(** [fmt.Errorf("<prefix>: %w", err)] *)
Definition Errorf_w (prefix err : string) : string := prefix +:+ ": " +:+ err.

Definition LF : ascii := "010"%char.
Definition CR : ascii := "013"%char.
Definition comma : ascii := ","%char.
Definition slash : ascii := "/"%char.

(** [fmt.Sprintf("%s,%s\n", key, value)] *)
Definition Sprintf_entry (key value : string) : string :=
  key +:+ String comma (value +:+ String LF "").

(** [len(s)] as an [int]/[int64]. *)
Definition len (s : string) : Z := Z.of_nat (String.length s).

(** [strings.SplitN(s, ",", 2)]: [Some (a, b)] stands for the slice
    [[a, b]] (the cut is at the first comma), [None] for the one-element
    slice [[s]] of a string without comma. *)
Fixpoint SplitN_comma_2 (s : string) : option (string * string) :=
  match s with
  | EmptyString => None
  | String c s' =>
      if Ascii.eqb c comma then Some (EmptyString, s')
      else match SplitN_comma_2 s' with
           | Some (a, b) => Some (String c a, b)
           | None => None
           end
  end.

(** *** bufio.Scanner with the default split function [ScanLines] *)

(** The bytes of the input cut at each newline, the newline left out; a last
    line without newline counts when it is not empty. *)
Fixpoint raw_lines (s : string) : list string :=
  match s with
  | EmptyString => []
  | String c s' =>
      if Ascii.eqb c LF then EmptyString :: raw_lines s'
      else match raw_lines s' with
           | [] => [String c EmptyString]
           | l :: ls => String c l :: ls
           end
  end.

(** [dropCR]: a line loses one trailing carriage return. *)
Fixpoint dropCR (s : string) : string :=
  match s with
  | EmptyString => EmptyString
  | String c EmptyString => if Ascii.eqb c CR then EmptyString else s
  | String c s' => String c (dropCR s')
  end.

(** [bufio.MaxScanTokenSize]: the buffer of a Scanner grows to this size
    and no further; a line that does not fit with its newline stops the
    scan with [ErrTooLong]. *)
Definition MaxScanTokenSize : Z := 64 * 1024.
Definition ErrTooLong : string := "bufio.Scanner: token too long".

Definition fits_buffer (line : string) : bool := len line <? MaxScanTokenSize.

(** The tokens [Scan]/[Text] deliver until [Scan] returns false, and what
    [Err] returns afterwards. *)
Fixpoint scan_tokens (ls : list string) : list string * error :=
  match ls with
  | [] => ([], None)
  | l :: ls' =>
      if fits_buffer l
      then let '(ts, e) := scan_tokens ls' in (dropCR l :: ts, e)
      else ([], Some ErrTooLong)
  end.

Definition Scanner_all (input : string) : list string * error :=
  scan_tokens (raw_lines input).

(** One call of [Scan]: [Some text] when it returns true. *)
Definition Scanner_first (input : string) : option string :=
  match raw_lines input with
  | [] => None
  | l :: _ => if fits_buffer l then Some (dropCR l) else None
  end.

(** The bytes of [s] from position [n] on: what a reader sees after
    [Seek(n, 0)]. *)
Fixpoint drop_bytes (n : nat) (s : string) : string :=
  match n, s with
  | O, _ => s
  | S n', String _ s' => drop_bytes n' s'
  | S _, EmptyString => EmptyString
  end.

(** ** The world outside the package *)

Record World := mkWorld {
  fs_dirs : gset string;            (* the directories that exist *)
  fs_files : gmap string string;    (* the regular files and their bytes *)
  clock : Z;                        (* wall clock, Unix nanoseconds *)
  rand : nat;                       (* range loops started so far *)
  stdout : list string;             (* lines printed, oldest first *)
  goroutines : nat                  (* [go l.triggerCompaction()] not yet run *)
}.

Definition set_files (f : gmap string string) (w : World) : World :=
  mkWorld (fs_dirs w) f (clock w) (rand w) (stdout w) (goroutines w).
Definition set_clock (t : Z) (w : World) : World :=
  mkWorld (fs_dirs w) (fs_files w) t (rand w) (stdout w) (goroutines w).
Definition set_rand (r : nat) (w : World) : World :=
  mkWorld (fs_dirs w) (fs_files w) (clock w) r (stdout w) (goroutines w).
Definition Printf (line : string) (w : World) : World :=
  mkWorld (fs_dirs w) (fs_files w) (clock w) (rand w) (stdout w ++ [line]) (goroutines w).
Definition go_spawn (w : World) : World :=
  mkWorld (fs_dirs w) (fs_files w) (clock w) (rand w) (stdout w) (S (goroutines w)).

(** [filepath.Join(dir, name)] for a clean [dir] and a plain file name. *)
Definition filepath_Join (dir name : string) : string := dir +:+ String slash name.

(** The directory a path lies in: the bytes before its last slash. *)
Fixpoint before_last_slash (p : string) : option string :=
  match p with
  | EmptyString => None
  | String c p' =>
      match before_last_slash p' with
      | Some d => Some (String c d)
      | None => if Ascii.eqb c slash then Some EmptyString else None
      end
  end.
Definition filepath_Dir (p : string) : string := default "." (before_last_slash p).

Definition ENOENT (op path : string) : string :=
  op +:+ " " +:+ path +:+ ": no such file or directory".
Definition EISDIR (op path : string) : string :=
  op +:+ " " +:+ path +:+ ": is a directory".

(** A file can be created at [path] when its directory exists and [path]
    is not itself a directory. *)
Definition creatable (path : string) (w : World) : error :=
  if decide (filepath_Dir path ∈ fs_dirs w)
  then if decide (path ∈ fs_dirs w) then Some (EISDIR "open" path) else None
  else Some (ENOENT "open" path).

(** [os.Create(path)]: create or truncate. *)
Definition os_Create (path : string) (w : World) : error * World :=
  match creatable path w with
  | Some e => (Some e, w)
  | None => (None, set_files (<[path := EmptyString]> (fs_files w)) w)
  end.

(** [os.OpenFile(path, O_APPEND|O_CREATE|O_WRONLY, 0600)] *)
Definition os_OpenFile_append (path : string) (w : World) : error * World :=
  match creatable path w with
  | Some e => (Some e, w)
  | None => (None, set_files (<[path := default EmptyString (fs_files w !! path)]> (fs_files w)) w)
  end.

(** [file.WriteString(s)] on a file opened for appending, and
    [bufio.Writer.WriteString] followed by [Flush]. *)
Definition file_WriteString (path s : string) (w : World) : World :=
  set_files (<[path := default EmptyString (fs_files w !! path) +:+ s]> (fs_files w)) w.

(** [os.Open(path)] and reading: the bytes of the file. *)
Definition os_Open (path : string) (w : World) : string + string :=
  match fs_files w !! path with
  | Some bytes => inr bytes
  | None => inl (ENOENT "open" path)
  end.

(** [os.Remove(path)] *)
Definition os_Remove (path : string) (w : World) : error * World :=
  match fs_files w !! path with
  | Some _ => (None, set_files (delete path (fs_files w)) w)
  | None => (Some (ENOENT "remove" path), w)
  end.

(** [os.Truncate(path, 0)] *)
Definition os_Truncate_0 (path : string) (w : World) : error * World :=
  match fs_files w !! path with
  | Some _ => (None, set_files (<[path := EmptyString]> (fs_files w)) w)
  | None => (Some (ENOENT "truncate" path), w)
  end.

(** [time.Now().UnixNano()] *)
Definition time_Now `{GoRuntime} (w : World) : Z * World :=
  (clock w, set_clock (clockStep (clock w)) w).

(** [for key, value := range m]: the visiting order of this loop. *)
Definition range `{GoRuntime} {V : Type} (m : gmap string V) (w : World)
  : list (string * V) * World :=
  (mapRange (rand w) m, set_rand (S (rand w)) w).

(** Two's-complement [int]. *)
Definition MaxInt `{GoRuntime} : Z := 2 ^ (IntSize - 1) - 1.
Definition wrap_int `{GoRuntime} (x : Z) : Z :=
  (x + 2 ^ (IntSize - 1)) mod 2 ^ IntSize - 2 ^ (IntSize - 1).

(** ** sync.RWMutex *)

Record RWMutex := mkRWMutex { writer : bool; readers : nat }.

Definition RWMutex_free : RWMutex := mkRWMutex false 0.

(** [Lock]: [None] when the caller has to wait. *)
Definition RWMutex_Lock (mu : RWMutex) : option RWMutex :=
  match writer mu, readers mu with
  | false, O => Some (mkRWMutex true 0)
  | _, _ => None
  end.
Definition RWMutex_Unlock (mu : RWMutex) : RWMutex := mkRWMutex false (readers mu).

(** [RLock]: readers share the lock; a reader waits while a writer holds it. *)
Definition RWMutex_RLock (mu : RWMutex) : option RWMutex :=
  if writer mu then None else Some (mkRWMutex false (S (readers mu))).
Definition RWMutex_RUnlock (mu : RWMutex) : RWMutex :=
  mkRWMutex (writer mu) (Nat.pred (readers mu)).

(** ** bloomfilter.go *)

(** [hash/fnv]: 64-bit FNV-1a. *)
Definition fnv_offset64 : Z := 14695981039346656037.
Definition fnv_prime64 : Z := 1099511628211.

Definition byte_val (c : ascii) : Z := Z.of_N (N_of_ascii c).

(** [h.Write(bytes)]: xor each byte into the state, then multiply, in [uint64]. *)
Fixpoint fnv1a_Write (h : Z) (bytes : string) : Z :=
  match bytes with
  | EmptyString => h
  | String c rest => fnv1a_Write ((Z.lxor h (byte_val c) * fnv_prime64) mod 2 ^ 64) rest
  end.

(** [bitArray] is a [[]bool] of [size] elements, created all false and
    only ever written [true] at positions below [size]; it is kept as the
    set of the positions that hold [true]. *)
Record BloomFilter := mkBloomFilter {
  bitArray : gset Z;
  size : Z;
  hashFuncs : Z
}.

Definition NewBloomFilter : BloomFilter :=
  mkBloomFilter ∅ 2097152 7.

(** [byte(seed)]: the low eight bits. *)
Definition byte_of_uint (seed : Z) : ascii := ascii_of_N (Z.to_N (seed mod 256)).

Definition BloomFilter_hash (bf : BloomFilter) (key : string) (seed : Z) : Z :=
  fnv1a_Write (fnv1a_Write fnv_offset64 key) (String (byte_of_uint seed) EmptyString)
    mod size bf.

(** The values [i] takes in [for i := uint(0); i < bf.hashFuncs; i++]. *)
Definition seeds (bf : BloomFilter) : list Z := seqZ 0 (hashFuncs bf).

Definition BloomFilter_Add (bf : BloomFilter) (key : string) : BloomFilter :=
  foldl (λ b i, mkBloomFilter ({[ BloomFilter_hash b key i ]} ∪ bitArray b) (size b) (hashFuncs b))
        bf (seeds bf).

Definition BloomFilter_MightContain (bf : BloomFilter) (key : string) : bool :=
  forallb (λ i, bool_decide (BloomFilter_hash bf key i ∈ bitArray bf)) (seeds bf).

(** ** cache.go *)

Record CacheEntry := mkCacheEntry { value : string; timestamp : Z }.

Record Cache := mkCache {
  entries : gmap string CacheEntry;
  maxSize : Z;
  accessCount : gmap string Z
}.

Definition NewCache (maxSize : Z) : Cache := mkCache ∅ maxSize ∅.

Section cache.
Context `{GoRuntime}.

(** The loop of [evict]: the key and count it holds after visiting the
    pairs in the given order. *)
Definition least_accessed (visit : list (string * Z)) : string * Z :=
  foldl (λ (best : string * Z) (kc : string * Z),
           if kc.2 <? best.2 then (kc.1, kc.2) else best)
        (EmptyString, MaxInt) visit.

Definition Cache_evict (c : Cache) (w : World) : Cache * World :=
  let '(visit, w) := range (accessCount c) w in
  let leastAccessed := (least_accessed visit).1 in
  (mkCache (delete leastAccessed (entries c)) (maxSize c)
           (delete leastAccessed (accessCount c)), w).

Definition Cache_Set (c : Cache) (key val : string) (w : World) : Cache * World :=
  let '(c, w) :=
    if Z.of_nat (base.size (entries c)) >=? maxSize c then Cache_evict c w else (c, w) in
  let '(now, w) := time_Now w in
  (mkCache (<[key := mkCacheEntry val now]> (entries c)) (maxSize c)
           (<[key := 1]> (accessCount c)), w).

(** [c.accessCount[key]++] reads the zero value for a missing key. *)
Definition Cache_Get (c : Cache) (key : string) : (string * bool) * Cache :=
  match entries c !! key with
  | Some entry =>
      ((value entry, true),
       mkCache (entries c) (maxSize c)
               (<[key := wrap_int (default 0 (accessCount c !! key) + 1)]> (accessCount c)))
  | None => ((EmptyString, false), c)
  end.
End cache.

(** ** memtable.go *)

Record MemTable := mkMemTable { data : gmap string string }.

Definition NewMemTable : MemTable := mkMemTable ∅.
Definition MemTable_Set (m : MemTable) (key val : string) : MemTable :=
  mkMemTable (<[key := val]> (data m)).
Definition MemTable_Get (m : MemTable) (key : string) : string * bool :=
  match data m !! key with
  | Some v => (v, true)
  | None => (EmptyString, false)
  end.
Definition MemTable_Delete (m : MemTable) (key : string) : MemTable :=
  mkMemTable (delete key (data m)).
Definition MemTable_Size (m : MemTable) : Z := Z.of_nat (base.size (data m)).
Definition MemTable_Entries (m : MemTable) : gmap string string := data m.

(** ** sstable.go *)

Record SSTable := mkSSTable {
  filePath : string;
  bloomFilter : BloomFilter;
  index : gmap string Z
}.

(** The state of the loop that writes a segment: the bytes handed to the
    writer, the filter, the index and [offset]. *)
Record SSTableBuild := mkBuild {
  written : string;
  b_filter : BloomFilter;
  b_index : gmap string Z;
  b_offset : Z
}.

Definition write_entry (b : SSTableBuild) (kv : string * string) : SSTableBuild :=
  let entry := Sprintf_entry kv.1 kv.2 in
  mkBuild (written b +:+ entry)
          (BloomFilter_Add (b_filter b) kv.1)
          (<[kv.1 := b_offset b]> (b_index b))
          (b_offset b + len entry).

Section sstable.
Context `{GoRuntime}.

(** A constructor that returns a segment and an [error]: [inl msg] is
    [(nil, err)]. *)
Definition NewSSTable (dataDir : string) (memTable : MemTable) (w : World)
  : (string + SSTable) * World :=
  let '(timestamp, w) := time_Now w in
  let filePath := filepath_Join dataDir ("sstable_" +:+ pretty timestamp +:+ ".dat") in
  match os_Create filePath w with
  | (Some err, w) => (inl (Errorf_w "failed to create SSTable file" err), w)
  | (None, w) =>
      let '(visit, w) := range (MemTable_Entries memTable) w in
      let b := foldl write_entry (mkBuild EmptyString NewBloomFilter ∅ 0) visit in
      let w := file_WriteString filePath (written b) w in
      (inr (mkSSTable filePath (b_filter b) (b_index b)), w)
  end.
End sstable.

Definition SSTable_Get (s : SSTable) (key : string) (w : World) : string * error :=
  if negb (BloomFilter_MightContain (bloomFilter s) key) then (EmptyString, None)
  else match index s !! key with
       | None => (EmptyString, None)
       | Some offset =>
           match os_Open (filePath s) w with
           | inl err => (EmptyString, Some (Errorf_w "failed to open SSTable file" err))
           | inr bytes =>
               if offset <? 0
               then (EmptyString,
                     Some (Errorf_w "failed to seek in SSTable file"
                             ("seek " +:+ filePath s +:+ ": invalid argument")))
               else match Scanner_first (drop_bytes (Z.to_nat offset) bytes) with
                    | Some text =>
                        match SplitN_comma_2 text with
                        | Some (k, v) =>
                            if decide (k = key) then (v, None) else (EmptyString, None)
                        | None => (EmptyString, None)
                        end
                    | None => (EmptyString, None)
                    end
           end
       end.

Definition SSTable_FilePath (s : SSTable) : string := filePath s.

(** The body of the scanning loops of [SSTable.List] (which keeps only
    non-empty values) and of [WAL.Recover] (which keeps every pair). *)
Definition list_line (result : gmap string string) (text : string) : gmap string string :=
  match SplitN_comma_2 text with
  | Some (key, val) => if decide (val = EmptyString) then result else <[key := val]> result
  | None => result
  end.

Definition recover_line (result : gmap string string) (text : string) : gmap string string :=
  match SplitN_comma_2 text with
  | Some (key, val) => <[key := val]> result
  | None => result
  end.

(** A method that returns [(map, error)]: [inl msg] is [(nil, err)]. *)
Definition SSTable_List (s : SSTable) (w : World) : string + gmap string string :=
  match os_Open (filePath s) w with
  | inl err => inl (Errorf_w "failed to open SSTable file" err)
  | inr bytes =>
      match Scanner_all bytes with
      | (lines, Some err) => inl (Errorf_w "failed to read SSTable" err)
      | (lines, None) => inr (foldl list_line ∅ lines)
      end
  end.

(** ** wal.go *)

Record WAL := mkWAL { wal_filePath : string }.

Definition NewWAL (dataDir : string) : WAL := mkWAL (filepath_Join dataDir "wal.log").

Definition WAL_Log (wl : WAL) (key val : string) (w : World) : error * World :=
  match os_OpenFile_append (wal_filePath wl) w with
  | (Some err, w) => (Some (Errorf_w "failed to open WAL file" err), w)
  | (None, w) => (None, file_WriteString (wal_filePath wl) (Sprintf_entry key val) w)
  end.

Definition WAL_Recover (wl : WAL) (w : World) : string + gmap string string :=
  match os_Open (wal_filePath wl) w with
  | inl _ => inr ∅      (* the only failure of [os.Open] here is [IsNotExist] *)
  | inr bytes =>
      match Scanner_all bytes with
      | (lines, Some err) => inl (Errorf_w "failed to read WAL" err)
      | (lines, None) => inr (foldl recover_line ∅ lines)
      end
  end.

Definition WAL_Clear (wl : WAL) (w : World) : error * World :=
  match fs_files w !! wal_filePath wl with
  | None => (None, w)
  | Some _ => os_Truncate_0 (wal_filePath wl) w
  end.

(** ** lsmtree.go *)

Definition memTableSizeThreshold : Z := 1024 * 1024.

Record LSMTree := mkLSMTree {
  dataDir : string;
  memTable : MemTable;
  ssTables : list SSTable;      (* oldest first *)
  wal : WAL;
  mutex : RWMutex;
  cache : Cache
}.

Definition set_memTable (m : MemTable) (l : LSMTree) : LSMTree :=
  mkLSMTree (dataDir l) m (ssTables l) (wal l) (mutex l) (cache l).
Definition set_ssTables (ts : list SSTable) (l : LSMTree) : LSMTree :=
  mkLSMTree (dataDir l) (memTable l) ts (wal l) (mutex l) (cache l).
Definition set_mutex (mu : RWMutex) (l : LSMTree) : LSMTree :=
  mkLSMTree (dataDir l) (memTable l) (ssTables l) (wal l) mu (cache l).
Definition set_cache (c : Cache) (l : LSMTree) : LSMTree :=
  mkLSMTree (dataDir l) (memTable l) (ssTables l) (wal l) (mutex l) c.

Definition NewLSMTree (dataDir : string) : LSMTree :=
  mkLSMTree dataDir NewMemTable [] (NewWAL dataDir) RWMutex_free (NewCache 1000).

(** What a call of a method of the engine comes to: it returns a result in
    a new state, or the calling goroutine waits for [l.mutex] for ever. *)
Inductive outcome (A : Type) : Type :=
  | Returns (a : A) (w : World) (l : LSMTree)
  | Blocks.
Arguments Returns {A} a w l.
Arguments Blocks {A}.

(** [l.mutex.Lock(); defer l.mutex.Unlock()] around a body. *)
Definition with_Lock {A : Type} (body : World → LSMTree → outcome A)
    (w : World) (l : LSMTree) : outcome A :=
  match RWMutex_Lock (mutex l) with
  | None => Blocks
  | Some mu =>
      match body w (set_mutex mu l) with
      | Returns a w' l' => Returns a w' (set_mutex (RWMutex_Unlock (mutex l')) l')
      | Blocks => Blocks
      end
  end.

(** [l.mutex.RLock(); defer l.mutex.RUnlock()] around a body. *)
Definition with_RLock {A : Type} (body : World → LSMTree → outcome A)
    (w : World) (l : LSMTree) : outcome A :=
  match RWMutex_RLock (mutex l) with
  | None => Blocks
  | Some mu =>
      match body w (set_mutex mu l) with
      | Returns a w' l' => Returns a w' (set_mutex (RWMutex_RUnlock (mutex l')) l')
      | Blocks => Blocks
      end
  end.

(** The loop of [Get] over the segments, newest first: the first error or
    non-empty value, [inr None] when the loop runs to its end. *)
Fixpoint search_ssTables (newest_first : list SSTable) (key : string) (w : World)
  : string + option string :=
  match newest_first with
  | [] => inr None
  | s :: older =>
      match SSTable_Get s key w with
      | (_, Some err) => inl (Errorf_w "failed to get value from SSTable" err)
      | (val, None) =>
          if decide (val = EmptyString) then search_ssTables older key w
          else inr (Some val)
      end
  end.

(** The two loops of [List]: over the write buffer, and over the pairs
    one segment lists. *)
Definition list_memTable_entry (result : gmap string string) (kv : string * string)
  : gmap string string :=
  if decide (kv.2 = EmptyString) then result else <[kv.1 := kv.2]> result.

Definition list_segment_entry (result : gmap string string) (kv : string * string)
  : gmap string string :=
  match result !! kv.1 with
  | Some _ => result
  | None => if decide (kv.2 = EmptyString) then result else <[kv.1 := kv.2]> result
  end.

Section lsmtree.
Context `{GoRuntime}.

Definition LSMTree_flushMemTable (w : World) (l : LSMTree) : error * World * LSMTree :=
  match NewSSTable (dataDir l) (memTable l) w with
  | (inl err, w) => (Some (Errorf_w "failed to create SSTable" err), w, l)
  | (inr ssTable, w) =>
      (None, go_spawn w,
       set_memTable NewMemTable (set_ssTables (ssTables l ++ [ssTable]) l))
  end.

Definition LSMTree_Set (key val : string) : World → LSMTree → outcome error :=
  with_Lock (λ w l,
    match WAL_Log (wal l) key val w with
    | (Some err, w) => Returns (Some (Errorf_w "failed to log to WAL" err)) w l
    | (None, w) =>
        let l := set_memTable (MemTable_Set (memTable l) key val) l in
        let '(c, w) := Cache_Set (cache l) key val w in
        let l := set_cache c l in
        if MemTable_Size (memTable l) >=? memTableSizeThreshold
        then match LSMTree_flushMemTable w l with
             | (Some err, w, l) => Returns (Some (Errorf_w "failed to flush memtable" err)) w l
             | (None, w, l) => Returns None w l
             end
        else Returns None w l
    end).

Definition LSMTree_Get (key : string) : World → LSMTree → outcome (string * error) :=
  with_RLock (λ w l,
    match Cache_Get (cache l) key with
    | ((val, true), c) => Returns (val, None) w (set_cache c l)
    | ((_, false), c) =>
        let l := set_cache c l in
        match MemTable_Get (memTable l) key with
        | (val, true) =>
            let '(c, w) := Cache_Set (cache l) key val w in
            Returns (val, None) w (set_cache c l)
        | (_, false) =>
            match search_ssTables (reverse (ssTables l)) key w with
            | inl err => Returns (EmptyString, Some err) w l
            | inr (Some val) =>
                let '(c, w) := Cache_Set (cache l) key val w in
                Returns (val, None) w (set_cache c l)
            | inr None => Returns (EmptyString, None) w l
            end
        end
    end).

Definition LSMTree_Delete (key : string) : World → LSMTree → outcome error :=
  with_Lock (λ w l,
    match LSMTree_Get key w l with
    | Blocks => Blocks
    | Returns (_, Some err) w l =>
        Returns (Some (Errorf_w "failed to check key existence" err)) w l
    | Returns (val, None) w l =>
        if decide (val = EmptyString) then Returns (Some "key not found") w l
        else match LSMTree_Set key EmptyString w l with
             | Blocks => Blocks
             | Returns (Some err) w l =>
                 Returns (Some (Errorf_w "failed to mark key as deleted" err)) w l
             | Returns None w l => Returns None w l
             end
    end).

Definition LSMTree_Recover : World → LSMTree → outcome error :=
  with_Lock (λ w l,
    match WAL_Recover (wal l) w with
    | inl err => Returns (Some (Errorf_w "failed to recover from WAL" err)) w l
    | inr recovered =>
        let '(visit, w) := range recovered w in
        let l := set_memTable
                   (foldl (λ m (kv : string * string), MemTable_Set m kv.1 kv.2)
                          (memTable l) visit) l in
        if 0 <? Z.of_nat (base.size recovered)
        then match WAL_Clear (wal l) w with
             | (Some err, w) => Returns (Some (Errorf_w "failed to clear WAL" err)) w l
             | (None, w) => Returns None w l
             end
        else Returns None w l
    end).

(** The loop of [List] over the segments, newest first. *)
Fixpoint list_ssTables (newest_first : list SSTable) (result : gmap string string)
    (w : World) : (string + gmap string string) * World :=
  match newest_first with
  | [] => (inr result, w)
  | s :: older =>
      match SSTable_List s w with
      | inl err => (inl (Errorf_w "failed to list entries from SSTable" err), w)
      | inr listed =>
          let '(visit, w) := range listed w in
          list_ssTables older (foldl list_segment_entry result visit) w
      end
  end.

Definition LSMTree_List : World → LSMTree → outcome (string + gmap string string) :=
  with_RLock (λ w l,
    let '(visit, w) := range (MemTable_Entries (memTable l)) w in
    let result := foldl list_memTable_entry ∅ visit in
    let '(r, w) := list_ssTables (reverse (ssTables l)) result w in
    Returns r w l).

Definition LSMTree_compactSSTables (l : LSMTree) (ssTable1 ssTable2 : SSTable) (w : World)
  : (string + SSTable) * World :=
  let merge (acc : (string + gmap string string) * World) (ssTable : SSTable) :=
    match acc with
    | (inl err, w) => (inl err, w)
    | (inr mergedEntries, w) =>
        match SSTable_List ssTable w with
        | inl err => (inl (Errorf_w "failed to list entries from SSTable" err), w)
        | inr listed =>
            let '(visit, w) := range listed w in
            (inr (foldl (λ m (kv : string * string), <[kv.1 := kv.2]> m) mergedEntries visit), w)
        end
    end in
  match foldl merge (inr ∅, w) [ssTable1; ssTable2] with
  | (inl err, w) => (inl err, w)
  | (inr mergedEntries, w) =>
      let '(visit, w) := range mergedEntries w in
      let mergedMemTable :=
        foldl (λ m (kv : string * string), MemTable_Set m kv.1 kv.2) NewMemTable visit in
      let '(timestamp, w) := time_Now w in
      let compactedSSTablePath :=
        filepath_Join (dataDir l) ("sstable_compacted_" +:+ pretty timestamp +:+ ".dat") in
      match NewSSTable compactedSSTablePath mergedMemTable w with
      | (inl err, w) => (inl (Errorf_w "failed to create compacted SSTable" err), w)
      | (inr compactedSSTable, w) => (inr compactedSSTable, w)
      end
  end.

Definition remove_old (path : string) (w : World) : World :=
  match os_Remove path w with
  | (Some err, w) => Printf ("Error removing old SSTable file: " +:+ err +:+ String LF "") w
  | (None, w) => w
  end.

Definition LSMTree_triggerCompaction : World → LSMTree → outcome unit :=
  with_Lock (λ w l,
    match ssTables l with
    | oldestSSTable :: secondOldestSSTable :: rest =>
        match LSMTree_compactSSTables l oldestSSTable secondOldestSSTable w with
        | (inl err, w) =>
            Returns () (Printf ("Error during compaction: " +:+ err +:+ String LF "") w) l
        | (inr compactedSSTable, w) =>
            let l := set_ssTables (compactedSSTable :: rest) l in
            let w := remove_old (SSTable_FilePath oldestSSTable) w in
            let w := remove_old (SSTable_FilePath secondOldestSSTable) w in
            Returns () w l
        end
    | _ => Returns () w l
    end).

(** A goroutine started by [go l.triggerCompaction()] gets to run. *)
Definition run_goroutine (w : World) (l : LSMTree) : outcome unit :=
  match goroutines w with
  | O => Returns () w l
  | S n =>
      LSMTree_triggerCompaction
        (mkWorld (fs_dirs w) (fs_files w) (clock w) (rand w) (stdout w) n) l
  end.
End lsmtree.

(** * Properties *)

(** ** Two runtimes to compute with

    Both visit a map in the order of [map_to_list] and read a clock that
    advances by one nanosecond per reading; [int] is 64 bits wide on the
    first and 32 bits wide on the second. *)

Lemma canonical_range_perm (V : Type) (r : nat) (m : gmap string V) :
  map_to_list m ≡ₚ map_to_list m.
Proof. reflexivity. Qed.

Lemma Z_succ_gt (t : Z) : t < Z.succ t.
Proof. lia. Qed.

Definition go_amd64 : GoRuntime := {|
  IntSize := 64;
  IntSize_32_or_64 := or_intror eq_refl;
  mapRange := λ V _ m, map_to_list m;
  mapRange_perm := canonical_range_perm;
  clockStep := Z.succ;
  clockStep_lt := Z_succ_gt
|}.

Definition go_386 : GoRuntime := {|
  IntSize := 32;
  IntSize_32_or_64 := or_introl eq_refl;
  mapRange := λ V _ m, map_to_list m;
  mapRange_perm := canonical_range_perm;
  clockStep := Z.succ;
  clockStep_lt := Z_succ_gt
|}.

(** A runtime whose [range] loops visit the key k first when the map
    holds it.  Go leaves the order unspecified, so this is one of the
    orders a run may see. *)
Definition k_first {V : Type} (m : gmap string V) : list (string * V) :=
  match m !! "k" with
  | Some x => ("k", x) :: map_to_list (delete "k" m)
  | None => map_to_list m
  end.

Lemma k_first_perm (V : Type) (r : nat) (m : gmap string V) :
  k_first m ≡ₚ map_to_list m.
Proof.
  unfold k_first. destruct (m !! "k") as [x|] eqn:Hk; [|done].
  by apply map_to_list_delete.
Qed.

Definition go_k_first : GoRuntime := {|
  IntSize := 64;
  IntSize_32_or_64 := or_intror eq_refl;
  mapRange := λ V _ m, k_first m;
  mapRange_perm := k_first_perm;
  clockStep := Z.succ;
  clockStep_lt := Z_succ_gt
|}.

(** ** The membership filter *)

(** The hash package agrees with the published FNV-1a test vectors. *)
Example fnv1a_test_vectors :
  fnv1a_Write fnv_offset64 "" = 0xcbf29ce484222325 ∧
  fnv1a_Write fnv_offset64 "a" = 0xaf63dc4c8601ec8c ∧
  fnv1a_Write fnv_offset64 "foobar" = 0x85944171f73967e8.
Proof. by vm_compute. Qed.

Lemma BloomFilter_Add_loop (bf : BloomFilter) (key : string) (ss : list Z) :
  let bf' := foldl (λ b i, mkBloomFilter ({[ BloomFilter_hash b key i ]} ∪ bitArray b)
                                        (size b) (hashFuncs b)) bf ss in
  size bf' = size bf ∧ hashFuncs bf' = hashFuncs bf ∧
  ∀ x, x ∈ bitArray bf' ↔ x ∈ bitArray bf ∨ ∃ i, i ∈ ss ∧ x = BloomFilter_hash bf key i.
Proof.
  revert bf. induction ss as [|i ss IH]; intros bf; simpl.
  - split_and!; [done..|]. intros x. split; [auto|].
    intros [?|(i & Hi & _)]; [done|]. by apply elem_of_nil in Hi.
  - destruct (IH (mkBloomFilter ({[BloomFilter_hash bf key i]} ∪ bitArray bf)
                                (size bf) (hashFuncs bf))) as (Hs & Hh & Hb).
    split_and!; [done..|]. intros x. rewrite Hb. simpl.
    rewrite elem_of_union, elem_of_singleton. unfold BloomFilter_hash. simpl.
    split.
    + intros [[->|?]|(j & Hj & ->)]; [right; exists i|by left|right; exists j];
        (split; [|done]); [by left|by right].
    + intros [?|(j & Hj & ->)]; [by left; right|].
      apply elem_of_cons in Hj as [->|Hj]; [by left; left|right; by exists j].
Qed.

Lemma BloomFilter_Add_size (bf : BloomFilter) (key : string) :
  size (BloomFilter_Add bf key) = size bf.
Proof. by destruct (BloomFilter_Add_loop bf key (seeds bf)) as (? & ? & ?). Qed.

Lemma BloomFilter_Add_hashFuncs (bf : BloomFilter) (key : string) :
  hashFuncs (BloomFilter_Add bf key) = hashFuncs bf.
Proof. by destruct (BloomFilter_Add_loop bf key (seeds bf)) as (? & ? & ?). Qed.

Lemma BloomFilter_Add_bits (bf : BloomFilter) (key : string) (x : Z) :
  x ∈ bitArray (BloomFilter_Add bf key) ↔
  x ∈ bitArray bf ∨ ∃ i, i ∈ seeds bf ∧ x = BloomFilter_hash bf key i.
Proof. by destruct (BloomFilter_Add_loop bf key (seeds bf)) as (? & ? & ?). Qed.

Lemma BloomFilter_hash_size (bf bf' : BloomFilter) (key : string) (i : Z) :
  size bf' = size bf → BloomFilter_hash bf' key i = BloomFilter_hash bf key i.
Proof. unfold BloomFilter_hash. by intros ->. Qed.

Lemma BloomFilter_MightContain_spec (bf : BloomFilter) (key : string) :
  BloomFilter_MightContain bf key = true ↔
  ∀ i, i ∈ seeds bf → BloomFilter_hash bf key i ∈ bitArray bf.
Proof.
  unfold BloomFilter_MightContain. rewrite forallb_forall. split.
  - intros Hall i Hi. apply list_elem_of_In, Hall in Hi. by apply bool_decide_eq_true in Hi.
  - intros Hall i Hi. apply bool_decide_eq_true, Hall. by apply list_elem_of_In.
Qed.

(** A key just added is reported. *)
Lemma BloomFilter_MightContain_Add (bf : BloomFilter) (key : string) :
  BloomFilter_MightContain (BloomFilter_Add bf key) key = true.
Proof.
  apply BloomFilter_MightContain_spec. intros i Hi.
  apply BloomFilter_Add_bits. right. exists i. split.
  - revert Hi. unfold seeds. by rewrite BloomFilter_Add_hashFuncs.
  - apply BloomFilter_hash_size, BloomFilter_Add_size.
Qed.

(** Adding another key never clears a report. *)
Lemma BloomFilter_MightContain_mono (bf : BloomFilter) (key other : string) :
  BloomFilter_MightContain bf key = true →
  BloomFilter_MightContain (BloomFilter_Add bf other) key = true.
Proof.
  rewrite !BloomFilter_MightContain_spec. intros Hall i Hi.
  unfold seeds in Hi. rewrite BloomFilter_Add_hashFuncs in Hi.
  apply BloomFilter_Add_bits. left.
  rewrite (BloomFilter_hash_size bf) by apply BloomFilter_Add_size. by apply Hall.
Qed.

Lemma BloomFilter_MightContain_adds (bf : BloomFilter) (key : string) (others : list string) :
  BloomFilter_MightContain bf key = true →
  BloomFilter_MightContain (foldl BloomFilter_Add bf others) key = true.
Proof.
  revert bf. induction others as [|k ks IH]; intros bf Hbf; simpl; [done|].
  by apply IH, BloomFilter_MightContain_mono.
Qed.

(** Every position [Add] writes and [MightContain] reads lies inside the
    bit array, so indexing the slice never panics. *)
Lemma BloomFilter_hash_in_range (bf : BloomFilter) (key : string) (i : Z) :
  0 < size bf → 0 ≤ BloomFilter_hash bf key i < size bf.
Proof. intros. unfold BloomFilter_hash. by apply Z.mod_pos_bound. Qed.

Lemma BloomFilter_adds_shape (keys : list string) :
  size (foldl BloomFilter_Add NewBloomFilter keys) = 2 ^ 21 ∧
  hashFuncs (foldl BloomFilter_Add NewBloomFilter keys) = 7.
Proof.
  induction keys as [|k ks IH] using rev_ind; [done|].
  by rewrite foldl_app; simpl; rewrite BloomFilter_Add_size, BloomFilter_Add_hashFuncs.
Qed.

(** C7. Filter soundness: a filter starts as [NewBloomFilter] (2^21 bits,
    7 hash functions, each the 64-bit FNV-1a hash of the key followed by
    the seed byte, reduced modulo the size).  Whatever keys were added
    before and whatever keys are added after, a key that was added is
    reported by [MightContain]: there are no false negatives.  False
    positives do occur: after adding the two keys k43123 and k128035 the
    filter also reports the key x, which was never added. *)
Theorem BloomFilter_sound :
  size NewBloomFilter = 2 ^ 21 ∧ hashFuncs NewBloomFilter = 7 ∧
  (∀ (bf : BloomFilter) (key : string) (seed : Z),
     BloomFilter_hash bf key seed =
     fnv1a_Write fnv_offset64 (key +:+ String (byte_of_uint seed) EmptyString) mod size bf) ∧
  (∀ (before after : list string) (key : string),
     BloomFilter_MightContain
       (foldl BloomFilter_Add
              (BloomFilter_Add (foldl BloomFilter_Add NewBloomFilter before) key) after)
       key = true) ∧
  (let bf := foldl BloomFilter_Add NewBloomFilter ["k43123"; "k128035"] in
   BloomFilter_MightContain bf "x" = true ∧ BloomFilter_MightContain NewBloomFilter "x" = false).
Proof.
  split_and!; [done|done| | |by vm_compute].
  - intros bf key seed. unfold BloomFilter_hash. f_equal.
    generalize fnv_offset64. induction key as [|c key IH]; intros h; [done|]. apply IH.
  - intros before after key.
    apply BloomFilter_MightContain_adds, BloomFilter_MightContain_Add.
Qed.

(** ** The recency cache *)

(** The operations a client applies to a cache. *)
Inductive CacheOp : Type :=
  | OpSet (key val : string)
  | OpGet (key : string).

Section cache_run.
Context `{GoRuntime}.

Definition Cache_step (cw : Cache * World) (op : CacheOp) : Cache * World :=
  match op with
  | OpSet key val => Cache_Set cw.1 key val cw.2
  | OpGet key => ((Cache_Get cw.1 key).2, cw.2)
  end.

Definition Cache_run (ops : list CacheOp) (cw : Cache * World) : Cache * World :=
  foldl Cache_step cw ops.

(** [n] calls of [Get(key)] in a row. *)
Definition Cache_hits (n : nat) (key : string) (c : Cache) : Cache :=
  Nat.iter n (λ c, (Cache_Get c key).2) c.
End cache_run.

Section cache_facts.
Context `{GoRuntime}.

Lemma MaxInt_large : 2 ^ 31 - 1 ≤ MaxInt.
Proof. unfold MaxInt. destruct IntSize_32_or_64 as [-> | ->]; simpl; lia. Qed.

Lemma wrap_int_id (x : Z) : - MaxInt - 1 ≤ x ≤ MaxInt → wrap_int x = x.
Proof.
  unfold wrap_int, MaxInt.
  destruct IntSize_32_or_64 as [-> | ->]; simpl; intros ?;
    rewrite Z.mod_small; lia.
Qed.

(** The loop of [evict], started from any candidate: the count it ends
    with is below every count it saw, and the key it ends with is the
    candidate or a key it saw with that count. *)
Lemma evict_loop_spec (visit : list (string * Z)) (k0 : string) (c0 : Z) :
  let best := foldl (λ (best : string * Z) (kc : string * Z),
                       if kc.2 <? best.2 then (kc.1, kc.2) else best) (k0, c0) visit in
  best.2 ≤ c0 ∧ (∀ kc, kc ∈ visit → best.2 ≤ kc.2) ∧
  (best = (k0, c0) ∧ (∀ kc, kc ∈ visit → c0 ≤ kc.2) ∨ best ∈ visit).
Proof.
  revert k0 c0. induction visit as [|[k c] visit IH]; intros k0 c0; simpl.
  - split_and!; [lia| |left; split; [done|]]; intros kc Hkc; by apply elem_of_nil in Hkc.
  - destruct (Z.ltb_spec c c0) as [Hlt|Hge].
    + destruct (IH k c) as (Hle & Hall & Hin). split_and!; [lia| |].
      * intros kc [->|?]%elem_of_cons; [done|by apply Hall].
      * right. destruct Hin as [[-> _]|Hin]; [by left|by right].
    + destruct (IH k0 c0) as (Hle & Hall & Hin). split_and!; [done| |].
      * intros kc [->|?]%elem_of_cons; [simpl; lia|by apply Hall].
      * destruct Hin as [[-> Hmin]|Hin]; [left|by right; right].
        split; [done|]. intros kc [->|?]%elem_of_cons; [done|by apply Hmin].
Qed.

(** When some count lies below [MaxInt], [evict] removes a key that is in
    the cache and whose count is the smallest. *)
Lemma least_accessed_min (visit : list (string * Z)) :
  (∃ kc, kc ∈ visit ∧ kc.2 < MaxInt) →
  least_accessed visit ∈ visit ∧ ∀ kc, kc ∈ visit → (least_accessed visit).2 ≤ kc.2.
Proof.
  intros (kc & Hkc & Hlt). unfold least_accessed.
  destruct (evict_loop_spec visit EmptyString MaxInt) as (_ & Hall & [[_ Hmin]|Hin]).
  - apply Hmin in Hkc. lia.
  - split; [done|]. apply Hall.
Qed.

(** When every count equals [MaxInt], the loop keeps its initial
    candidate, the empty key. *)
Lemma least_accessed_saturated (visit : list (string * Z)) :
  (∀ kc, kc ∈ visit → kc.2 = MaxInt) → least_accessed visit = (EmptyString, MaxInt).
Proof.
  unfold least_accessed. induction visit as [|[k c] visit IH]; intros Hall; [done|].
  assert (c = MaxInt) as -> by (apply (Hall (k, c)); by left).
  simpl. rewrite Z.ltb_irrefl.
  apply IH. intros kc Hkc. apply Hall. by right.
Qed.

Lemma Cache_hits_count (n : nat) (key : string) (c : Cache) (c0 : Z) :
  is_Some (entries c !! key) → accessCount c !! key = Some c0 →
  - MaxInt - 1 ≤ c0 → c0 + Z.of_nat n ≤ MaxInt →
  entries (Cache_hits n key c) = entries c ∧
  maxSize (Cache_hits n key c) = maxSize c ∧
  accessCount (Cache_hits n key c) = <[key := c0 + Z.of_nat n]> (accessCount c).
Proof.
  intros [e He] Hc Hlo. induction n as [|n IH]; intros Hhi.
  - simpl. split_and!; [done..|]. rewrite Z.add_0_r. by rewrite insert_id.
  - destruct IH as (IHe & IHm & IHa); [lia|].
    unfold Cache_hits in *. simpl.
    set (c' := Nat.iter n _ c) in *. unfold Cache_Get.
    rewrite IHe, He. simpl. split_and!; [done..|].
    rewrite IHa, lookup_insert_eq. simpl. rewrite insert_insert_eq.
    rewrite wrap_int_id by lia. f_equal. lia.
Qed.
End cache_facts.

Section cache_capacity.
Context `{GoRuntime}.

(** A [range] loop visits exactly the pairs of the map. *)
Lemma range_elem {V : Type} (m : gmap string V) (w : World) (k : string) (v : V) :
  (k, v) ∈ (range m w).1 ↔ m !! k = Some v.
Proof. simpl. by rewrite mapRange_perm, elem_of_map_to_list. Qed.

Lemma range_world {V : Type} (m : gmap string V) (w : World) :
  (range m w).2 = set_rand (S (rand w)) w.
Proof. done. Qed.

(** What keeps a cache within its capacity [N] after [n] operations. *)
Definition cache_inv (N n : Z) (c : Cache) : Prop :=
  0 ≤ n ∧ maxSize c = N ∧
  Z.of_nat (base.size (entries c)) ≤ N ∧
  (∀ k, is_Some (entries c !! k) ↔ is_Some (accessCount c !! k)) ∧
  (∀ k cnt, accessCount c !! k = Some cnt → 1 ≤ cnt ≤ n).

Lemma cache_inv_Get (N n : Z) (c : Cache) (key : string) :
  n < MaxInt → cache_inv N n c → cache_inv N (n + 1) (Cache_Get c key).2.
Proof.
  intros Hn (Hn0 & Hmax & Hsize & Hdom & Hcnt). unfold Cache_Get.
  destruct (entries c !! key) as [e|] eqn:He; simpl.
  - destruct (proj1 (Hdom key)) as [cnt Hk]; [by rewrite He|].
    rewrite Hk. simpl. pose proof (Hcnt _ _ Hk). pose proof MaxInt_large.
    rewrite wrap_int_id by lia.
    split_and!; simpl; [lia|done..| |].
    + intros k. destruct (decide (k = key)) as [->|];
        [rewrite lookup_insert_eq, He; by split|by rewrite lookup_insert_ne].
    + intros k cnt'. destruct (decide (k = key)) as [->|].
      * rewrite lookup_insert_eq. intros [= <-]. lia.
      * rewrite lookup_insert_ne by done. intros ?%Hcnt. lia.
  - split_and!; [lia|done..|]. intros k cnt ?%Hcnt. lia.
Qed.

(** At capacity with every count below [MaxInt], [evict] removes one
    key the cache holds, and no key has a smaller count. *)
Lemma Cache_evict_min (c : Cache) (w : World) :
  (∀ k, is_Some (entries c !! k) ↔ is_Some (accessCount c !! k)) →
  (∀ k cnt, accessCount c !! k = Some cnt → cnt < MaxInt) →
  (0 < base.size (entries c))%nat →
  ∃ victim cnt,
    accessCount c !! victim = Some cnt ∧
    (∀ k cnt', accessCount c !! k = Some cnt' → cnt ≤ cnt') ∧
    (Cache_evict c w).1 =
      mkCache (delete victim (entries c)) (maxSize c) (delete victim (accessCount c)).
Proof.
  intros Hdom Hlt Hsize. unfold Cache_evict.
  destruct (range (accessCount c) w) as [visit w'] eqn:Hr.
  assert (Hvisit : ∀ k v, (k, v) ∈ visit ↔ accessCount c !! k = Some v).
  { intros k v. rewrite <-(range_elem _ w). by rewrite Hr. }
  destruct (least_accessed_min visit) as [Hin Hmin].
  { destruct (map_choose (entries c)) as (k & e & He).
    { intros He. rewrite He, map_size_empty in Hsize. lia. }
    destruct (proj1 (Hdom k)) as [cnt Hk]; [by rewrite He|].
    exists (k, cnt). split; [by apply Hvisit|]. by apply (Hlt k). }
  destruct (least_accessed visit) as [victim cnt] eqn:Hle. simpl.
  exists victim, cnt. split_and!; [by apply Hvisit| |done].
  intros k cnt' Hk. by apply (Hmin (k, cnt')), Hvisit.
Qed.

Lemma Cache_Set_at_capacity (N n : Z) (c : Cache) (key val : string) (w : World) :
  1 ≤ N → n < MaxInt → cache_inv N n c → N ≤ Z.of_nat (base.size (entries c)) →
  ∃ victim cnt,
    accessCount c !! victim = Some cnt ∧
    (∀ k cnt', accessCount c !! k = Some cnt' → cnt ≤ cnt') ∧
    entries (Cache_Set c key val w).1 =
      <[key := mkCacheEntry val (clock w)]> (delete victim (entries c)) ∧
    accessCount (Cache_Set c key val w).1 = <[key := 1]> (delete victim (accessCount c)).
Proof.
  intros HN Hn (Hn0 & Hmax & Hsize & Hdom & Hcnt) Hfull.
  destruct (Cache_evict_min c w) as (victim & cnt & Hv & Hmin & Hev); [done| |lia|].
  { intros k cnt ?%Hcnt. lia. }
  exists victim, cnt.
  assert (Hw : clock (Cache_evict c w).2 = clock w) by done.
  unfold Cache_Set.
  destruct (Z.geb_spec (Z.of_nat (base.size (entries c))) (maxSize c)); [|lia].
  destruct (Cache_evict c w) as [c' w'] eqn:Hc'. simpl in Hev, Hw. subst c'.
  simpl. by rewrite Hw.
Qed.

Lemma cache_inv_Set (N n : Z) (c : Cache) (key val : string) (w : World) :
  1 ≤ N → n < MaxInt → cache_inv N n c → cache_inv N (n + 1) (Cache_Set c key val w).1.
Proof.
  intros HN Hn Hinv. pose proof Hinv as (Hn0 & Hmax & Hsize & Hdom & Hcnt).
  assert (Hins : ∀ (es : gmap string CacheEntry) (ac : gmap string Z) e,
    (∀ k, is_Some (es !! k) ↔ is_Some (ac !! k)) →
    (∀ k cnt, ac !! k = Some cnt → 1 ≤ cnt ≤ n) →
    Z.of_nat (base.size es) ≤ N - 1 ∨ (Z.of_nat (base.size es) ≤ N ∧ is_Some (es !! key)) →
    cache_inv N (n + 1) (mkCache (<[key := e]> es) N (<[key := 1]> ac))).
  { intros es ac e Hd Hc Hs. split_and!; simpl; [lia|done| | |].
    - rewrite map_size_insert. destruct (es !! key) eqn:?; simpl; [lia|].
      destruct Hs as [?|[_ [? ?]]]; [lia|done].
    - intros k. destruct (decide (k = key)) as [->|];
        [rewrite !lookup_insert_eq; by split|by rewrite !lookup_insert_ne].
    - intros k cnt. destruct (decide (k = key)) as [->|].
      + rewrite lookup_insert_eq. intros [= <-]. lia.
      + rewrite lookup_insert_ne by done. intros ?%Hc. lia. }
  destruct (Z.geb_spec (Z.of_nat (base.size (entries c))) (maxSize c)) as [Hfull|Hroom].
  - destruct (Cache_Set_at_capacity N n c key val w) as (victim & cnt & Hv & _ & He & Ha);
      [done..|lia|].
    destruct (Cache_Set c key val w) as [c' w'] eqn:Hc'. simpl in *.
    assert (maxSize c' = N) as Hm.
    { unfold Cache_Set in Hc'.
      destruct (Z.of_nat (base.size (entries c)) >=? maxSize c); simpl in Hc';
        injection Hc' as <- _; done. }
    destruct c' as [es' m' ac']. simpl in *. subst.
    apply Hins.
    + intros k. destruct (decide (k = victim)) as [->|];
        [rewrite !lookup_delete_eq; split; by intros []|by rewrite !lookup_delete_ne].
    + intros k c0 [_ ?]%lookup_delete_Some. by apply Hcnt in H0.
    + left. rewrite map_size_delete_Some by (apply Hdom; by rewrite Hv). lia.
  - unfold Cache_Set.
    destruct (Z.geb_spec (Z.of_nat (base.size (entries c))) (maxSize c)); [lia|].
    simpl. rewrite Hmax. apply Hins; [done..|]. left. lia.
Qed.

Lemma cache_inv_run (N n : Z) (ops : list CacheOp) (c : Cache) (w : World) :
  1 ≤ N → n + Z.of_nat (length ops) ≤ MaxInt → cache_inv N n c →
  cache_inv N (n + Z.of_nat (length ops)) (Cache_run ops (c, w)).1.
Proof.
  intros HN. revert n c w. induction ops as [|op ops IH]; intros n c w Hlen Hinv.
  - simpl. by rewrite Z.add_0_r.
  - simpl in *. replace (n + Z.of_nat (S (length ops))) with ((n + 1) + Z.of_nat (length ops)) by lia.
    destruct op as [key val|key]; simpl.
    + destruct (Cache_Set c key val w) as [c' w'] eqn:Hc'.
      apply IH; [lia|]. change c' with (c', w').1. rewrite <-Hc'.
      apply cache_inv_Set; [done|lia|done].
    + apply IH; [lia|]. apply cache_inv_Get; [lia|done].
Qed.

Lemma cache_inv_New (N : Z) : 0 ≤ N → cache_inv N 0 (NewCache N).
Proof.
  intros. split_and!; simpl; [done|done| | |].
  - by rewrite map_size_empty.
  - intros k. by rewrite !lookup_empty.
  - intros k cnt. by rewrite lookup_empty.
Qed.

(** X2. As long as no more than [MaxInt] operations have been applied, the
    cache holds at most [N] entries. *)
Theorem Cache_within_capacity (N : Z) (ops : list CacheOp) (w : World) :
  1 ≤ N → Z.of_nat (length ops) ≤ MaxInt →
  Z.of_nat (base.size (entries (Cache_run ops (NewCache N, w)).1)) ≤ N.
Proof.
  intros HN Hlen.
  destruct (cache_inv_run N 0 ops (NewCache N) w) as (_ & _ & Hsize & _);
    [done|lia|apply cache_inv_New; lia|done].
Qed.

(** X3. In such a cache, [Set] at capacity evicts a key with the smallest
    access count and inserts the new entry with count 1. *)
Theorem Cache_Set_evicts_least_accessed
    (N : Z) (ops : list CacheOp) (w w' : World) (key val : string) :
  1 ≤ N → Z.of_nat (length ops) < MaxInt →
  let c := (Cache_run ops (NewCache N, w)).1 in
  N ≤ Z.of_nat (base.size (entries c)) →
  ∃ victim cnt,
    accessCount c !! victim = Some cnt ∧
    (∀ k cnt', accessCount c !! k = Some cnt' → cnt ≤ cnt') ∧
    entries (Cache_Set c key val w').1 =
      <[key := mkCacheEntry val (clock w')]> (delete victim (entries c)) ∧
    accessCount (Cache_Set c key val w').1 = <[key := 1]> (delete victim (accessCount c)).
Proof.
  intros HN Hlen c Hfull.
  apply (Cache_Set_at_capacity N (Z.of_nat (length ops))); [done..| |done].
  pose proof (cache_inv_run N 0 ops (NewCache N) w HN) as Hrun.
  rewrite Z.add_0_l in Hrun. apply Hrun; [lia|]. apply cache_inv_New. lia.
Qed.

Lemma Cache_run_hits (n : nat) (key : string) (c : Cache) (w : World) :
  foldl Cache_step (c, w) (replicate n (OpGet key)) = (Cache_hits n key c, w).
Proof.
  revert c. induction n as [|n IH]; intros c; [done|].
  unfold Cache_hits. rewrite Nat.iter_succ_r. simpl. apply IH.
Qed.

Lemma Cache_Set_first (N : Z) (key val : string) (w : World) :
  1 ≤ N →
  Cache_Set (NewCache N) key val w =
  (mkCache {[key := mkCacheEntry val (clock w)]} N {[key := 1]},
   set_clock (clockStep (clock w)) w).
Proof.
  intros. unfold Cache_Set. simpl. rewrite map_size_empty.
  destruct (Z.geb_spec (Z.of_nat 0) N); [lia|]. simpl.
  by rewrite !insert_empty.
Qed.

(** C9. The capacity is not a hard ceiling: in a cache of capacity 1,
    [Set a], then [MaxInt - 1] hits of [a], bring the count of [a] to
    [MaxInt]; the next [Set b] runs [evict], whose loop looks for a count
    strictly below [MaxInt], finds none and deletes the empty key, so the
    cache ends with two entries.  This holds for both widths of [int] and
    every iteration order. *)
Theorem Cache_capacity_exceeded (w : World) :
  base.size (entries (Cache_run (OpSet "a" "x" ::
                                 replicate (Z.to_nat (MaxInt - 1)) (OpGet "a") ++
                                 [OpSet "b" "y"])
                                (NewCache 1, w)).1) = 2%nat.
Proof.
  pose proof MaxInt_large as HM.
  unfold Cache_run. cbn [foldl]. rewrite foldl_app.
  unfold Cache_step at 3. cbn [fst snd].
  rewrite Cache_Set_first by done. rewrite Cache_run_hits.
  set (c1 := mkCache _ 1 _).
  destruct (Cache_hits_count (Z.to_nat (MaxInt - 1)) "a" c1 1) as (He & Hm & Ha).
  { subst c1. simpl. by rewrite lookup_singleton_eq. }
  { subst c1. simpl. by rewrite lookup_singleton_eq. }
  { lia. }
  { lia. }
  set (c2 := Cache_hits _ _ _) in *.
  cbn [foldl Cache_step fst snd].
  unfold Cache_Set. rewrite He, Hm. subst c1. cbn [entries maxSize accessCount].
  rewrite map_size_singleton.
  destruct (Z.geb_spec (Z.of_nat 1) 1); [|lia].
  unfold Cache_evict. cbn [range fst snd].
  rewrite least_accessed_saturated.
  - cbn [fst snd time_Now entries]. rewrite He. cbn [entries].
    rewrite delete_singleton_ne by done.
    rewrite map_size_insert_None by (by rewrite lookup_singleton_ne).
    by rewrite map_size_singleton.
  - intros [k cnt]. rewrite mapRange_perm, elem_of_map_to_list, Ha.
    cbn [accessCount]. rewrite insert_singleton_eq.
    intros [<- <-]%lookup_singleton_Some. simpl. lia.
Qed.
End cache_capacity.

(** ** The engine and its lock *)

Section engine_lock.
Context `{GoRuntime}.

Lemma RWMutex_Lock_held (mu mu' : RWMutex) :
  RWMutex_Lock mu = Some mu' → writer mu' = true.
Proof. unfold RWMutex_Lock. destruct (writer mu), (readers mu); by intros [= <-]. Qed.

Lemma set_mutex_mutex (mu : RWMutex) (l : LSMTree) : mutex (set_mutex mu l) = mu.
Proof. done. Qed.

(** [Get] and [List] wait while a writer holds the lock. *)
Lemma LSMTree_Get_blocks (key : string) (w : World) (l : LSMTree) :
  writer (mutex l) = true → LSMTree_Get key w l = Blocks.
Proof.
  intros Hw. unfold LSMTree_Get, with_RLock, RWMutex_RLock. by rewrite Hw.
Qed.

(** The [Get] that [Delete] calls once it holds the write lock. *)
Lemma LSMTree_Get_under_Lock (key : string) (w : World) (l : LSMTree) (mu : RWMutex) :
  RWMutex_Lock (mutex l) = Some mu → LSMTree_Get key w (set_mutex mu l) = Blocks.
Proof.
  intros Hlock. apply LSMTree_Get_blocks.
  rewrite set_mutex_mutex. by eapply RWMutex_Lock_held.
Qed.

(** C6. [Delete] takes the write lock and then calls [Get], which asks
    for the read lock of the same mutex: whatever the state and the key,
    the call never returns, neither with the error "key not found" nor
    with success. *)
Theorem LSMTree_Delete_blocks (key : string) (w : World) (l : LSMTree) :
  LSMTree_Delete key w l = Blocks.
Proof.
  unfold LSMTree_Delete, with_Lock.
  destruct (RWMutex_Lock (mutex l)) as [mu|] eqn:Hlock; [|done].
  by rewrite (LSMTree_Get_under_Lock key w l mu Hlock).
Qed.

(** What [List] may change of the machine: nothing but the count of
    [range] loops the runtime has started. *)
Definition same_machine (w w' : World) : Prop :=
  fs_dirs w' = fs_dirs w ∧ fs_files w' = fs_files w ∧ clock w' = clock w ∧
  stdout w' = stdout w ∧ goroutines w' = goroutines w.

Lemma list_ssTables_same_machine (ts : list SSTable) (result : gmap string string)
    (w : World) : same_machine w (list_ssTables ts result w).2.
Proof.
  revert result w. induction ts as [|s ts IH]; intros result w; simpl.
  - by repeat split.
  - destruct (SSTable_List s w) as [err|listed]; simpl; [by repeat split|].
    destruct (IH (foldl list_segment_entry result (mapRange (rand w) listed))
                 (set_rand (S (rand w)) w)) as (? & ? & ? & ? & ?).
    by repeat split.
Qed.

Lemma with_RLock_restores (l : LSMTree) (mu : RWMutex) :
  RWMutex_RLock (mutex l) = Some mu →
  set_mutex (RWMutex_RUnlock mu) (set_mutex mu l) = l.
Proof.
  unfold RWMutex_RLock. destruct l as [d m ts wl [wr rd] c]. simpl.
  destruct wr; [done|]. by intros [= <-].
Qed.

(** C10. [List] is read-only: when it returns, with a listing or with an
    error, the engine (write buffer, segment registry, WAL handle, lock
    and recency cache with its access counts) is the one it was called on,
    and the directories, the files (WAL and segments), the clock, the
    output and the pending goroutines of the machine are unchanged. *)
Theorem LSMTree_List_read_only (w w' : World) (l l' : LSMTree)
    (r : string + gmap string string) :
  LSMTree_List w l = Returns r w' l' →
  l' = l ∧ cache l' = cache l ∧ same_machine w w'.
Proof.
  unfold LSMTree_List, with_RLock.
  destruct (RWMutex_RLock (mutex l)) as [mu|] eqn:Hlock; [|done].
  cbn [range MemTable_Entries].
  destruct (list_ssTables _ _ _) as [r0 w0] eqn:Hls.
  intros [= <- <- <-].
  rewrite with_RLock_restores by done. split_and!; [done..|].
  pose proof (list_ssTables_same_machine (reverse (ssTables (set_mutex mu l)))
    (foldl list_memTable_entry ∅
       (mapRange (rand w) (MemTable_Entries (memTable (set_mutex mu l)))))
    (set_rand (S (rand w)) w)) as Hsame.
  rewrite Hls in Hsame. apply Hsame.
Qed.

(** And [List] does return whenever no writer holds the lock. *)
Lemma LSMTree_List_returns (w : World) (l : LSMTree) :
  writer (mutex l) = false → ∃ r w', LSMTree_List w l = Returns r w' l.
Proof.
  intros Hw. unfold LSMTree_List, with_RLock.
  destruct (RWMutex_RLock (mutex l)) as [mu|] eqn:Hlock;
    [|unfold RWMutex_RLock in Hlock; by rewrite Hw in Hlock].
  cbn [range MemTable_Entries].
  destruct (list_ssTables _ _ _) as [r0 w0] eqn:Hls.
  rewrite set_mutex_mutex, with_RLock_restores by done. by exists r0, w0.
Qed.
End engine_lock.

(** ** Runs of the engine on a concrete machine *)

(** A call on the engine, as a computation on the machine and the engine
    that can block; calls are sequenced with stdpp's monad notation. *)
Definition method (A : Type) : Type := World → LSMTree → outcome A.

Global Instance method_ret : MRet method := λ A a w l, Returns a w l.
Global Instance method_bind : MBind method := λ A B f m w l,
  match m w l with
  | Returns a w' l' => f a w' l'
  | Blocks => Blocks
  end.

(** What a run returns, when it returns. *)
Definition result {A : Type} (o : outcome A) : option A :=
  match o with
  | Returns a _ _ => Some a
  | Blocks => None
  end.

(** The process exits and a new one opens the same data directory:
    nothing but the disk and the clock survives. *)
Definition restart : method () := λ w l,
  Returns () (mkWorld (fs_dirs w) (fs_files w) (clock w) (rand w) [] 0)
             (NewLSMTree (dataDir l)).

(** Observations of the state, for stating what a run has reached. *)
Definition segments_Get (key : string) : method (list (string * error)) := λ w l,
  Returns ((λ s, SSTable_Get s key w) <$> ssTables l) w l.
Definition segments_hold (key : string) : method (list bool) := λ w l,
  Returns ((λ s, bool_decide (is_Some (index s !! key))) <$> ssTables l) w l.
Definition segment_files : method (list (string * option string)) := λ w l,
  Returns ((λ s, (filePath s, fs_files w !! filePath s)) <$> ssTables l) w l.
Definition wal_Recover : method (string + gmap string string) := λ w l,
  Returns (WAL_Recover (wal l) w) w l.
Definition wal_bytes : method (option string) := λ w l,
  Returns (fs_files w !! wal_filePath (wal l)) w l.
Definition cascade (key : string) : method (string + option string) := λ w l,
  Returns (search_ssTables (reverse (ssTables l)) key w) w l.
Definition cached (key : string) : method bool := λ w l,
  Returns (bool_decide (is_Some (entries (cache l) !! key))) w l.
Definition buffered (key : string) : method (option string) := λ w l,
  Returns (data (memTable l) !! key) w l.
Definition printed : method (list string) := λ w l, Returns (stdout w) w l.

Section runs.
Context `{GoRuntime}.

(** The flush [Set] performs once the write buffer holds
    [memTableSizeThreshold] entries, applied here whatever the size. *)
Definition flush : method error := λ w l,
  let '(err, w, l) := LSMTree_flushMemTable w l in Returns err w l.

(** [Set(key, val)] for each key of a list; the errors returned. *)
Fixpoint Set_each (keys : list string) (val : string) : method (list error) :=
  match keys with
  | [] => mret []
  | key :: keys => e ← LSMTree_Set key val; es ← Set_each keys val; mret (e :: es)
  end.
End runs.

(** A machine whose data directory exists and is empty, and a new engine
    on it. *)
Definition empty_disk : World := mkWorld {["/data"]} ∅ 1700000000000000000 0 [] 0.
Definition new_engine : LSMTree := NewLSMTree "/data".

(** [n] keys f0, f1, ... *)
Definition filler_keys (n : nat) : list string := (λ i : nat, "f" +:+ pretty i) <$> seq 0 n.

Section scenarios.
Local Existing Instance go_amd64.

(** A small run with the flush applied directly.  [Set] of the
    value a<LF>b,c under the key k reports success.  Once the write
    buffer is flushed, the segment read [SSTable.Get(k)] returns only a,
    the bytes before the newline.  [WAL.Recover] yields a for k and the
    spurious pair (b, c): the text after the newline is read as a line of
    its own.  With the value a<LF>b, whose second line has no comma,
    that line is dropped. *)
Lemma newline_value_after_flush :
  let spurious := "a" +:+ String LF "b,c" in
  let dropped := "a" +:+ String LF "b" in
  result ((e ← LSMTree_Set "k" spurious; f ← flush; g ← segments_Get "k";
           r ← wal_Recover; mret (e, f, g, r)) empty_disk new_engine)
    = Some (None, None, [("a", None)], inr {[ "k" := "a"; "b" := "c" ]}) ∧
  result ((e ← LSMTree_Set "k" dropped; f ← flush; g ← segments_Get "k";
           r ← wal_Recover; mret (e, f, g, r)) empty_disk new_engine)
    = Some (None, None, [("a", None)], inr {[ "k" := "a" ]}).
Proof. split; vm_compute; reflexivity. Qed.

(** A small run with the flush applied directly.  [Delete(k)] never
    returns.  When the tombstone is written by [Set] instead, after the
    value v was flushed to a segment, [Get(k)] is empty but [List]
    contains k with the value v; it still does after a second flush has
    put the tombstone into a segment of its own. *)
Lemma tombstone_listed_after_flush :
  result ((_ ← LSMTree_Set "k" "v"; _ ← flush; LSMTree_Delete "k")
          empty_disk new_engine) = None ∧
  result ((e1 ← LSMTree_Set "k" "v"; e2 ← flush; e3 ← LSMTree_Set "k" "";
           g ← LSMTree_Get "k"; l1 ← LSMTree_List;
           e4 ← flush; l2 ← LSMTree_List;
           mret (e1, e2, e3, g, l1, e4, l2)) empty_disk new_engine)
    = Some (None, None, None, ("", None), inr {[ "k" := "v" ]},
            None, inr {[ "k" := "v" ]}).
Proof. split; vm_compute; reflexivity. Qed.

(** C3. The WAL round trip fails across a second restart.  A value
    written for a survives the first restart: [Recover] replays it into
    the write buffer, and truncates the WAL.  The next session reads a,
    writes b and lists both; after its restart [Recover] finds only b in
    the WAL: [Get(a)] is empty and [List] has lost a. *)
Theorem wal_round_trip_fails :
  result ((e1 ← LSMTree_Set "a" "1";
           _ ← restart; r1 ← LSMTree_Recover;
           e2 ← LSMTree_Set "b" "2";
           g2 ← LSMTree_Get "a"; l2 ← LSMTree_List;
           _ ← restart; r2 ← LSMTree_Recover;
           g3 ← LSMTree_Get "a"; l3 ← LSMTree_List;
           mret (e1, r1, e2, g2, l2, r2, g3, l3)) empty_disk new_engine)
    = Some (None, None, None,
            ("1", None), inr {[ "a" := "1"; "b" := "2" ]},
            None,
            ("", None), inr {[ "b" := "2" ]}).
Proof. vm_compute. reflexivity. Qed.

(** A small run with the flush applied directly.  Two flushes leave two
    segments and two pending compactions.  Each compaction lists both segments, then
    asks [NewSSTable] to write into the directory
    /data/sstable_compacted_<nanos>.dat, which does not exist: it prints
    the error and returns.  Afterwards the registry still holds the two
    segments, both files are on disk with their bytes, and no merged file
    exists. *)
Lemma compaction_fails_twice :
  result ((_ ← LSMTree_Set "a" "1"; _ ← flush; _ ← LSMTree_Set "b" "2"; _ ← flush;
           before ← segment_files;
           _ ← run_goroutine; _ ← run_goroutine;
           after ← segment_files; out ← printed;
           mret (before, after, out)) empty_disk new_engine)
    = Some ([("/data/sstable_1700000000000000001.dat", Some ("a,1" +:+ String LF ""));
             ("/data/sstable_1700000000000000003.dat", Some ("b,2" +:+ String LF ""))],
            [("/data/sstable_1700000000000000001.dat", Some ("a,1" +:+ String LF ""));
             ("/data/sstable_1700000000000000003.dat", Some ("b,2" +:+ String LF ""))],
            ["Error during compaction: failed to create compacted SSTable: " +:+
             "failed to create SSTable file: open /data/sstable_compacted_" +:+
             "1700000000000000004.dat/sstable_1700000000000000005.dat: " +:+
             "no such file or directory" +:+ String LF "";
             "Error during compaction: failed to create compacted SSTable: " +:+
             "failed to create SSTable file: open /data/sstable_compacted_" +:+
             "1700000000000000006.dat/sstable_1700000000000000007.dat: " +:+
             "no such file or directory" +:+ String LF ""]).
Proof. vm_compute. reflexivity. Qed.
End scenarios.

(** A state with a segment on disk, a buffered write and cached keys. *)
Definition listing_state : World * LSMTree :=
  match (_ ← LSMTree_Set (H := go_amd64) "k" "v"; _ ← flush (H := go_amd64);
         LSMTree_Set (H := go_amd64) "j" "u") empty_disk new_engine with
  | Returns _ w l => (w, l)
  | Blocks => (empty_disk, new_engine)
  end.

(** [List] on that state returns the two pairs and changes nothing. *)
Lemma LSMTree_List_read_only_witness :
  ∃ w',
    LSMTree_List (H := go_amd64) listing_state.1 listing_state.2
      = Returns (inr {[ "j" := "u"; "k" := "v" ]}) w' listing_state.2 ∧
    cache listing_state.2 = cache listing_state.2 ∧
    same_machine listing_state.1 w'.
Proof.
  eexists. split; [vm_compute; reflexivity|].
  eapply (LSMTree_List_read_only (H := go_amd64) listing_state.1 _ listing_state.2 _ _).
  vm_compute. reflexivity.
Defined.

(** ** Lines, fields and offsets *)

(** [c] occurs in [s]. *)
Fixpoint has_byte (c : ascii) (s : string) : bool :=
  match s with
  | EmptyString => false
  | String c' s' => Ascii.eqb c' c || has_byte c s'
  end.

(** A key that the line format can carry: no comma and no newline in it. *)
Definition plain_key (key : string) : Prop :=
  has_byte comma key = false ∧ has_byte LF key = false.

(** The bytes [NewSSTable] writes for the pairs it visits. *)
Definition entries_bytes (visit : list (string * string)) : string :=
  foldr (λ kv rest, Sprintf_entry kv.1 kv.2 +:+ rest) EmptyString visit.

Lemma append_cons (x : ascii) (a b : string) : String x a +:+ b = String x (a +:+ b).
Proof. done. Qed.

Lemma append_nil_l (b : string) : EmptyString +:+ b = b.
Proof. done. Qed.

Lemma append_assoc (a b c : string) : (a +:+ b) +:+ c = a +:+ (b +:+ c).
Proof. induction a as [|x a IH]; [done|]. by rewrite !append_cons, IH. Qed.

Lemma append_nil_r (a : string) : a +:+ EmptyString = a.
Proof. induction a as [|x a IH]; [done|]. by rewrite append_cons, IH. Qed.

Lemma length_append (a b : string) :
  String.length (a +:+ b) = (String.length a + String.length b)%nat.
Proof. induction a as [|x a IH]; [done|]. rewrite append_cons. simpl. by rewrite IH. Qed.

Lemma len_append (a b : string) : len (a +:+ b) = len a + len b.
Proof. unfold len. rewrite length_append. lia. Qed.

Lemma len_nonneg (a : string) : 0 ≤ len a.
Proof. unfold len. lia. Qed.

Lemma has_byte_append (c : ascii) (a b : string) :
  has_byte c (a +:+ b) = has_byte c a || has_byte c b.
Proof.
  induction a as [|x a IH]; [done|]. rewrite append_cons. simpl.
  by rewrite IH, orb_assoc.
Qed.

Lemma Sprintf_entry_append (key val rest : string) :
  Sprintf_entry key val +:+ rest = key +:+ String comma (val +:+ String LF rest).
Proof.
  unfold Sprintf_entry. by rewrite append_assoc, append_cons, append_assoc, append_cons.
Qed.

Lemma drop_bytes_append (a b : string) : drop_bytes (String.length a) (a +:+ b) = b.
Proof.
  induction a as [|x a IH]; [by destruct b|]. rewrite append_cons. apply IH.
Qed.

(** A string without newline, followed by a newline, is the first line. *)
Lemma raw_lines_line (line rest : string) :
  has_byte LF line = false →
  raw_lines (line +:+ String LF rest) = line :: raw_lines rest.
Proof.
  induction line as [|x line IH]; intros Hno.
  - rewrite append_nil_l. simpl. done.
  - simpl in Hno. apply orb_false_iff in Hno as [Hx Hno].
    rewrite append_cons. simpl. rewrite Hx, IH by done. done.
Qed.

Lemma SplitN_comma_2_fields (key val : string) :
  has_byte comma key = false →
  SplitN_comma_2 (key +:+ String comma val) = Some (key, val).
Proof.
  induction key as [|x key IH]; intros Hno.
  - rewrite append_nil_l. simpl. done.
  - simpl in Hno. apply orb_false_iff in Hno as [Hx Hno].
    rewrite append_cons. simpl. rewrite Hx, IH by done. done.
Qed.

Lemma SplitN_comma_2_none (s : string) :
  has_byte comma s = false → SplitN_comma_2 s = None.
Proof.
  induction s as [|x s IH]; intros Hno; simpl; [done|].
  simpl in Hno. apply orb_false_iff in Hno as [Hx Hno]. by rewrite Hx, IH.
Qed.

Lemma dropCR_cons (x y : ascii) (s : string) :
  dropCR (String x (String y s)) = String x (dropCR (String y s)).
Proof. done. Qed.

Lemma dropCR_after_comma (key val : string) :
  dropCR (key +:+ String comma val) = key +:+ String comma (dropCR val).
Proof.
  induction key as [|x key IH].
  - rewrite !append_nil_l. destruct val as [|y val]; [done|]. by rewrite dropCR_cons.
  - rewrite !append_cons. destruct key as [|z key].
    + rewrite !append_nil_l in *. by rewrite dropCR_cons, IH.
    + rewrite append_cons in *. by rewrite dropCR_cons, IH.
Qed.

Lemma dropCR_no_trailing (s : string) : has_byte CR s = false → dropCR s = s.
Proof.
  induction s as [|x s IH]; intros Hno; [done|].
  simpl in Hno. apply orb_false_iff in Hno as [Hx Hno].
  destruct s as [|y s]; [simpl; by rewrite Hx|]. by rewrite dropCR_cons, IH.
Qed.

(** ** Segments: what [NewSSTable] writes and what is read back *)

Definition empty_build : SSTableBuild := mkBuild EmptyString NewBloomFilter ∅ 0.

Lemma entries_bytes_app (pre post : list (string * string)) :
  entries_bytes (pre ++ post) = entries_bytes pre +:+ entries_bytes post.
Proof.
  induction pre as [|kv pre IH]; [done|].
  simpl. by rewrite IH, append_assoc.
Qed.

Lemma build_written (b : SSTableBuild) (visit : list (string * string)) :
  written (foldl write_entry b visit) = written b +:+ entries_bytes visit.
Proof.
  revert b. induction visit as [|kv visit IH]; intros b; simpl.
  - by rewrite append_nil_r.
  - by rewrite IH, <-append_assoc.
Qed.

Lemma build_offset (b : SSTableBuild) (visit : list (string * string)) :
  b_offset (foldl write_entry b visit) = b_offset b + len (entries_bytes visit).
Proof.
  revert b. induction visit as [|kv visit IH]; intros b; simpl.
  - unfold len. simpl. lia.
  - rewrite IH, len_append. simpl. lia.
Qed.

Lemma build_filter (b : SSTableBuild) (visit : list (string * string)) :
  b_filter (foldl write_entry b visit) = foldl BloomFilter_Add (b_filter b) visit.*1.
Proof.
  revert b. induction visit as [|kv visit IH]; intros b; simpl; [done|]. by rewrite IH.
Qed.

Lemma build_index_other (b : SSTableBuild) (visit : list (string * string)) (key : string) :
  key ∉ visit.*1 → b_index (foldl write_entry b visit) !! key = b_index b !! key.
Proof.
  revert b. induction visit as [|kv visit IH]; intros b Hnot; simpl; [done|].
  rewrite fmap_cons in Hnot. apply not_elem_of_cons in Hnot as [Hne Hnot].
  rewrite IH by done. simpl. by rewrite lookup_insert_ne.
Qed.

(** The index maps a key to the number of bytes written before its entry. *)
Lemma build_index_entry (b : SSTableBuild) (pre post : list (string * string))
    (key val : string) :
  key ∉ post.*1 →
  b_index (foldl write_entry b (pre ++ (key, val) :: post)) !! key
  = Some (b_offset b + len (entries_bytes pre)).
Proof.
  intros Hpost. rewrite foldl_app. simpl.
  rewrite build_index_other by done. simpl.
  by rewrite lookup_insert_eq, build_offset.
Qed.

(** [s] is the segment written for the pairs [visit], and its file still
    holds the bytes written. *)
Definition segment_of (s : SSTable) (visit : list (string * string)) (w : World) : Prop :=
  bloomFilter s = b_filter (foldl write_entry empty_build visit) ∧
  index s = b_index (foldl write_entry empty_build visit) ∧
  fs_files w !! filePath s = Some (entries_bytes visit).

Lemma segment_of_filter (s : SSTable) (visit : list (string * string)) (w : World)
    (key : string) :
  segment_of s visit w → key ∈ visit.*1 →
  BloomFilter_MightContain (bloomFilter s) key = true.
Proof.
  intros (Hf & _ & _) Hin. rewrite Hf, build_filter. simpl.
  apply list_elem_of_split in Hin as (pre & post & ->).
  rewrite foldl_app. simpl.
  apply BloomFilter_MightContain_adds, BloomFilter_MightContain_Add.
Qed.

(** Reading back a key the segment was written with: when neither field
    contains a newline, the key contains no comma and the line fits the
    scanner's buffer, [Get] returns the value (less a trailing carriage
    return). *)
Lemma SSTable_Get_written (s : SSTable) (pre post : list (string * string))
    (key val : string) (w : World) :
  segment_of s (pre ++ (key, val) :: post) w →
  key ∉ post.*1 →
  plain_key key → has_byte LF val = false →
  len key + 1 + len val < MaxScanTokenSize →
  SSTable_Get s key w = (dropCR val, None).
Proof.
  intros Hseg Hpost [Hcomma Hlf] Hval Hlen.
  unfold SSTable_Get.
  rewrite (segment_of_filter s _ w key Hseg) by (rewrite fmap_app, fmap_cons; set_solver).
  destruct Hseg as (_ & Hi & Hfile). simpl.
  rewrite Hi, build_index_entry by done. unfold os_Open. rewrite Hfile.
  simpl. pose proof (len_nonneg (entries_bytes pre)).
  destruct (Z.ltb_spec (0 + len (entries_bytes pre)) 0); [lia|].
  rewrite Z.add_0_l. unfold len at 1. rewrite Nat2Z.id.
  rewrite entries_bytes_app, drop_bytes_append. simpl.
  rewrite Sprintf_entry_append. unfold Scanner_first.
  replace (key +:+ String comma (val +:+ String LF (entries_bytes post)))
    with ((key +:+ String comma val) +:+ String LF (entries_bytes post))
    by (by rewrite append_assoc, append_cons).
  rewrite raw_lines_line by (rewrite has_byte_append; simpl; by rewrite Hlf, Hval).
  unfold fits_buffer. rewrite len_append. unfold len at 2. simpl String.length.
  destruct (Z.ltb_spec (len key + Z.of_nat (S (String.length val))) MaxScanTokenSize);
    [|unfold len in *; lia].
  rewrite dropCR_after_comma, SplitN_comma_2_fields by done.
  by rewrite decide_True.
Qed.

(** A key the segment was not written with reads as empty. *)
Lemma SSTable_Get_absent (s : SSTable) (visit : list (string * string))
    (key : string) (w : World) :
  segment_of s visit w → key ∉ visit.*1 → SSTable_Get s key w = (EmptyString, None).
Proof.
  intros (_ & Hi & _) Hnot. unfold SSTable_Get.
  destruct (negb _); [done|].
  by rewrite Hi, build_index_other.
Qed.

(** A pair that the line format carries: a plain key, no newline in the
    value, and a line that fits the scanner's buffer. *)
Definition plain_entry (kv : string * string) : Prop :=
  plain_key kv.1 ∧ has_byte LF kv.2 = false ∧ len kv.1 + 1 + len kv.2 < MaxScanTokenSize.

(** The line the scanner delivers for a pair. *)
Definition scanned_line (kv : string * string) : string :=
  kv.1 +:+ String comma (dropCR kv.2).

Lemma Scanner_all_entries (visit : list (string * string)) :
  Forall plain_entry visit →
  Scanner_all (entries_bytes visit) = (scanned_line <$> visit, None).
Proof.
  unfold Scanner_all. induction 1 as [|[key val] visit ([Hcomma Hlf] & Hval & Hlen) _ IH];
    [done|].
  simpl in *. rewrite Sprintf_entry_append.
  replace (key +:+ String comma (val +:+ String LF (entries_bytes visit)))
    with ((key +:+ String comma val) +:+ String LF (entries_bytes visit))
    by (by rewrite append_assoc, append_cons).
  rewrite raw_lines_line by (rewrite has_byte_append; simpl; by rewrite Hlf, Hval).
  simpl. rewrite IH. unfold fits_buffer. rewrite len_append. unfold len at 2.
  simpl String.length.
  destruct (Z.ltb_spec (len key + Z.of_nat (S (String.length val))) MaxScanTokenSize);
    [|unfold len in *; lia].
  unfold scanned_line. simpl. by rewrite dropCR_after_comma.
Qed.

Lemma list_line_scanned (result : gmap string string) (kv : string * string) :
  has_byte comma kv.1 = false →
  list_line result (scanned_line kv) =
  if decide (dropCR kv.2 = EmptyString) then result else <[kv.1 := dropCR kv.2]> result.
Proof. intros. unfold list_line, scanned_line. by rewrite SplitN_comma_2_fields. Qed.

Lemma recover_line_scanned (result : gmap string string) (kv : string * string) :
  has_byte comma kv.1 = false →
  recover_line result (scanned_line kv) = <[kv.1 := dropCR kv.2]> result.
Proof. intros. unfold recover_line, scanned_line. by rewrite SplitN_comma_2_fields. Qed.

(** The scan of [SSTable.List] over the lines of distinct plain keys. *)
Lemma list_lines_lookup (visit : list (string * string)) (result : gmap string string)
    (key : string) :
  Forall plain_entry visit → NoDup visit.*1 →
  foldl list_line result (scanned_line <$> visit) !! key =
  match list_find (λ kv, kv.1 = key) visit with
  | Some (_, (_, val)) =>
      if decide (dropCR val = EmptyString) then result !! key else Some (dropCR val)
  | None => result !! key
  end.
Proof.
  intros Hplain. revert result.
  induction Hplain as [|[k v] visit ([Hcomma _] & _) _ IH]; intros result Hnd; [done|].
  rewrite fmap_cons in Hnd. apply NoDup_cons in Hnd as [Hk Hnd].
  simpl. rewrite list_line_scanned by done. simpl.
  rewrite IH by done. destruct (decide (k = key)) as [->|Hne].
  - destruct (list_find _ visit) as [[i [k' v']]|] eqn:Hfind.
    + apply list_find_Some in Hfind as (Hi & Heq & _). simpl in Heq. subst k'.
      destruct Hk. apply list_elem_of_fmap. exists (key, v'). split; [done|].
      by eapply list_elem_of_lookup_2.
    + simpl. destruct (decide (dropCR v = EmptyString)); [done|]. by rewrite lookup_insert_eq.
  - destruct (list_find _ visit) as [[i [k' v']]|] eqn:Hfind; simpl.
    + destruct (decide (dropCR v' = EmptyString)); [|done].
      destruct (decide (dropCR v = EmptyString)); [done|]. by rewrite lookup_insert_ne.
    + destruct (decide (dropCR v = EmptyString)); [done|]. by rewrite lookup_insert_ne.
Qed.

Lemma NoDup_fst_functional {A B : Type} (l : list (A * B)) :
  NoDup l.*1 → ∀ x y1 y2, (x, y1) ∈ l → (x, y2) ∈ l → y1 = y2.
Proof.
  induction l as [|[a b] l IH]; intros Hnd x y1 y2 H1 H2.
  - by apply elem_of_nil in H1.
  - rewrite fmap_cons in Hnd. apply NoDup_cons in Hnd as [Ha Hnd].
    apply elem_of_cons in H1 as [H1|H1], H2 as [H2|H2]; simplify_eq; [done|..].
    + destruct Ha. apply list_elem_of_fmap. by exists (a, y2).
    + destruct Ha. apply list_elem_of_fmap. by exists (a, y1).
    + by eapply IH.
Qed.

(** What [List] returns for a segment written with plain pairs: the pairs
    whose value (less a trailing carriage return) is not empty. *)
Lemma SSTable_List_written (s : SSTable) (visit : list (string * string)) (w : World) :
  segment_of s visit w → Forall plain_entry visit → NoDup visit.*1 →
  ∃ listed, SSTable_List s w = inr listed ∧
    ∀ key val, listed !! key = Some val ↔
      ∃ v, (key, v) ∈ visit ∧ dropCR v = val ∧ val ≠ EmptyString.
Proof.
  intros (_ & _ & Hfile) Hplain Hnd. unfold SSTable_List, os_Open.
  rewrite Hfile, Scanner_all_entries by done.
  pose proof (NoDup_fst_functional visit Hnd) as Huniq.
  eexists. split; [done|]. intros key val.
  rewrite list_lines_lookup by done. rewrite lookup_empty.
  destruct (list_find _ visit) as [[i [k v]]|] eqn:Hfind.
  - apply list_find_Some in Hfind as (Hi & Heq & _). simpl in Heq. subst k.
    apply list_elem_of_lookup_2 in Hi.
    destruct (decide (dropCR v = EmptyString)) as [He|Hne].
    + split; [done|]. intros (v' & Hin & <- & Hval).
      by rewrite (Huniq key v' v Hin Hi) in Hval.
    + split.
      * intros [= <-]. by exists v.
      * intros (v' & Hin & <- & _).
        by rewrite (Huniq key v' v Hin Hi).
  - split; [done|]. intros (v & Hin & _).
    apply list_find_None in Hfind. rewrite Forall_forall in Hfind.
    by destruct (Hfind _ Hin).
Qed.

(** ** Paths *)

Lemma pretty_N_go_no_slash (x : N) (s : string) :
  has_byte slash s = false → has_byte slash (pretty_N_go x s) = false.
Proof.
  revert s. induction (N.lt_wf_0 x) as [x _ IH]; intros s Hs.
  destruct (decide (x = 0%N)) as [->|Hx]; [by rewrite pretty_N_go_0|].
  rewrite pretty_N_go_step by lia. apply IH; [apply N.div_lt; lia|].
  simpl. rewrite Hs, orb_false_r. unfold pretty_N_char. by repeat case_match.
Qed.

Lemma pretty_Z_no_slash (z : Z) : has_byte slash (pretty z) = false.
Proof.
  assert (HN : ∀ n : N, has_byte slash (pretty n) = false).
  { intros n. unfold pretty, pretty_N. case_decide; [done|].
    by apply pretty_N_go_no_slash. }
  destruct z as [|p|p]; [done|apply (HN (Npos p))|].
  unfold pretty, pretty_Z. rewrite has_byte_append. simpl. apply (HN (Npos p)).
Qed.

Lemma before_last_slash_none (name : string) :
  has_byte slash name = false → before_last_slash name = None.
Proof.
  induction name as [|c name IH]; intros Hno; [done|].
  simpl in Hno. apply orb_false_iff in Hno as [Hc Hno].
  simpl. by rewrite IH, Hc.
Qed.

(** The directory of a file joined to [dir] is [dir]. *)
Lemma filepath_Dir_Join (dir name : string) :
  has_byte slash name = false → filepath_Dir (filepath_Join dir name) = dir.
Proof.
  intros Hno. unfold filepath_Dir, filepath_Join.
  assert (before_last_slash (dir +:+ String slash name) = Some dir) as ->; [|done].
  induction dir as [|c dir IH].
  - rewrite append_nil_l. simpl. by rewrite before_last_slash_none.
  - rewrite append_cons. simpl. by rewrite IH.
Qed.

Definition sstable_name (timestamp : Z) : string := "sstable_" +:+ pretty timestamp +:+ ".dat".

Lemma sstable_name_no_slash (t : Z) : has_byte slash (sstable_name t) = false.
Proof.
  unfold sstable_name. rewrite !has_byte_append, pretty_Z_no_slash. done.
Qed.

Lemma append_inj_r (a b c : string) : a +:+ c = b +:+ c → a = b.
Proof.
  intros Heq. assert (Hlen : String.length a = String.length b).
  { apply (f_equal String.length) in Heq. rewrite !length_append in Heq. lia. }
  revert b Heq Hlen. induction a as [|x a IH]; intros [|y b] Heq Hlen; try done.
  rewrite !append_cons in Heq. injection Heq as -> Heq. f_equal. apply IH; [done|].
  simpl in Hlen. lia.
Qed.

Lemma sstable_name_inj (t1 t2 : Z) : sstable_name t1 = sstable_name t2 → t1 = t2.
Proof.
  unfold sstable_name. intros Heq. apply String.app_inj in Heq.
  apply append_inj_r in Heq. by apply pretty_Z_inj in Heq.
Qed.

Lemma filepath_Join_inj (dir a b : string) :
  filepath_Join dir a = filepath_Join dir b → a = b.
Proof. unfold filepath_Join. intros Heq. apply String.app_inj in Heq. by injection Heq. Qed.

Lemma wal_not_sstable (dir : string) (t : Z) :
  filepath_Join dir "wal.log" ≠ filepath_Join dir (sstable_name t).
Proof. intros Heq. apply filepath_Join_inj in Heq. done. Qed.

Lemma longer_not_equal (a b : string) : b ≠ EmptyString → a ≠ a +:+ b.
Proof.
  intros Hb Heq. apply (f_equal String.length) in Heq. rewrite length_append in Heq.
  destruct b; [done|]. simpl in Heq. lia.
Qed.

(** ** One step of the engine *)

Section engine_steps.
Context `{GoRuntime}.

Lemma creatable_in (dir name : string) (w : World) :
  has_byte slash name = false → dir ∈ fs_dirs w → filepath_Join dir name ∉ fs_dirs w →
  creatable (filepath_Join dir name) w = None.
Proof.
  intros Hno Hdir Hfile. unfold creatable. rewrite filepath_Dir_Join by done.
  by rewrite decide_True, decide_False.
Qed.

Lemma creatable_missing_dir (dir name : string) (w : World) :
  has_byte slash name = false → dir ∉ fs_dirs w →
  creatable (filepath_Join dir name) w = Some (ENOENT "open" (filepath_Join dir name)).
Proof.
  intros Hno Hdir. unfold creatable. rewrite filepath_Dir_Join by done.
  by rewrite decide_False.
Qed.

(** [NewSSTable] in an existing directory: the segment and the machine it
    leaves. *)
Lemma NewSSTable_created (dir : string) (m : MemTable) (w : World) :
  dir ∈ fs_dirs w → filepath_Join dir (sstable_name (clock w)) ∉ fs_dirs w →
  let visit := mapRange (rand w) (data m) in
  let path := filepath_Join dir (sstable_name (clock w)) in
  let b := foldl write_entry empty_build visit in
  NewSSTable dir m w =
  (inr (mkSSTable path (b_filter b) (b_index b)),
   mkWorld (fs_dirs w) (<[path := entries_bytes visit]> (fs_files w))
           (clockStep (clock w)) (S (rand w)) (stdout w) (goroutines w)).
Proof.
  intros Hdir Hfile visit path b. unfold NewSSTable, os_Create.
  cbn [time_Now]. fold (sstable_name (clock w)). fold path.
  assert (creatable path (set_clock (clockStep (clock w)) w) = None) as ->.
  { apply creatable_in; [apply sstable_name_no_slash|done..]. }
  cbn [range MemTable_Entries]. fold visit. fold empty_build. fold b.
  f_equal. unfold file_WriteString, set_files, set_rand, set_clock. simpl.
  rewrite lookup_insert_eq. simpl. rewrite insert_insert_eq.
  subst b. by rewrite build_written.
Qed.

Lemma NewSSTable_segment_of (dir : string) (m : MemTable) (w w' : World) (s : SSTable) :
  NewSSTable dir m w = (inr s, w') →
  dir ∈ fs_dirs w → filepath_Join dir (sstable_name (clock w)) ∉ fs_dirs w →
  segment_of s (mapRange (rand w) (data m)) w'.
Proof.
  intros Hnew Hdir Hfile. rewrite NewSSTable_created in Hnew by done.
  injection Hnew as <- <-. split_and!; [done..|]. simpl. by rewrite lookup_insert_eq.
Qed.

(** [NewSSTable] in a directory that does not exist fails and leaves the
    files alone. *)
Lemma NewSSTable_missing_dir (dir : string) (m : MemTable) (w : World) :
  dir ∉ fs_dirs w →
  ∃ err, NewSSTable dir m w = (inl err, set_clock (clockStep (clock w)) w).
Proof.
  intros Hdir. unfold NewSSTable, os_Create. cbn [time_Now].
  fold (sstable_name (clock w)).
  rewrite creatable_missing_dir; [by eexists|apply sstable_name_no_slash|done].
Qed.
End engine_steps.

Section engine_set.
Context `{GoRuntime}.
Local Arguments Cache_Set : simpl never.
Local Arguments NewSSTable : simpl never.
Local Arguments WAL_Log : simpl never.
Local Arguments MemTable_Size : simpl never.
Local Arguments MemTable_Set : simpl never.
Local Arguments filepath_Join : simpl never.
Local Arguments Sprintf_entry : simpl never.

(** The engine is between two calls: nobody holds its lock, its WAL is
    wal.log in its data directory, and that directory exists and has no
    subdirectories. *)
Definition engine_ok (w : World) (l : LSMTree) : Prop :=
  mutex l = RWMutex_free ∧ wal l = NewWAL (dataDir l) ∧
  dataDir l ∈ fs_dirs w ∧ ∀ name, filepath_Join (dataDir l) name ∉ fs_dirs w.

(** What differs between two machines is at most the iteration counter,
    the clock, and the files at the paths in [changed]. *)
Definition files_kept (changed : list string) (w w' : World) : Prop :=
  fs_dirs w' = fs_dirs w ∧ stdout w' = stdout w ∧ clock w ≤ clock w' ∧
  ∀ p, p ∉ changed → fs_files w' !! p = fs_files w !! p.

Lemma files_kept_refl (w : World) : files_kept [] w w.
Proof. by repeat split. Qed.

Lemma files_kept_trans (c1 c2 : list string) (w1 w2 w3 : World) :
  files_kept c1 w1 w2 → files_kept c2 w2 w3 → files_kept (c1 ++ c2) w1 w3.
Proof.
  intros (Hd1 & Ho1 & Hc1 & Hf1) (Hd2 & Ho2 & Hc2 & Hf2).
  split_and!; [congruence|congruence|lia|].
  intros p Hp. rewrite not_elem_of_app in Hp. destruct Hp as [Hp1 Hp2].
  by rewrite Hf2, Hf1.
Qed.

Lemma files_kept_weaken (c1 c2 : list string) (w w' : World) :
  c1 ⊆ c2 → files_kept c1 w w' → files_kept c2 w w'.
Proof.
  intros Hsub (Hd & Ho & Hc & Hf). split_and!; [done..|].
  intros p Hp. apply Hf. intros Hin. by apply Hp, Hsub.
Qed.

Lemma WAL_Log_ok (dir key val : string) (w : World) :
  dir ∈ fs_dirs w → filepath_Join dir "wal.log" ∉ fs_dirs w →
  WAL_Log (NewWAL dir) key val w =
  (None, set_files (<[filepath_Join dir "wal.log" :=
                       default EmptyString (fs_files w !! filepath_Join dir "wal.log")
                       +:+ Sprintf_entry key val]> (fs_files w)) w).
Proof.
  intros Hdir Hfile. unfold WAL_Log, NewWAL, os_OpenFile_append. simpl.
  rewrite creatable_in by done.
  unfold file_WriteString, set_files. simpl.
  by rewrite lookup_insert_eq, insert_insert_eq.
Qed.

Lemma Cache_evict_world (c : Cache) (w : World) :
  (Cache_evict c w).2 = set_rand (S (rand w)) w.
Proof. done. Qed.

Lemma Cache_Set_world (c : Cache) (key val : string) (w : World) :
  files_kept [] w (Cache_Set c key val w).2 ∧
  goroutines (Cache_Set c key val w).2 = goroutines w ∧
  clock (Cache_Set c key val w).2 = clockStep (clock w).
Proof.
  unfold Cache_Set.
  pose proof (clockStep_lt (clock w)).
  destruct (Z.of_nat (base.size (entries c)) >=? maxSize c); simpl;
    (split_and!; [|done..]); unfold files_kept; simpl; (split_and!; [done|done|lia|done]).
Qed.

(** [Set] on an engine at rest: the WAL is appended to, the buffer and
    the cache are updated, and the buffer is flushed when it has reached
    the threshold. *)
Lemma LSMTree_Set_eq (key val : string) (w : World) (l : LSMTree) :
  engine_ok w l →
  let walpath := filepath_Join (dataDir l) "wal.log" in
  let w1 := set_files (<[walpath := default EmptyString (fs_files w !! walpath)
                                     +:+ Sprintf_entry key val]> (fs_files w)) w in
  let c := (Cache_Set (cache l) key val w1).1 in
  let w2 := (Cache_Set (cache l) key val w1).2 in
  let m := MemTable_Set (memTable l) key val in
  LSMTree_Set key val w l =
  if MemTable_Size m >=? memTableSizeThreshold
  then match NewSSTable (dataDir l) m w2 with
       | (inr s, w3) =>
           Returns None (go_spawn w3)
             (mkLSMTree (dataDir l) NewMemTable (ssTables l ++ [s]) (wal l) RWMutex_free c)
       | (inl err, w3) =>
           Returns (Some (Errorf_w "failed to flush memtable"
                            (Errorf_w "failed to create SSTable" err))) w3
             (mkLSMTree (dataDir l) m (ssTables l) (wal l) RWMutex_free c)
       end
  else Returns None w2 (mkLSMTree (dataDir l) m (ssTables l) (wal l) RWMutex_free c).
Proof.
  intros (Hmu & Hwal & Hdir & Hsub) walpath w1 c w2 m.
  destruct l as [d mt ts wl mu ch]. simpl in *. subst mu wl.
  unfold LSMTree_Set, with_Lock. simpl.
  rewrite WAL_Log_ok by done. fold walpath. fold w1. fold m.
  destruct (Cache_Set ch key val w1) as [c' w2'] eqn:Hc.
  subst c w2. simpl.
  destruct (MemTable_Size m >=? memTableSizeThreshold); [|done].
  unfold LSMTree_flushMemTable. simpl.
  by destruct (NewSSTable d m w2') as [[err|s] w3].
Qed.
End engine_set.

Section engine_runs.
Context `{GoRuntime}.
Local Arguments Cache_Set : simpl never.
Local Arguments NewSSTable : simpl never.
Local Arguments MemTable_Size : simpl never.
Local Arguments filepath_Join : simpl never.
Local Arguments Sprintf_entry : simpl never.

Definition wal_path (l : LSMTree) : string := filepath_Join (dataDir l) "wal.log".

(** [Set] below the threshold: the pair is buffered, the registry and the
    segment files stay as they are. *)
Lemma LSMTree_Set_buffered (key val : string) (w : World) (l : LSMTree) :
  engine_ok w l →
  Z.of_nat (base.size (<[key := val]> (data (memTable l)))) < memTableSizeThreshold →
  ∃ w' l' w1,
    LSMTree_Set key val w l = Returns None w' l' ∧
    engine_ok w' l' ∧ dataDir l' = dataDir l ∧
    data (memTable l') = <[key := val]> (data (memTable l)) ∧
    ssTables l' = ssTables l ∧
    cache l' = (Cache_Set (cache l) key val w1).1 ∧
    files_kept [wal_path l] w w'.
Proof.
  intros Hok Hsize. pose proof Hok as (Hmu & Hwal & Hdir & Hsub).
  rewrite LSMTree_Set_eq by done. cbv zeta.
  set (w1 := set_files _ w).
  destruct (Z.geb_spec (MemTable_Size (MemTable_Set (memTable l) key val))
                       memTableSizeThreshold) as [Hge|_].
  { unfold MemTable_Size, MemTable_Set in Hge. simpl in Hge. lia. }
  destruct (Cache_Set_world (cache l) key val w1) as ((Hd & Ho & Hc & Hf) & Hg & Hck).
  eexists _, _, w1. split_and!; try done.
  - split_and!; simpl; [done|done|by rewrite Hd|intros name; by rewrite Hd].
  - split_and!; [by rewrite Hd|by rewrite Ho|simpl in Hc; lia|].
    intros p Hp. rewrite Hf by apply not_elem_of_nil. subst w1. simpl.
    apply lookup_insert_ne. intros <-. apply Hp. by left.
Qed.

(** [Set] that brings the buffer to the threshold: the buffer is written
    to a new segment named after the clock, appended to the registry, and
    replaced by an empty one. *)
Lemma LSMTree_Set_flushed (key val : string) (w : World) (l : LSMTree) :
  engine_ok w l →
  memTableSizeThreshold ≤ Z.of_nat (base.size (<[key := val]> (data (memTable l)))) →
  ∃ w' l' w1 s t visit,
    LSMTree_Set key val w l = Returns None w' l' ∧
    engine_ok w' l' ∧ dataDir l' = dataDir l ∧
    data (memTable l') = ∅ ∧
    ssTables l' = ssTables l ++ [s] ∧
    cache l' = (Cache_Set (cache l) key val w1).1 ∧
    filePath s = filepath_Join (dataDir l) (sstable_name t) ∧
    clock w < t < clock w' ∧
    visit ≡ₚ map_to_list (<[key := val]> (data (memTable l))) ∧
    segment_of s visit w' ∧
    files_kept [wal_path l; filePath s] w w'.
Proof.
  intros Hok Hsize. pose proof Hok as (Hmu & Hwal & Hdir & Hsub).
  rewrite LSMTree_Set_eq by done. cbv zeta.
  set (w1 := set_files _ w).
  destruct (Z.geb_spec (MemTable_Size (MemTable_Set (memTable l) key val))
                       memTableSizeThreshold) as [_|Hlt].
  2: { unfold MemTable_Size, MemTable_Set in Hlt. simpl in Hlt. lia. }
  destruct (Cache_Set_world (cache l) key val w1) as ((Hd & Ho & Hc & Hf) & Hg & Hck).
  set (w2 := (Cache_Set (cache l) key val w1).2) in *.
  assert (Hdir2 : dataDir l ∈ fs_dirs w2) by by rewrite Hd.
  assert (Hsub2 : filepath_Join (dataDir l) (sstable_name (clock w2)) ∉ fs_dirs w2)
    by (rewrite Hd; apply Hsub).
  rewrite NewSSTable_created by done. cbv zeta.
  pose proof (clockStep_lt (clock w)). pose proof (clockStep_lt (clock w2)).
  eexists _, _, w1, _, (clock w2), (mapRange (rand w2) (data (MemTable_Set (memTable l) key val))).
  split_and!; try done.
  - split_and!; simpl; [done|done|by rewrite Hd|intros name; by rewrite Hd].
  - subst w1. simpl in Hck. lia.
  - apply mapRange_perm.
  - split_and!; [done..|]. simpl. by rewrite lookup_insert_eq.
  - split_and!; simpl; [by rewrite Hd|by rewrite Ho|simpl in Hc; lia|].
    intros p Hp. rewrite lookup_insert_ne.
    + rewrite Hf by apply not_elem_of_nil. subst w1. simpl.
      apply lookup_insert_ne. intros <-. apply Hp. by left.
    + intros <-. apply Hp. right. by left.
Qed.
End engine_runs.

(** The buffer after writing [val] under each key of a list. *)
Definition writes (m : gmap string string) (keys : list string) (val : string)
  : gmap string string :=
  foldl (λ m key, <[key := val]> m) m keys.

Section engine_fill.
Context `{GoRuntime}.

(** The cache after [Set(key, val)] for each key of a list, on whatever
    machines the calls were made. *)
Inductive cache_after (val : string) : Cache → list string → Cache → Prop :=
  | cache_after_nil (c : Cache) : cache_after val c [] c
  | cache_after_cons (c c' : Cache) (key : string) (keys : list string) (w : World) :
      cache_after val (Cache_Set c key val w).1 keys c' →
      cache_after val c (key :: keys) c'.
Local Arguments Cache_Set : simpl never.
Local Arguments LSMTree_Set : simpl never.

Lemma writes_size_le (m : gmap string string) (keys : list string) (val : string) :
  (base.size (writes m keys val) ≤ base.size m + length keys)%nat.
Proof.
  revert m. induction keys as [|k keys IH]; intros m; simpl; [lia|].
  etrans; [apply IH|]. rewrite map_size_insert. destruct (m !! k); simpl; lia.
Qed.

Lemma writes_size (m : gmap string string) (keys : list string) (val : string) :
  NoDup keys → (∀ k, k ∈ keys → m !! k = None) →
  base.size (writes m keys val) = (base.size m + length keys)%nat.
Proof.
  revert m. induction keys as [|k keys IH]; intros m Hnd Hfresh; simpl; [lia|].
  apply NoDup_cons in Hnd as [Hk Hnd]. rewrite IH; [|done|].
  - rewrite map_size_insert_None; [lia|]. apply Hfresh. by left.
  - intros k' Hk'. rewrite lookup_insert_ne by (intros ->; done).
    apply Hfresh. by right.
Qed.

Lemma writes_lookup_other (m : gmap string string) (keys : list string) (val key : string) :
  key ∉ keys → writes m keys val !! key = m !! key.
Proof.
  revert m. induction keys as [|k keys IH]; intros m Hnot; simpl; [done|].
  apply not_elem_of_cons in Hnot as [Hne Hnot]. rewrite IH by done.
  by rewrite lookup_insert_ne.
Qed.

Lemma writes_lookup (m : gmap string string) (keys : list string) (val key : string) :
  key ∈ keys → writes m keys val !! key = Some val.
Proof.
  revert m. induction keys as [|k keys IH]; intros m Hin; simpl.
  - by apply elem_of_nil in Hin.
  - destruct (decide (key ∈ keys)) as [?|Hnot]; [by apply IH|].
    apply elem_of_cons in Hin as [->|?]; [|done].
    by rewrite writes_lookup_other, lookup_insert_eq.
Qed.

Lemma writes_snoc (m : gmap string string) (keys : list string) (val key : string) :
  writes m (keys ++ [key]) val = <[key := val]> (writes m keys val).
Proof. unfold writes. by rewrite foldl_app. Qed.

Lemma Set_each_cons (key : string) (keys : list string) (val : string)
    (w : World) (l : LSMTree) :
  Set_each (key :: keys) val w l =
  match LSMTree_Set key val w l with
  | Returns e w' l' =>
      match Set_each keys val w' l' with
      | Returns es w'' l'' => Returns (e :: es) w'' l''
      | Blocks => Blocks
      end
  | Blocks => Blocks
  end.
Proof. done. Qed.

Lemma Set_each_app (keys1 keys2 : list string) (val : string) (w : World) (l : LSMTree) :
  Set_each (keys1 ++ keys2) val w l =
  match Set_each keys1 val w l with
  | Returns es1 w' l' =>
      match Set_each keys2 val w' l' with
      | Returns es2 w'' l'' => Returns (es1 ++ es2) w'' l''
      | Blocks => Blocks
      end
  | Blocks => Blocks
  end.
Proof.
  revert w l. induction keys1 as [|k keys1 IH]; intros w l.
  - simpl. unfold mret, method_ret. by destruct (Set_each keys2 val w l).
  - rewrite <-app_comm_cons, !Set_each_cons.
    destruct (LSMTree_Set k val w l) as [e w' l'|]; [|done].
    rewrite IH. destruct (Set_each keys1 val w' l') as [es1 w1 l1|]; [|done].
    by destruct (Set_each keys2 val w1 l1).
Qed.

Lemma cache_after_app (val : string) (c1 c2 c3 : Cache) (keys1 keys2 : list string) :
  cache_after val c1 keys1 c2 → cache_after val c2 keys2 c3 →
  cache_after val c1 (keys1 ++ keys2) c3.
Proof.
  induction 1 as [|c c' k ks w' _ IH]; intros H2; [done|].
  simpl. eapply cache_after_cons. by apply IH.
Qed.

(** Writes that keep the buffer below the threshold are all buffered. *)
Lemma Set_each_buffered (keys : list string) (val : string) (w : World) (l : LSMTree) :
  engine_ok w l →
  Z.of_nat (base.size (data (memTable l))) + Z.of_nat (length keys) < memTableSizeThreshold →
  ∃ w' l' errs,
    Set_each keys val w l = Returns errs w' l' ∧
    Forall (λ e, e = None) errs ∧
    engine_ok w' l' ∧ dataDir l' = dataDir l ∧
    data (memTable l') = writes (data (memTable l)) keys val ∧
    ssTables l' = ssTables l ∧
    cache_after val (cache l) keys (cache l') ∧
    files_kept [wal_path l] w w'.
Proof.
  revert w l. induction keys as [|k keys IH]; intros w l Hok Hsize.
  - exists w, l, []. split_and!; try done. constructor.
  - simpl in Hsize.
    destruct (LSMTree_Set_buffered k val w l Hok) as
      (w1 & l1 & wc & Hset & Hok1 & Hdir1 & Hdata1 & Hts1 & Hc1 & Hk1).
    { rewrite map_size_insert. destruct (data (memTable l) !! k); simpl; lia. }
    destruct (IH w1 l1 Hok1) as
      (w2 & l2 & errs & Hrun & Herrs & Hok2 & Hdir2 & Hdata2 & Hts2 & Hc2 & Hk2).
    { rewrite Hdata1, map_size_insert. destruct (data (memTable l) !! k); simpl; lia. }
    exists w2, l2, (None :: errs). rewrite Set_each_cons, Hset, Hrun.
    split_and!; try done.
    + by constructor.
    + congruence.
    + by rewrite Hdata2, Hdata1.
    + congruence.
    + eapply cache_after_cons. by rewrite <-Hc1.
    + eapply files_kept_weaken; [|eapply files_kept_trans; [exact Hk1|exact Hk2]].
      unfold wal_path. rewrite Hdir1. by intros p [?|?]%elem_of_app.
Qed.
End engine_fill.

(** ** What [List] returns *)

Section engine_list.
Context `{GoRuntime}.

Lemma mapRange_NoDup {V : Type} (r : nat) (m : gmap string V) : NoDup (mapRange r m).*1.
Proof. rewrite mapRange_perm. apply NoDup_fst_map_to_list. Qed.

Lemma mapRange_elem {V : Type} (r : nat) (m : gmap string V) (k : string) (v : V) :
  (k, v) ∈ mapRange r m ↔ m !! k = Some v.
Proof. by rewrite mapRange_perm, elem_of_map_to_list. Qed.

Lemma perm_NoDup_fst (visit : list (string * string)) (m : gmap string string) :
  visit ≡ₚ map_to_list m → NoDup visit.*1.
Proof. intros ->. apply NoDup_fst_map_to_list. Qed.

Lemma perm_elem (visit : list (string * string)) (m : gmap string string)
    (k v : string) :
  visit ≡ₚ map_to_list m → (k, v) ∈ visit ↔ m !! k = Some v.
Proof. intros ->. apply elem_of_map_to_list. Qed.

(** The loop of [List] over the write buffer keeps the pairs with a
    non-empty value. *)
Lemma list_memTable_lookup (visit : list (string * string)) (result : gmap string string)
    (key : string) :
  NoDup visit.*1 →
  foldl list_memTable_entry result visit !! key =
  match list_find (λ kv, kv.1 = key) visit with
  | Some (_, (_, val)) => if decide (val = EmptyString) then result !! key else Some val
  | None => result !! key
  end.
Proof.
  revert result. induction visit as [|[k v] visit IH]; intros result Hnd; [done|].
  rewrite fmap_cons in Hnd. apply NoDup_cons in Hnd as [Hk Hnd].
  simpl. rewrite IH by done. unfold list_memTable_entry. simpl.
  destruct (decide (k = key)) as [->|Hne].
  - destruct (list_find _ visit) as [[i [k' v']]|] eqn:Hfind.
    + apply list_find_Some in Hfind as (Hi & Heq & _). simpl in Heq. subst k'.
      destruct Hk. apply list_elem_of_fmap. exists (key, v'). split; [done|].
      by eapply list_elem_of_lookup_2.
    + simpl. destruct (decide (v = EmptyString)); [done|]. by rewrite lookup_insert_eq.
  - destruct (list_find _ visit) as [[i [k' v']]|] eqn:Hfind; simpl.
    + destruct (decide (v' = EmptyString)); [|done].
      destruct (decide (v = EmptyString)); [done|]. by rewrite lookup_insert_ne.
    + destruct (decide (v = EmptyString)); [done|]. by rewrite lookup_insert_ne.
Qed.

(** The loop of [List] over the pairs of one segment adds the keys that
    the result does not hold yet. *)
Lemma list_segment_lookup (visit : list (string * string)) (result : gmap string string)
    (key : string) :
  NoDup visit.*1 →
  foldl list_segment_entry result visit !! key =
  match result !! key with
  | Some val => Some val
  | None =>
      match list_find (λ kv, kv.1 = key) visit with
      | Some (_, (_, val)) => if decide (val = EmptyString) then None else Some val
      | None => None
      end
  end.
Proof.
  revert result. induction visit as [|[k v] visit IH]; intros result Hnd.
  { simpl. by destruct (result !! key). }
  rewrite fmap_cons in Hnd. apply NoDup_cons in Hnd as [Hk Hnd].
  simpl. rewrite IH by done. unfold list_segment_entry. simpl.
  destruct (decide (k = key)) as [->|Hne].
  - assert (list_find (λ kv : string * string, kv.1 = key) visit = None) as ->.
    { apply list_find_None, Forall_forall. intros [k' v'] Hin Heq. simpl in Heq. subst k'.
      destruct Hk. apply list_elem_of_fmap. by exists (key, v'). }
    destruct (result !! key) as [x|] eqn:Hr; [by rewrite Hr|].
    destruct (decide (v = EmptyString)); [by rewrite Hr|]. by rewrite lookup_insert_eq.
  - destruct (list_find _ visit) as [[i [k' v']]|]; simpl;
      (destruct (result !! k) as [x|] eqn:Hr; [done|]);
      (destruct (decide (v = EmptyString)); [done|]); by rewrite lookup_insert_ne.
Qed.

Lemma list_find_key (visit : list (string * string)) (key val : string) :
  NoDup visit.*1 → (key, val) ∈ visit →
  ∃ i, list_find (λ kv : string * string, kv.1 = key) visit = Some (i, (key, val)).
Proof.
  intros Hnd Hin. destruct (list_find _ visit) as [[i [k v]]|] eqn:Hfind.
  - apply list_find_Some in Hfind as (Hi & Heq & _). simpl in Heq. subst k.
    apply list_elem_of_lookup_2 in Hi.
    rewrite (NoDup_fst_functional visit Hnd key v val Hi Hin). by exists i.
  - apply list_find_None in Hfind. rewrite Forall_forall in Hfind.
    by destruct (Hfind _ Hin).
Qed.

Lemma list_find_no_key (visit : list (string * string)) (key : string) :
  key ∉ visit.*1 → list_find (λ kv : string * string, kv.1 = key) visit = None.
Proof.
  intros Hnot. apply list_find_None, Forall_forall. intros [k v] Hin Heq.
  simpl in Heq. subst k. apply Hnot, list_elem_of_fmap. by exists (key, v).
Qed.

Lemma segment_of_files (s : SSTable) (visit : list (string * string)) (w w' : World) :
  fs_files w' !! filePath s = fs_files w !! filePath s →
  segment_of s visit w → segment_of s visit w'.
Proof. intros Heq (? & ? & ?). split_and!; [done..|]. by rewrite Heq. Qed.

(** [List] with one segment in the registry: a key whose buffered value
    is missing or empty is listed with the value the segment holds. *)
Lemma LSMTree_List_segment_value (w : World) (l : LSMTree) (s : SSTable)
    (visit : list (string * string)) (key val : string) :
  mutex l = RWMutex_free → ssTables l = [s] →
  segment_of s visit w → Forall plain_entry visit → NoDup visit.*1 →
  data (memTable l) !! key = None ∨ data (memTable l) !! key = Some EmptyString →
  (key, val) ∈ visit → dropCR val ≠ EmptyString →
  ∃ listed w', LSMTree_List w l = Returns (inr listed) w' l ∧
               listed !! key = Some (dropCR val).
Proof.
  intros Hmu Hts Hseg Hplain Hnd Hbuf Hin Hval.
  destruct l as [d mt ts wl mu ch]. simpl in *. subst mu ts.
  unfold LSMTree_List, with_RLock. simpl.
  set (w1 := set_rand (S (rand w)) w).
  destruct (SSTable_List_written s visit w1) as (listed & Hlist & Hlisted); [|done..|].
  { by eapply segment_of_files. }
  rewrite Hlist. simpl.
  eexists _, _. split; [done|].
  rewrite list_segment_lookup by apply mapRange_NoDup.
  rewrite list_memTable_lookup by apply mapRange_NoDup. rewrite lookup_empty.
  assert (match list_find (λ kv : string * string, kv.1 = key)
                          (mapRange (rand w) (MemTable_Entries mt)) with
          | Some (_, (_, v)) => if decide (v = EmptyString) then None else Some v
          | None => None
          end = None) as ->.
  { destruct (list_find _ _) as [[i [k v]]|] eqn:Hfind; [|done].
    apply list_find_Some in Hfind as (Hi & Heq & _). simpl in Heq. subst k.
    apply list_elem_of_lookup_2, mapRange_elem in Hi. unfold MemTable_Entries in Hi.
    destruct Hbuf as [Hb|Hb]; rewrite Hb in Hi; [done|]. injection Hi as <-.
    by rewrite decide_True. }
  assert (listed !! key = Some (dropCR val)) as Hk.
  { apply Hlisted. by exists val. }
  destruct (list_find_key (mapRange (S (rand w)) listed) key (dropCR val)) as [i ->].
  - apply mapRange_NoDup.
  - by apply mapRange_elem.
  - by rewrite decide_False.
Qed.
End engine_list.

(** ** Filler keys *)

Definition filler (i : nat) : string := "f" +:+ pretty i.

Lemma filler_keys_eq (n : nat) : filler_keys n = filler <$> seq 0 n.
Proof. done. Qed.

Lemma filler_keys_S (n : nat) : filler_keys (S n) = filler_keys n ++ [filler n].
Proof. unfold filler_keys. by rewrite seq_S, fmap_app. Qed.

Lemma filler_keys_length (n : nat) : length (filler_keys n) = n.
Proof. unfold filler_keys. by rewrite length_fmap, length_seq. Qed.

Lemma filler_inj (i j : nat) : filler i = filler j → i = j.
Proof. unfold filler. intros Heq. apply String.app_inj in Heq. by apply pretty_nat_inj in Heq. Qed.

Lemma filler_keys_NoDup (n : nat) : NoDup (filler_keys n).
Proof.
  unfold filler_keys. apply NoDup_fmap_2; [|apply NoDup_seq].
  intros i j. apply filler_inj.
Qed.

Lemma filler_not_in_keys (n : nat) : filler n ∉ filler_keys n.
Proof.
  pose proof (filler_keys_NoDup (S n)) as Hnd. rewrite filler_keys_S in Hnd.
  apply NoDup_app in Hnd as (_ & Hdisj & _). intros Hin. apply (Hdisj _ Hin). by left.
Qed.

Lemma k_not_filler (keys : nat) : "k" ∉ filler_keys keys.
Proof.
  unfold filler_keys. intros (i & Heq & _)%list_elem_of_fmap. done.
Qed.

(** Decimal numerals consist of digits. *)
Lemma pretty_N_go_digits (c : ascii) (x : N) (s : string) :
  (∀ d, pretty_N_char d ≠ c) →
  has_byte c s = false → has_byte c (pretty_N_go x s) = false.
Proof.
  intros Hc. revert s. induction (N.lt_wf_0 x) as [x _ IH]; intros s Hs.
  destruct (decide (x = 0%N)) as [->|Hx]; [by rewrite pretty_N_go_0|].
  rewrite pretty_N_go_step by lia. apply IH; [apply N.div_lt; lia|].
  simpl. rewrite Hs, orb_false_r. apply Ascii.eqb_neq, Hc.
Qed.

Lemma pretty_nat_digits (c : ascii) (n : nat) :
  (∀ d, pretty_N_char d ≠ c) → has_byte c (pretty n) = false.
Proof.
  intros Hc. unfold pretty, pretty_nat, pretty, pretty_N. case_decide.
  - change (has_byte c "0") with (Ascii.eqb (pretty_N_char 0) c || false).
    rewrite orb_false_r. apply Ascii.eqb_neq, Hc.
  - by apply pretty_N_go_digits.
Qed.

Lemma pretty_N_go_length (k : nat) (x : N) (s : string) :
  (x < 10 ^ N.of_nat k)%N →
  (String.length (pretty_N_go x s) ≤ String.length s + k)%nat.
Proof.
  revert x s. induction k as [|k IH]; intros x s Hx.
  - assert (x = 0%N) as -> by (simpl in Hx; lia). rewrite pretty_N_go_0. lia.
  - destruct (decide (x = 0%N)) as [->|Hx0]; [rewrite pretty_N_go_0; lia|].
    rewrite pretty_N_go_step by lia. etrans; [apply IH|simpl; lia].
    rewrite Nat2N.inj_succ, N.pow_succ_r' in Hx.
    apply N.Div0.div_lt_upper_bound. lia.
Qed.

Lemma filler_length (n : nat) : (N.of_nat n < 10 ^ 7)%N → len (filler n) ≤ 8.
Proof.
  intros Hn. unfold len, filler. rewrite length_append. simpl String.length.
  assert (String.length (pretty n) ≤ 7)%nat; [|lia].
  unfold pretty, pretty_nat, pretty, pretty_N. case_decide; [simpl; lia|].
  etrans; [apply (pretty_N_go_length 7)|simpl; lia].
  by change (N.of_nat 7) with 7%N.
Qed.

Lemma filler_plain (n : nat) : plain_key (filler n).
Proof.
  unfold plain_key, filler. rewrite !has_byte_append. simpl.
  split; apply pretty_nat_digits; intros d; unfold pretty_N_char; by repeat case_match.
Qed.

Section engine_flush.
Context `{GoRuntime}.
Local Arguments LSMTree_Set : simpl never.

(** Writes to fresh keys that bring the buffer exactly to the threshold:
    the last one flushes the buffer into a new segment. *)
Lemma Set_each_flushes (keys : list string) (val : string) (w : World) (l : LSMTree) :
  engine_ok w l →
  NoDup keys → (∀ k, k ∈ keys → data (memTable l) !! k = None) →
  keys ≠ [] →
  Z.of_nat (base.size (data (memTable l))) + Z.of_nat (length keys) = memTableSizeThreshold →
  ∃ w' l' errs s t visit,
    Set_each keys val w l = Returns errs w' l' ∧
    Forall (λ e, e = None) errs ∧
    engine_ok w' l' ∧ dataDir l' = dataDir l ∧
    data (memTable l') = ∅ ∧
    ssTables l' = ssTables l ++ [s] ∧
    cache_after val (cache l) keys (cache l') ∧
    filePath s = filepath_Join (dataDir l) (sstable_name t) ∧
    clock w < t < clock w' ∧
    visit ≡ₚ map_to_list (writes (data (memTable l)) keys val) ∧
    segment_of s visit w' ∧
    files_kept [wal_path l; filePath s] w w'.
Proof.
  intros Hok Hnd Hfresh Hne Hsize.
  destruct keys as [|k0 keys0 _] using rev_ind; [done|]. clear Hne.
  rename keys0 into init. rename k0 into last.
  rewrite length_app in Hsize. simpl in Hsize.
  apply NoDup_app in Hnd as (Hnd_init & Hdisj & _).
  destruct (Set_each_buffered init val w l Hok) as
    (w1 & l1 & errs1 & Hrun1 & Herrs1 & Hok1 & Hdir1 & Hdata1 & Hts1 & Hc1 & Hk1); [lia|].
  assert (Hsize1 : base.size (data (memTable l1)) = (base.size (data (memTable l)) + length init)%nat).
  { rewrite Hdata1. apply writes_size; [done|]. intros k Hk. apply Hfresh.
    apply elem_of_app. by left. }
  assert (Hlast : data (memTable l1) !! last = None).
  { rewrite Hdata1, writes_lookup_other.
    - apply Hfresh, elem_of_app. right. by left.
    - intros Hin. apply (Hdisj _ Hin). by left. }
  destruct (LSMTree_Set_flushed last val w1 l1 Hok1) as
    (w2 & l2 & wc & s & t & visit & Hset & Hok2 & Hdir2 & Hdata2 & Hts2 & Hc2 & Hpath
     & Ht & Hperm & Hseg & Hk2).
  { rewrite map_size_insert_None by done. lia. }
  exists w2, l2, (errs1 ++ [None]), s, t, visit.
  rewrite Set_each_app, Hrun1, Set_each_cons, Hset. simpl.
  destruct Hk1 as (Hd1 & Ho1 & Hcl1 & Hf1). pose proof Hk2 as (Hd2 & Ho2 & Hcl2 & Hf2).
  assert (Forall (λ e : error, e = None) (errs1 ++ [None])).
  { apply Forall_app. split; [done|]. by repeat constructor. }
  assert (dataDir l2 = dataDir l) by congruence.
  assert (ssTables l2 = ssTables l ++ [s]) by congruence.
  assert (cache_after val (cache l) (init ++ [last]) (cache l2)).
  { eapply cache_after_app; [done|]. eapply cache_after_cons. rewrite <-Hc2. constructor. }
  assert (filePath s = filepath_Join (dataDir l) (sstable_name t)) by congruence.
  assert (clock w < t) by lia.
  assert (visit ≡ₚ map_to_list (writes (data (memTable l)) (init ++ [last]) val)).
  { by rewrite Hperm, writes_snoc, Hdata1. }
  assert (files_kept [wal_path l; filePath s] w w2).
  { split_and!; [congruence|congruence|lia|].
    intros p Hp. rewrite Hf2, Hf1; [done|..].
    - intros ?%list_elem_of_singleton. subst p. apply Hp. by left.
    - unfold wal_path in *. rewrite Hdir1. done. }
  split_and!; try done. lia.
Qed.
End engine_flush.

(** ** Runs that reach the flush threshold *)

(** As many filler keys as bring a buffer of one entry to the threshold. *)
Definition threshold_fill : list string :=
  filler_keys (Z.to_nat (memTableSizeThreshold - 1)).

Section threshold_runs.
Context `{GoRuntime}.
Local Arguments LSMTree_Set : simpl never.
Local Arguments LSMTree_List : simpl never.
Local Arguments Set_each : simpl never.

Lemma engine_ok_new : engine_ok empty_disk new_engine.
Proof.
  split_and!; [done..| |].
  - simpl. by apply elem_of_singleton.
  - intros name. simpl. intros Hin%elem_of_singleton.
    by apply (longer_not_equal "/data" (String slash name)).
Qed.

Lemma threshold_fill_length :
  Z.of_nat (length threshold_fill) = memTableSizeThreshold - 1.
Proof. unfold threshold_fill. rewrite filler_keys_length. unfold memTableSizeThreshold. lia. Qed.

Lemma threshold_fill_elem (key : string) :
  key ∈ threshold_fill → ∃ i, key = filler i ∧ (N.of_nat i < 10 ^ 7)%N.
Proof.
  unfold threshold_fill, filler_keys. intros (i & -> & Hi)%list_elem_of_fmap.
  exists i. split; [done|]. apply elem_of_seq in Hi. unfold memTableSizeThreshold in Hi.
  change (10 ^ 7)%N with 10000000%N. lia.
Qed.

(** Keys that can fill a buffer holding k up to the threshold. *)
Definition fill_keys_ok (keys : list string) : Prop :=
  NoDup keys ∧ ("k" ∉ keys) ∧
  1 + Z.of_nat (length keys) = memTableSizeThreshold ∧
  ∀ key, key ∈ keys → plain_key key ∧ len key ≤ 8.

Lemma threshold_fill_ok : fill_keys_ok threshold_fill.
Proof.
  split_and!.
  - apply filler_keys_NoDup.
  - apply k_not_filler.
  - rewrite threshold_fill_length. lia.
  - intros key (i & -> & Hi)%threshold_fill_elem. split; [apply filler_plain|].
    by apply filler_length.
Qed.

Lemma fill_keys_nonempty (keys : list string) : fill_keys_ok keys → keys ≠ [].
Proof.
  intros (_ & _ & Hlen & _) ->. unfold memTableSizeThreshold in Hlen. simpl in Hlen. lia.
Qed.

(** The pairs of a buffer that holds k and the fill are plain. *)
Lemma fill_buffer_plain (keys : list string) (val : string) (visit : list (string * string)) :
  fill_keys_ok keys →
  has_byte LF val = false → len val ≤ 8 →
  visit ≡ₚ map_to_list (writes {[ "k" := val ]} keys "x") →
  Forall plain_entry visit.
Proof.
  intros (_ & _ & _ & Hkeys) Hval Hlen Hperm. apply Forall_forall. intros [k v] Hin.
  apply (perm_elem _ _ k v Hperm) in Hin.
  destruct (decide (k ∈ keys)) as [Hk|Hk].
  - rewrite writes_lookup in Hin by done. injection Hin as <-.
    destruct (Hkeys _ Hk) as [Hplain Hshort].
    split_and!; [done|done|]. simpl.
    unfold MaxScanTokenSize. change (len "x") with 1. lia.
  - rewrite writes_lookup_other in Hin by done.
    apply lookup_singleton_Some in Hin as [<- <-].
    split_and!; [done|done|]. simpl. unfold MaxScanTokenSize. change (len "k") with 1. lia.
Qed.

Lemma bind_Returns {A B : Type} (m : method A) (f : A → method B) (w w' : World)
    (l l' : LSMTree) (a : A) :
  m w l = Returns a w' l' → (m ≫= f) w l = f a w' l'.
Proof. intros Hm. unfold mbind, method_bind. by rewrite Hm. Qed.

End threshold_runs.

Section stale_reads.
Context `{GoRuntime}.
Local Arguments LSMTree_Set : simpl never.
Local Arguments Set_each : simpl never.
Local Arguments Cache_Set : simpl never.
Local Arguments SSTable_Get : simpl never.

(** A lookup that misses the cache and the buffer returns what the loop
    over the segments finds. *)
Lemma LSMTree_Get_from_segments (key val : string) (w : World) (l : LSMTree) :
  mutex l = RWMutex_free →
  entries (cache l) !! key = None → data (memTable l) !! key = None →
  search_ssTables (reverse (ssTables l)) key w = inr (Some val) →
  ∃ w' l', LSMTree_Get key w l = Returns (val, None) w' l'.
Proof.
  intros Hmu Hc Hm Hs. destruct l as [d mt ts wl mu ch]. simpl in *. subst mu.
  unfold LSMTree_Get, with_RLock, Cache_Get, MemTable_Get. simpl.
  rewrite Hc, Hm. simpl. rewrite Hs.
  destruct (Cache_Set ch key val w) as [c' w']. by eexists _, _.
Qed.

(** A lookup that hits the cache returns the cached value. *)
Lemma LSMTree_Get_cached (key : string) (entry : CacheEntry) (w : World) (l : LSMTree) :
  mutex l = RWMutex_free → entries (cache l) !! key = Some entry →
  ∃ l', LSMTree_Get key w l = Returns (value entry, None) w l'.
Proof.
  intros Hmu Hc. destruct l as [d mt ts wl mu ch]. simpl in *. subst mu.
  unfold LSMTree_Get, with_RLock, Cache_Get. simpl. rewrite Hc. by eexists.
Qed.

Lemma perm_split_entry (visit : list (string * string)) (m : gmap string string)
    (key val : string) :
  visit ≡ₚ map_to_list m → m !! key = Some val →
  ∃ pre post, visit = pre ++ (key, val) :: post ∧ key ∉ post.*1.
Proof.
  intros Hperm Hm. pose proof (perm_NoDup_fst _ _ Hperm) as Hnd.
  apply (perm_elem _ _ _ _ Hperm), list_elem_of_split in Hm as (pre & post & ->).
  exists pre, post. split; [done|].
  rewrite fmap_app, fmap_cons in Hnd. apply NoDup_app in Hnd as (_ & _ & Hnd).
  by apply NoDup_cons in Hnd as [? _].
Qed.

(** The state the run behind C1 and C5 reaches: two segments, the older
    one written from a buffer with the pair (k, v), the newer one from a
    buffer with the tombstone (k, empty); both files intact; k not
    buffered. *)
Definition two_segments (w : World) (l : LSMTree) : Prop :=
  engine_ok w l ∧ data (memTable l) = ∅ ∧
  ∃ s0 s1 visit0 visit1 pre0 post0 pre1 post1,
    ssTables l = [s0; s1] ∧
    segment_of s0 visit0 w ∧ segment_of s1 visit1 w ∧
    visit0 = pre0 ++ ("k", "v") :: post0 ∧ ("k" ∉ post0.*1) ∧
    visit1 = pre1 ++ ("k", EmptyString) :: post1 ∧ ("k" ∉ post1.*1).

(** What holds of the cache while only [Set] has been called: every
    access count is 1 and the two maps have the same keys. *)
Definition sets_only (c : Cache) : Prop :=
  maxSize c = 1000 ∧
  Z.of_nat (base.size (entries c)) ≤ 1000 ∧
  (∀ k, is_Some (entries c !! k) ↔ is_Some (accessCount c !! k)) ∧
  (∀ k cnt, accessCount c !! k = Some cnt → cnt = 1).

Lemma sets_only_New : sets_only (NewCache 1000).
Proof.
  split_and!; [done| | |].
  - simpl. by rewrite map_size_empty.
  - intros k. simpl. by rewrite !lookup_empty.
  - intros k cnt. simpl. by rewrite lookup_empty.
Qed.

(** In such a cache that is not empty, the key [evict] picks is cached. *)
Lemma sets_only_victim (c : Cache) (r : nat) :
  sets_only c → (0 < base.size (entries c))%nat →
  is_Some (entries c !! (least_accessed (mapRange r (accessCount c))).1).
Proof.
  intros (Hmax & Hsize & Hdom & Hcnt) Hpos.
  destruct (map_choose (entries c)) as (k & e & He).
  { intros He. rewrite He, map_size_empty in Hpos. lia. }
  destruct (proj1 (Hdom k)) as [cnt Hk]; [by rewrite He|].
  destruct (least_accessed_min (mapRange r (accessCount c))) as [Hin _].
  { exists (k, cnt). split; [by apply mapRange_elem|]. simpl.
    rewrite (Hcnt _ _ Hk). pose proof MaxInt_large. lia. }
  destruct (least_accessed _) as [v cv]. apply mapRange_elem in Hin.
  apply Hdom. simpl. by rewrite Hin.
Qed.

Lemma Cache_Set_unfold (c : Cache) (key val : string) (w : World) :
  ∃ victim : option string,
    let es := from_option (λ v, delete v (entries c)) (entries c) victim in
    let ac := from_option (λ v, delete v (accessCount c)) (accessCount c) victim in
    (Cache_Set c key val w).1 =
      mkCache (<[key := mkCacheEntry val (clock w)]> es) (maxSize c) (<[key := 1]> ac) ∧
    (victim = None ↔ Z.of_nat (base.size (entries c)) < maxSize c) ∧
    (∀ v, victim = Some v → v = (least_accessed (mapRange (rand w) (accessCount c))).1).
Proof.
  unfold Cache_Set. destruct (Z.geb_spec (Z.of_nat (base.size (entries c))) (maxSize c)).
  - eexists (Some _). simpl. split_and!; [done| |by intros v [= <-]].
    split; [done|lia].
  - exists None. simpl. split_and!; [done|by split|done].
Qed.

Lemma sets_only_Set (c : Cache) (key val : string) (w : World) :
  sets_only c → sets_only (Cache_Set c key val w).1.
Proof.
  intros Hc. pose proof Hc as (Hmax & Hsize & Hdom & Hcnt).
  destruct (Cache_Set_unfold c key val w) as (victim & -> & Hfull & Hvictim).
  split_and!; simpl; [done| | |].
  - rewrite map_size_insert. destruct victim as [v|]; simpl.
    + rewrite (Hvictim v eq_refl), map_size_delete_Some.
      * destruct (_ !! key); simpl; lia.
      * apply sets_only_victim; [done|].
        destruct (base.size (entries c)) eqn:Hs; [|lia].
        assert (Some v = None) as [=]. apply Hfull. lia.
    + destruct (_ !! key); simpl; [lia|]. destruct Hfull as [Hfull _].
      specialize (Hfull eq_refl). lia.
  - intros k. destruct (decide (k = key)) as [->|];
      [rewrite !lookup_insert_eq; by split|rewrite !lookup_insert_ne by done].
    destruct victim as [v|]; simpl; [|done].
    destruct (decide (k = v)) as [->|];
      [rewrite !lookup_delete_eq; split; by intros []|by rewrite !lookup_delete_ne].
  - intros k cnt. destruct (decide (k = key)) as [->|];
      [rewrite lookup_insert_eq; by intros [= <-]|rewrite lookup_insert_ne by done].
    destruct victim as [v|]; simpl; [|apply Hcnt].
    intros [_ ?]%lookup_delete_Some. by eapply Hcnt.
Qed.

Lemma sets_only_after (val : string) (c c' : Cache) (keys : list string) :
  cache_after val c keys c' → sets_only c → sets_only c'.
Proof. induction 1 as [|c c' k ks w' _ IH]; [done|]. intros ?. by apply IH, sets_only_Set. Qed.

Lemma two_segments_reached (keys : list string) :
  fill_keys_ok keys →
  ∃ errs1 errs2 w l,
    (∀ (B : Type) (f : error → list error → error → list error → method B),
       (e1 ← LSMTree_Set "k" "v"; es1 ← Set_each keys "x";
        e2 ← LSMTree_Set "k" ""; es2 ← Set_each keys "x";
        f e1 es1 e2 es2) empty_disk new_engine
       = f None errs1 None errs2 w l) ∧
    Forall (λ e, e = None) (errs1 ++ errs2) ∧
    two_segments w l ∧
    ∃ c0 wc, sets_only c0 ∧ cache_after "x" (Cache_Set c0 "k" "" wc).1 keys (cache l).
Proof.
  intros Hkeys. pose proof Hkeys as (Hnd & Hk & Hlen & Hplain).
  destruct (LSMTree_Set_buffered "k" "v" empty_disk new_engine engine_ok_new) as
    (w1 & l1 & wc1 & Hset1 & Hok1 & Hdir1 & Hdata1 & Hts1 & Hc1 & _).
  { simpl. rewrite insert_empty, map_size_singleton. by unfold memTableSizeThreshold. }
  simpl in Hdata1, Hts1, Hdir1, Hc1. rewrite insert_empty in Hdata1.
  destruct (Set_each_flushes keys "x" w1 l1 Hok1) as
    (w2 & l2 & errs1 & s0 & t0 & visit0 & Hrun2 & Herrs1 & Hok2 & Hdir2 & Hdata2 & Hts2
     & Hc2 & Hpath0 & Ht0 & Hperm0 & Hseg0 & _).
  { done. }
  { intros k Hin. rewrite Hdata1. apply lookup_singleton_ne. by intros <-. }
  { by apply fill_keys_nonempty. }
  { rewrite Hdata1, map_size_singleton. lia. }
  rewrite Hts1 in Hts2. simpl in Hts2. rewrite Hdata1 in Hperm0.
  destruct (LSMTree_Set_buffered "k" "" w2 l2 Hok2) as
    (w3 & l3 & wc3 & Hset3 & Hok3 & Hdir3 & Hdata3 & Hts3 & Hc3 & Hkept3).
  { rewrite Hdata2, insert_empty, map_size_singleton. by unfold memTableSizeThreshold. }
  rewrite Hdata2, insert_empty in Hdata3.
  destruct (Set_each_flushes keys "x" w3 l3 Hok3) as
    (w4 & l4 & errs2 & s1 & t1 & visit1 & Hrun4 & Herrs2 & Hok4 & Hdir4 & Hdata4 & Hts4
     & Hc4 & Hpath1 & Ht1 & Hperm1 & Hseg1 & Hkept4).
  { done. }
  { intros k Hin. rewrite Hdata3. apply lookup_singleton_ne. by intros <-. }
  { by apply fill_keys_nonempty. }
  { rewrite Hdata3, map_size_singleton. lia. }
  rewrite Hts3, Hts2 in Hts4. simpl in Hts4. rewrite Hdata3 in Hperm1.
  destruct (perm_split_entry visit0 _ "k" "v" Hperm0) as (pre0 & post0 & Hv0 & Hpost0).
  { rewrite writes_lookup_other by done. by rewrite lookup_singleton_eq. }
  destruct (perm_split_entry visit1 _ "k" EmptyString Hperm1) as (pre1 & post1 & Hv1 & Hpost1).
  { rewrite writes_lookup_other by done. by rewrite lookup_singleton_eq. }
  assert (Hseg0' : segment_of s0 visit0 w4).
  { eapply segment_of_files; [|exact Hseg0].
    destruct Hkept3 as (_ & _ & Hcl3 & Hf3). destruct Hkept4 as (_ & _ & _ & Hf4).
    rewrite Hf4, Hf3; [done|..].
    - rewrite list_elem_of_singleton, Hpath0. unfold wal_path. rewrite Hdir2.
      intros Heq. by apply (wal_not_sstable (dataDir l1) t0).
    - rewrite !elem_of_cons, elem_of_nil, Hpath0, Hpath1. unfold wal_path.
      rewrite Hdir3, Hdir2. intros [Heq|[Heq|[]]].
      + by apply (wal_not_sstable (dataDir l1) t0).
      + apply filepath_Join_inj, sstable_name_inj in Heq. lia. }
  exists errs1, errs2, w4, l4. split_and!.
  - intros B f.
    rewrite (bind_Returns _ _ _ _ _ _ _ Hset1). cbv beta.
    rewrite (bind_Returns _ _ _ _ _ _ _ Hrun2). cbv beta.
    rewrite (bind_Returns _ _ _ _ _ _ _ Hset3). cbv beta.
    by rewrite (bind_Returns _ _ _ _ _ _ _ Hrun4).
  - by apply Forall_app.
  - split_and!; [done..|].
    by exists s0, s1, visit0, visit1, pre0, post0, pre1, post1.
  - exists (cache l2), wc3. split; [|by rewrite <-Hc3].
    eapply sets_only_after; [exact Hc2|]. rewrite Hc1.
    apply sets_only_Set, sets_only_New.
Qed.

(** In that state the newer segment reads empty for k, the older one
    reads v, and a lookup that reaches the segments returns v. *)
Lemma two_segments_read (w : World) (l : LSMTree) :
  two_segments w l →
  (λ s, bool_decide (is_Some (index s !! "k"))) <$> ssTables l = [true; true] ∧
  (λ s, SSTable_Get s "k" w) <$> ssTables l = [("v", None); (EmptyString, None)] ∧
  search_ssTables (reverse (ssTables l)) "k" w = inr (Some "v").
Proof.
  intros (Hok & Hdata & s0 & s1 & visit0 & visit1 & pre0 & post0 & pre1 & post1
          & -> & Hseg0 & Hseg1 & -> & Hpost0 & -> & Hpost1).
  assert (Hget0 : SSTable_Get s0 "k" w = ("v", None)).
  { by apply (SSTable_Get_written s0 pre0 post0 "k" "v" w). }
  assert (Hget1 : SSTable_Get s1 "k" w = (EmptyString, None)).
  { by apply (SSTable_Get_written s1 pre1 post1 "k" EmptyString w). }
  split_and!.
  - destruct Hseg0 as (_ & Hi0 & _), Hseg1 as (_ & Hi1 & _). simpl.
    by rewrite Hi0, Hi1, !build_index_entry.
  - simpl. by rewrite Hget0, Hget1.
  - change (reverse [s0; s1]) with [s1; s0]. simpl. by rewrite Hget1, Hget0.
Qed.

Lemma two_segments_Get_stale (w : World) (l : LSMTree) :
  two_segments w l → entries (cache l) !! "k" = None →
  ∃ w' l', LSMTree_Get "k" w l = Returns ("v", None) w' l'.
Proof.
  intros Htwo Hc. pose proof Htwo as (Hok & Hdata & _).
  apply LSMTree_Get_from_segments; [apply Hok|done|by rewrite Hdata|].
  by apply two_segments_read.
Qed.

(** While only other keys are written, a cached k keeps the value it was
    cached with. *)
Lemma cache_after_keeps (val kval : string) (c c' : Cache) (keys : list string) :
  cache_after val c keys c' → ("k" ∉ keys) →
  (∀ e, entries c !! "k" = Some e → value e = kval) →
  ∀ e, entries c' !! "k" = Some e → value e = kval.
Proof.
  induction 1 as [|c c' k ks w' _ IH]; intros Hk Hc; [done|].
  apply not_elem_of_cons in Hk as [Hne Hk]. apply IH; [done|].
  destruct (Cache_Set_unfold c k val w') as (victim & -> & _ & _). simpl.
  intros e. rewrite lookup_insert_ne by done.
  destruct victim as [v|]; simpl; [|apply Hc].
  intros [_ ?]%lookup_delete_Some. by apply Hc.
Qed.

Lemma Cache_Set_holds (c : Cache) (key val : string) (w : World) :
  ∃ e, entries (Cache_Set c key val w).1 !! key = Some e ∧ value e = val.
Proof.
  destruct (Cache_Set_unfold c key val w) as (victim & -> & _ & _). simpl.
  rewrite lookup_insert_eq. by eexists.
Qed.

(** The run with two automatic flushes, on every runtime.  All writes
    succeed.  Afterwards k is not buffered; both segments hold an entry
    for k, the older one reads v and the newer one reads the empty value;
    the loop of [Get] over the segments, newest first, ends with v.
    The final [Get(k)] returns the empty value if k is still cached, and
    otherwise the overwritten value v of the older segment. *)
Lemma stale_read_after_flushes (keys : list string) :
  fill_keys_ok keys →
  ∃ errs1 errs2 c g,
    result ((e1 ← LSMTree_Set "k" "v"; es1 ← Set_each keys "x";
             e2 ← LSMTree_Set "k" ""; es2 ← Set_each keys "x";
             b ← buffered "k"; hs ← segments_hold "k"; gs ← segments_Get "k";
             found ← cascade "k"; c ← cached "k"; g ← LSMTree_Get "k";
             mret (e1, es1, e2, es2, b, hs, gs, found, c, g)) empty_disk new_engine)
    = Some (None, errs1, None, errs2, None, [true; true],
            [("v", None); (EmptyString, None)], inr (Some "v"), c, g) ∧
    Forall (λ e, e = None) (errs1 ++ errs2) ∧
    g = if c then (EmptyString, None) else ("v", None).
Proof.
  intros Hkeys.
  destruct (two_segments_reached keys Hkeys) as
    (errs1 & errs2 & w & l & Hrun & Herrs & Htwo & c0 & wc & Hc0 & Hafter).
  destruct (two_segments_read w l Htwo) as (Hhold & Hgets & Hfound).
  pose proof Htwo as (Hok & Hdata & _).
  exists errs1, errs2, (bool_decide (is_Some (entries (cache l) !! "k"))).
  destruct (entries (cache l) !! "k") as [e|] eqn:He.
  - destruct (LSMTree_Get_cached "k" e w l) as (l' & Hget); [apply Hok|done|].
    assert (value e = EmptyString) as Hval.
    { eapply (cache_after_keeps "x" EmptyString _ _ keys Hafter); [apply Hkeys| |done].
      destruct (Cache_Set_holds c0 "k" EmptyString wc) as (e0 & He0 & Hv0).
      intros e'. rewrite He0. by intros [= <-]. }
    exists (EmptyString, None). split_and!; [|done|by rewrite bool_decide_eq_true_2].
    rewrite Hrun.
    unfold mbind, method_bind, buffered, segments_hold, segments_Get, cascade, cached.
    rewrite Hget, Hdata, Hhold, Hgets, Hfound, He, Hval. done.
  - destruct (two_segments_Get_stale w l Htwo He) as (w' & l' & Hget).
    exists ("v", None). split_and!; [|done|by rewrite bool_decide_eq_false_2; [|intros []]].
    rewrite Hrun.
    unfold mbind, method_bind, buffered, segments_hold, segments_Get, cascade, cached.
    rewrite Hget, Hdata, Hhold, Hgets, Hfound, He. done.
Qed.

(** The same run when the caching of the fill is known to evict k: the
    final [Get(k)] returns v. *)
Lemma stale_read_evicted (keys : list string) :
  fill_keys_ok keys →
  (∀ c c', sets_only c → cache_after "x" c keys c' → entries c' !! "k" = None) →
  ∃ errs1 errs2,
    result ((e1 ← LSMTree_Set "k" "v"; es1 ← Set_each keys "x";
             e2 ← LSMTree_Set "k" ""; es2 ← Set_each keys "x";
             c ← cached "k"; b ← buffered "k"; g ← LSMTree_Get "k";
             mret (e1, es1, e2, es2, c, b, g)) empty_disk new_engine)
    = Some (None, errs1, None, errs2, false, None, ("v", None)) ∧
    Forall (λ e, e = None) (errs1 ++ errs2).
Proof.
  intros Hkeys Hevict.
  destruct (two_segments_reached keys Hkeys) as
    (errs1 & errs2 & w & l & Hrun & Herrs & Htwo & c0 & wc & Hc0 & Hafter).
  pose proof Htwo as (Hok & Hdata & _).
  assert (He : entries (cache l) !! "k" = None).
  { eapply Hevict; [|exact Hafter]. by apply sets_only_Set. }
  destruct (two_segments_Get_stale w l Htwo He) as (w' & l' & Hget).
  exists errs1, errs2. split; [|done].
  rewrite Hrun. unfold mbind, method_bind, buffered, cached.
  rewrite Hget, Hdata, He. done.
Qed.

End stale_reads.

(** ** The recency cache when [range] visits k first *)

Section evict_first.
Local Existing Instance go_k_first.
Local Arguments Cache_Set : simpl never.

Lemma least_accessed_stable (visit : list (string * Z)) (best : string * Z) :
  (∀ kc, kc ∈ visit → best.2 ≤ kc.2) →
  foldl (λ (best : string * Z) (kc : string * Z),
           if kc.2 <? best.2 then (kc.1, kc.2) else best) best visit = best.
Proof.
  induction visit as [|kc visit IH]; intros Hall; [done|]. cbn [foldl].
  destruct (Z.ltb_spec kc.2 best.2) as [Hlt|_].
  - assert (best.2 ≤ kc.2); [|lia]. apply Hall, elem_of_cons. by left.
  - apply IH. intros kc' Hin. apply Hall, elem_of_cons. by right.
Qed.

(** While only [Set] has been called, [evict] picks k if it is cached. *)
Lemma k_first_victim (c : Cache) (r : nat) :
  sets_only c → is_Some (entries c !! "k") →
  (least_accessed (mapRange r (accessCount c))).1 = "k".
Proof.
  intros (_ & _ & Hdom & Hcnt) [cnt Hk]%Hdom.
  pose proof (Hcnt _ _ Hk) as ->.
  change (mapRange r (accessCount c)) with (k_first (accessCount c)).
  unfold k_first. rewrite Hk. unfold least_accessed. cbn [foldl fst snd].
  destruct (Z.ltb_spec 1 MaxInt) as [_|Hge]; [|pose proof MaxInt_large; lia].
  rewrite least_accessed_stable; [done|].
  intros [k' c'] [_ Hin]%elem_of_map_to_list%lookup_delete_Some. simpl.
  rewrite (Hcnt _ _ Hin). lia.
Qed.

(** One more [Set] of another key: k is gone, or nothing was evicted. *)
Lemma k_first_step (c : Cache) (key : string) (w : World) (seen : list string) :
  sets_only c → key ≠ "k" →
  entries c !! "k" = None ∨ (∀ p, p ∈ seen → is_Some (entries c !! p)) →
  entries (Cache_Set c key "x" w).1 !! "k" = None ∨
  (∀ p, p ∈ seen ++ [key] → is_Some (entries (Cache_Set c key "x" w).1 !! p)).
Proof.
  intros Hc Hne Hinv.
  destruct (Cache_Set_unfold c key "x" w) as (victim & -> & Hfull & Hvictim). simpl.
  rewrite lookup_insert_ne by done.
  destruct (entries c !! "k") as [e|] eqn:Hk.
  - destruct Hinv as [[=]|Hinv]. destruct victim as [v|]; simpl.
    + left. rewrite (Hvictim v eq_refl), k_first_victim; [|done|by rewrite Hk].
      apply lookup_delete_eq.
    + right. intros p [Hp|Hp%list_elem_of_singleton]%elem_of_app.
      * destruct (decide (p = key)) as [->|];
          [by rewrite lookup_insert_eq|rewrite lookup_insert_ne by done; auto].
      * subst p. by rewrite lookup_insert_eq.
  - left. destruct victim as [v|]; simpl; [|done].
    apply lookup_delete_None. by right.
Qed.

Lemma k_first_after (c c' : Cache) (keys seen : list string) :
  cache_after "x" c keys c' → sets_only c → ("k" ∉ keys) →
  entries c !! "k" = None ∨ (∀ p, p ∈ seen → is_Some (entries c !! p)) →
  entries c' !! "k" = None ∨ (∀ p, p ∈ seen ++ keys → is_Some (entries c' !! p)).
Proof.
  intros Hafter. revert seen.
  induction Hafter as [c|c c' key keys w _ IH]; intros seen Hc Hk Hinv.
  - by rewrite app_nil_r.
  - apply not_elem_of_cons in Hk as [Hne Hk].
    rewrite cons_middle, app_assoc.
    apply IH; [by apply sets_only_Set|done|by apply k_first_step].
Qed.

(** A thousand writes of distinct other keys push k out of the cache. *)
Lemma k_first_evicts (c c' : Cache) (keys : list string) :
  sets_only c → cache_after "x" c keys c' →
  NoDup keys → ("k" ∉ keys) → (1000 ≤ length keys)%nat →
  entries c' !! "k" = None.
Proof.
  intros Hc Hafter Hnd Hk Hlen.
  destruct (k_first_after c c' keys [] Hafter Hc Hk) as [?|Hall];
    [right; intros p Hp; by apply elem_of_nil in Hp|done|].
  destruct (entries c' !! "k") as [e|] eqn:He; [exfalso|done].
  pose proof (sets_only_after "x" c c' keys Hafter Hc) as (_ & Hsize & _).
  assert (Hsub : (list_to_set ("k" :: keys) : gset string) ⊆ dom (entries c')).
  { intros p. rewrite elem_of_list_to_set, elem_of_dom, elem_of_cons.
    intros [->|Hp]; [by rewrite He|by apply Hall]. }
  apply subseteq_size in Hsub.
  rewrite size_dom, size_list_to_set in Hsub by by apply NoDup_cons.
  simpl in Hsub. lia.
Qed.

(** The run with two automatic flushes on this runtime: the final
    [Get(k)] returns the overwritten value. *)
Lemma stale_read_k_first (keys : list string) :
  fill_keys_ok keys →
  ∃ errs1 errs2,
    result ((e1 ← LSMTree_Set "k" "v"; es1 ← Set_each keys "x";
             e2 ← LSMTree_Set "k" ""; es2 ← Set_each keys "x";
             c ← cached "k"; b ← buffered "k"; g ← LSMTree_Get "k";
             mret (e1, es1, e2, es2, c, b, g)) empty_disk new_engine)
    = Some (None, errs1, None, errs2, false, None, ("v", None)) ∧
    Forall (λ e, e = None) (errs1 ++ errs2).
Proof.
  intros Hkeys. apply stale_read_evicted; [done|].
  intros c c' Hc Hafter. destruct Hkeys as (Hnd & Hk & Hlen & _).
  apply (k_first_evicts c c' keys); [done..|].
  unfold memTableSizeThreshold in Hlen. lia.
Qed.
End evict_first.

Section tombstone_runs.
Context `{GoRuntime}.
Local Arguments LSMTree_Set : simpl never.
Local Arguments Set_each : simpl never.
Local Arguments Cache_Set : simpl never.
Local Arguments LSMTree_List : simpl never.
Local Arguments LSMTree_Get : simpl never.

(** A value is written for k, and the fill brings the buffer to the
    threshold, so that [Set] flushes it.  [Delete(k)] then never returns.
    When the tombstone is written by [Set] instead, all writes succeed,
    [Get(k)] returns the empty value, and [List] returns a listing that
    contains k with the deleted value v. *)
Lemma deleted_key_listed (keys : list string) :
  fill_keys_ok keys →
  ∃ errs listed,
    result ((e1 ← LSMTree_Set "k" "v"; es ← Set_each keys "x";
             d ← LSMTree_Delete "k"; mret (e1, es, d))
            empty_disk new_engine)
    = None ∧
    result ((e1 ← LSMTree_Set "k" "v"; es ← Set_each keys "x";
             e2 ← LSMTree_Set "k" ""; g ← LSMTree_Get "k"; mret (e1, es, e2, g))
            empty_disk new_engine)
    = Some (None, errs, None, (EmptyString, None)) ∧
    result ((e1 ← LSMTree_Set "k" "v"; es ← Set_each keys "x";
             e2 ← LSMTree_Set "k" ""; r ← LSMTree_List; mret (e1, es, e2, r))
            empty_disk new_engine)
    = Some (None, errs, None, inr listed) ∧
    Forall (λ e, e = None) errs ∧ listed !! "k" = Some "v".
Proof.
  intros Hkeys. pose proof Hkeys as (Hnd & Hk & Hlen & Hplain).
  destruct (LSMTree_Set_buffered "k" "v" empty_disk new_engine engine_ok_new) as
    (w1 & l1 & wc1 & Hset1 & Hok1 & Hdir1 & Hdata1 & Hts1 & _ & _).
  { simpl. rewrite insert_empty, map_size_singleton. by unfold memTableSizeThreshold. }
  simpl in Hdata1, Hts1, Hdir1. rewrite insert_empty in Hdata1.
  destruct (Set_each_flushes keys "x" w1 l1 Hok1) as
    (w2 & l2 & errs & s & t & visit & Hrun & Herrs & Hok2 & Hdir2 & Hdata2 & Hts2 & _
     & Hpath & _ & Hperm & Hseg & _).
  { done. }
  { intros k Hin. rewrite Hdata1. apply lookup_singleton_ne. by intros <-. }
  { by apply fill_keys_nonempty. }
  { rewrite Hdata1, map_size_singleton. lia. }
  rewrite Hts1 in Hts2. simpl in Hts2. rewrite Hdata1 in Hperm.
  destruct (LSMTree_Set_buffered "k" "" w2 l2 Hok2) as
    (w3 & l3 & wc3 & Hset3 & Hok3 & Hdir3 & Hdata3 & Hts3 & Hc3 & Hkept3).
  { rewrite Hdata2, insert_empty, map_size_singleton. by unfold memTableSizeThreshold. }
  rewrite Hdata2, insert_empty in Hdata3.
  destruct (LSMTree_List_segment_value w3 l3 s visit "k" "v") as
    (listed & w4 & Hlist & Hlisted); try done.
  - apply Hok3.
  - congruence.
  - eapply segment_of_files; [|done]. destruct Hkept3 as (_ & _ & _ & Hf). apply Hf.
    rewrite list_elem_of_singleton, Hpath. unfold wal_path. rewrite Hdir2.
    intros Heq. by apply (wal_not_sstable (dataDir l1) t).
  - apply (fill_buffer_plain keys "v"); [done|done|by change (len "v") with 1|done].
  - by eapply perm_NoDup_fst.
  - right. by rewrite Hdata3, lookup_singleton_eq.
  - apply (perm_elem _ _ _ _ Hperm). rewrite writes_lookup_other by done.
    by rewrite lookup_singleton_eq.
  - exists errs, listed. split_and!; [| | |done|done].
    + rewrite (bind_Returns _ _ _ _ _ _ _ Hset1). cbv beta.
      rewrite (bind_Returns _ _ _ _ _ _ _ Hrun). cbv beta.
      unfold mbind, method_bind, LSMTree_Delete, with_Lock.
      destruct (RWMutex_Lock (mutex l2)) as [mu|] eqn:Hlock; [|done].
      by rewrite (LSMTree_Get_under_Lock "k" w2 l2 mu Hlock).
    + destruct (Cache_Set_holds (cache l2) "k" EmptyString wc3) as (e & He & Hval).
      rewrite <-Hc3 in He.
      destruct (LSMTree_Get_cached "k" e w3 l3) as (l' & Hget); [apply Hok3|done|].
      rewrite (bind_Returns _ _ _ _ _ _ _ Hset1). cbv beta.
      rewrite (bind_Returns _ _ _ _ _ _ _ Hrun). cbv beta.
      rewrite (bind_Returns _ _ _ _ _ _ _ Hset3). cbv beta.
      rewrite (bind_Returns _ _ _ _ _ _ _ Hget). by rewrite Hval.
    + rewrite (bind_Returns _ _ _ _ _ _ _ Hset1). cbv beta.
      rewrite (bind_Returns _ _ _ _ _ _ _ Hrun). cbv beta.
      rewrite (bind_Returns _ _ _ _ _ _ _ Hset3). cbv beta.
      by rewrite (bind_Returns _ _ _ _ _ _ _ Hlist).
Qed.
End tombstone_runs.

(** ** Values with a newline *)

Section newline_values.
Context `{GoRuntime}.
Local Arguments LSMTree_Set : simpl never.
Local Arguments Set_each : simpl never.
Local Arguments Cache_Set : simpl never.
Local Arguments SSTable_Get : simpl never.

(** Reading back a key whose value was written with a newline in it:
    [Get] returns the bytes of the value before its first newline. *)
Lemma SSTable_Get_first_line (s : SSTable) (pre post : list (string * string))
    (key v1 v2 : string) (w : World) :
  segment_of s (pre ++ (key, v1 +:+ String LF v2) :: post) w →
  key ∉ post.*1 →
  plain_key key → has_byte LF v1 = false →
  len key + 1 + len v1 < MaxScanTokenSize →
  SSTable_Get s key w = (dropCR v1, None).
Proof.
  intros Hseg Hpost [Hcomma Hlf] Hval Hlen.
  unfold SSTable_Get.
  rewrite (segment_of_filter s _ w key Hseg).
  2: { rewrite fmap_app, fmap_cons. apply elem_of_app. right. apply elem_of_cons. by left. }
  destruct Hseg as (_ & Hi & Hfile). simpl.
  rewrite Hi, build_index_entry by done. unfold os_Open. rewrite Hfile.
  simpl. pose proof (len_nonneg (entries_bytes pre)).
  destruct (Z.ltb_spec (0 + len (entries_bytes pre)) 0); [lia|].
  rewrite Z.add_0_l. unfold len at 1. rewrite Nat2Z.id.
  rewrite entries_bytes_app, drop_bytes_append. simpl.
  rewrite Sprintf_entry_append. unfold Scanner_first.
  replace (key +:+ String comma ((v1 +:+ String LF v2) +:+ String LF (entries_bytes post)))
    with ((key +:+ String comma v1) +:+ String LF (v2 +:+ String LF (entries_bytes post)))
    by (by rewrite !append_assoc, !append_cons).
  rewrite raw_lines_line by (rewrite has_byte_append; simpl; by rewrite Hlf, Hval).
  unfold fits_buffer. rewrite len_append. unfold len at 2. simpl String.length.
  destruct (Z.ltb_spec (len key + Z.of_nat (S (String.length v1))) MaxScanTokenSize);
    [|unfold len in *; lia].
  rewrite dropCR_after_comma, SplitN_comma_2_fields by done.
  by rewrite decide_True.
Qed.

(** A value with a newline is written for k, and the fill brings the
    buffer to the threshold, so that [Set] flushes it: every write
    succeeds, and the segment reads only the first line of the value. *)
Lemma newline_value_flushed (keys : list string) (v1 v2 : string) :
  fill_keys_ok keys →
  has_byte LF v1 = false → len v1 < 1024 →
  ∃ errs,
    result ((e ← LSMTree_Set "k" (v1 +:+ String LF v2); es ← Set_each keys "x";
             gs ← segments_Get "k"; mret (e, es, gs)) empty_disk new_engine)
    = Some (None, errs, [(dropCR v1, None)]) ∧
    Forall (λ e, e = None) errs.
Proof.
  intros Hkeys Hv1 Hlen. pose proof Hkeys as (Hnd & Hk & Hlenk & Hplain).
  destruct (LSMTree_Set_buffered "k" (v1 +:+ String LF v2) empty_disk new_engine engine_ok_new)
    as (w1 & l1 & wc1 & Hset1 & Hok1 & Hdir1 & Hdata1 & Hts1 & _ & _).
  { simpl. rewrite insert_empty, map_size_singleton. by unfold memTableSizeThreshold. }
  simpl in Hdata1, Hts1, Hdir1. rewrite insert_empty in Hdata1.
  destruct (Set_each_flushes keys "x" w1 l1 Hok1) as
    (w2 & l2 & errs & s0 & t0 & visit0 & Hrun & Herrs & Hok2 & Hdir2 & Hdata2 & Hts2
     & _ & _ & _ & Hperm & Hseg & _).
  { done. }
  { intros k Hin. rewrite Hdata1. apply lookup_singleton_ne. by intros <-. }
  { by apply fill_keys_nonempty. }
  { rewrite Hdata1, map_size_singleton. lia. }
  rewrite Hts1 in Hts2. simpl in Hts2. rewrite Hdata1 in Hperm.
  destruct (perm_split_entry visit0 _ "k" (v1 +:+ String LF v2) Hperm)
    as (pre & post & -> & Hpost).
  { rewrite writes_lookup_other by done. by rewrite lookup_singleton_eq. }
  assert (Hget : SSTable_Get s0 "k" w2 = (dropCR v1, None)).
  { apply (SSTable_Get_first_line s0 pre post "k" v1 v2 w2); [done|done|done|done|].
    unfold MaxScanTokenSize. change (len "k") with 1. lia. }
  exists errs. split; [|done].
  rewrite (bind_Returns _ _ _ _ _ _ _ Hset1). cbv beta.
  rewrite (bind_Returns _ _ _ _ _ _ _ Hrun). cbv beta.
  unfold mbind, method_bind, segments_Get. rewrite Hts2. simpl. by rewrite Hget.
Qed.

(** [Set] below the threshold appends the line of the pair to the WAL. *)
Lemma LSMTree_Set_logged (key val : string) (w : World) (l : LSMTree) :
  engine_ok w l →
  Z.of_nat (base.size (<[key := val]> (data (memTable l)))) < memTableSizeThreshold →
  ∃ w' l',
    LSMTree_Set key val w l = Returns None w' l' ∧
    dataDir l' = dataDir l ∧ wal l' = wal l ∧ fs_dirs w' = fs_dirs w ∧
    fs_files w' !! wal_path l =
      Some (default EmptyString (fs_files w !! wal_path l) +:+ Sprintf_entry key val).
Proof.
  intros Hok Hsize. rewrite LSMTree_Set_eq by done. cbv zeta.
  set (w1 := set_files _ w).
  destruct (Z.geb_spec (MemTable_Size (MemTable_Set (memTable l) key val))
                       memTableSizeThreshold) as [Hge|_].
  { unfold MemTable_Size, MemTable_Set in Hge. simpl in Hge. lia. }
  destruct (Cache_Set_world (cache l) key val w1) as ((Hd & _ & _ & Hf) & _).
  eexists _, _. split_and!; [done|done|done|by rewrite Hd|].
  rewrite Hf by apply not_elem_of_nil. subst w1. simpl. by rewrite lookup_insert_eq.
Qed.

(** What [WAL.Recover] reads after a first [Set] on a new engine. *)
Lemma first_Set_recovered (key val : string) :
  result ((e ← LSMTree_Set key val; r ← wal_Recover; mret (e, r)) empty_disk new_engine)
  = Some (None,
          match Scanner_all (Sprintf_entry key val) with
          | (lines, Some err) => inl (Errorf_w "failed to read WAL" err)
          | (lines, None) => inr (foldl recover_line ∅ lines)
          end).
Proof.
  destruct (LSMTree_Set_logged key val empty_disk new_engine engine_ok_new)
    as (w1 & l1 & Hset & _ & Hwl & _ & Hwal).
  { simpl. rewrite insert_empty, map_size_singleton. by unfold memTableSizeThreshold. }
  rewrite (bind_Returns _ _ _ _ _ _ _ Hset). cbv beta.
  unfold mbind, method_bind, wal_Recover, WAL_Recover, os_Open.
  rewrite Hwl. change (wal_filePath (wal new_engine)) with (wal_path new_engine).
  by rewrite Hwal.
Qed.

Lemma newline_value_runs (keys : list string) :
  fill_keys_ok keys →
  ∃ errs,
    result ((e ← LSMTree_Set "k" ("a" +:+ String LF "b,c"); es ← Set_each keys "x";
             gs ← segments_Get "k"; mret (e, es, gs)) empty_disk new_engine)
    = Some (None, errs, [("a", None)]) ∧
    Forall (λ e, e = None) errs ∧
    result ((e ← LSMTree_Set "k" ("a" +:+ String LF "b,c"); r ← wal_Recover; mret (e, r))
            empty_disk new_engine)
    = Some (None, inr {[ "k" := "a"; "b" := "c" ]}) ∧
    result ((e ← LSMTree_Set "k" ("a" +:+ String LF "b"); r ← wal_Recover; mret (e, r))
            empty_disk new_engine)
    = Some (None, inr {[ "k" := "a" ]}).
Proof.
  intros Hkeys.
  destruct (newline_value_flushed keys "a" "b,c" Hkeys) as (errs & Hrun & Herrs);
    [done|by change (len "a") with 1|].
  exists errs. split_and!; [exact Hrun|done|..]; rewrite first_Set_recovered;
    vm_compute; reflexivity.
Qed.
End newline_values.

(** ** Compaction *)

Section compaction.
Context `{GoRuntime}.
Local Arguments NewSSTable : simpl never.
Local Arguments SSTable_List : simpl never.
Local Arguments LSMTree_compactSSTables : simpl never.
Local Arguments filepath_Join : simpl never.

(** [compactSSTables] asks [NewSSTable] to write into a directory named
    after the merged file; when the data directory has no subdirectory
    it returns an error, and has written nothing. *)
Lemma LSMTree_compactSSTables_fails (l : LSMTree) (s0 s1 : SSTable) (w : World) :
  (∀ name, filepath_Join (dataDir l) name ∉ fs_dirs w) →
  ∃ err w', LSMTree_compactSSTables l s0 s1 w = (inl err, w') ∧
    fs_dirs w' = fs_dirs w ∧ fs_files w' = fs_files w ∧
    stdout w' = stdout w ∧ goroutines w' = goroutines w.
Proof.
  intros Hdirs. unfold LSMTree_compactSSTables. cbn [foldl].
  destruct (SSTable_List s0 w) as [e0|m0]; [by eexists _, _|].
  cbn [range]. destruct (SSTable_List s1 _) as [e1|m1]; [by eexists _, _|].
  cbn [range time_Now].
  match goal with
  | |- context [NewSSTable ?dir ?m ?w0] =>
      destruct (NewSSTable_missing_dir dir m w0) as (err & ->); [apply Hdirs|]
  end.
  by eexists _, _.
Qed.
End compaction.

Lemma engine_ok_data (w : World) (l : LSMTree) :
  mutex l = RWMutex_free → wal l = NewWAL (dataDir l) →
  dataDir l = "/data" → fs_dirs w = {["/data"]} → engine_ok w l.
Proof.
  intros Hmu Hwal Hdir Hdirs. split_and!; [done..| |]; rewrite Hdir, Hdirs.
  - by apply elem_of_singleton.
  - intros name Hin%elem_of_singleton.
    by apply (longer_not_equal "/data" (String slash name)).
Qed.

(** The engine after two small flushes, with two segments. *)
Definition compaction_state : World * LSMTree :=
  match (_ ← LSMTree_Set (H := go_amd64) "a" "1"; _ ← flush (H := go_amd64);
         _ ← LSMTree_Set (H := go_amd64) "b" "2"; flush (H := go_amd64))
        empty_disk new_engine with
  | Returns _ w l => (w, l)
  | Blocks => (empty_disk, new_engine)
  end.

(** ** The claims about runs that reach the flush threshold *)

Section claims.
Context `{GoRuntime}.
Local Arguments LSMTree_compactSSTables : simpl never.

(** C2. Tombstone masking fails.  A value v is written for k, and
    [memTableSizeThreshold - 1] writes to other keys bring the buffer to
    the threshold, so that [Set] flushes it into a segment: all these
    writes succeed.  [Delete(k)] then never returns.  When the tombstone
    is written by [Set(k, empty)] instead, [Get(k)] returns the empty
    value, but [List] returns a listing that contains k with the deleted
    value v. *)
Theorem tombstone_not_masked :
  ∃ errs listed,
    result ((e1 ← LSMTree_Set "k" "v"; es ← Set_each threshold_fill "x";
             d ← LSMTree_Delete "k"; mret (e1, es, d))
            empty_disk new_engine)
    = None ∧
    result ((e1 ← LSMTree_Set "k" "v"; es ← Set_each threshold_fill "x";
             e2 ← LSMTree_Set "k" ""; g ← LSMTree_Get "k"; mret (e1, es, e2, g))
            empty_disk new_engine)
    = Some (None, errs, None, (EmptyString, None)) ∧
    result ((e1 ← LSMTree_Set "k" "v"; es ← Set_each threshold_fill "x";
             e2 ← LSMTree_Set "k" ""; r ← LSMTree_List; mret (e1, es, e2, r))
            empty_disk new_engine)
    = Some (None, errs, None, inr listed) ∧
    Forall (λ e, e = None) errs ∧ listed !! "k" = Some "v".
Proof. exact (deleted_key_listed threshold_fill threshold_fill_ok). Qed.

(** C8. A value with a newline is silently corrupted, on every runtime.
    [Set] of the value a<LF>b,c under the key k reports success, and so
    do the [memTableSizeThreshold - 1] writes to other keys that make
    [Set] flush the buffer; the segment read [SSTable.Get(k)] then
    returns only a, the bytes before the newline.  [WAL.Recover] after
    that first [Set] yields a for k and the spurious pair (b, c): the
    text after the newline is read as a line of its own.  With the value
    a<LF>b, whose second line has no comma, that line is dropped. *)
Theorem newline_value_corrupted :
  ∃ errs,
    result ((e ← LSMTree_Set "k" ("a" +:+ String LF "b,c");
             es ← Set_each threshold_fill "x";
             gs ← segments_Get "k"; mret (e, es, gs)) empty_disk new_engine)
    = Some (None, errs, [("a", None)]) ∧
    Forall (λ e, e = None) errs ∧
    result ((e ← LSMTree_Set "k" ("a" +:+ String LF "b,c"); r ← wal_Recover; mret (e, r))
            empty_disk new_engine)
    = Some (None, inr {[ "k" := "a"; "b" := "c" ]}) ∧
    result ((e ← LSMTree_Set "k" ("a" +:+ String LF "b"); r ← wal_Recover; mret (e, r))
            empty_disk new_engine)
    = Some (None, inr {[ "k" := "a" ]}).
Proof. exact (newline_value_runs threshold_fill threshold_fill_ok). Qed.

(** C5. Segment precedence fails for a tombstone, on every runtime.  A
    value v and then the tombstone are written for k, each followed by
    [memTableSizeThreshold - 1] writes to other keys, so that [Set]
    flushes twice; all writes succeed.  Afterwards k is not buffered and
    both segments of the registry hold an entry for k: the older one
    reads v, the newer one reads the empty value.  The loop of [Get] over
    the segments, newest first, ends with v, the older segment's value;
    and the final [Get(k)] returns v unless k is still cached. *)
Theorem newer_tombstone_not_observed :
  ∃ errs1 errs2 c g,
    result ((e1 ← LSMTree_Set "k" "v"; es1 ← Set_each threshold_fill "x";
             e2 ← LSMTree_Set "k" ""; es2 ← Set_each threshold_fill "x";
             b ← buffered "k"; hs ← segments_hold "k"; gs ← segments_Get "k";
             found ← cascade "k"; c ← cached "k"; g ← LSMTree_Get "k";
             mret (e1, es1, e2, es2, b, hs, gs, found, c, g)) empty_disk new_engine)
    = Some (None, errs1, None, errs2, None, [true; true],
            [("v", None); (EmptyString, None)], inr (Some "v"), c, g) ∧
    Forall (λ e, e = None) (errs1 ++ errs2) ∧
    g = if c then (EmptyString, None) else ("v", None).
Proof. exact (stale_read_after_flushes threshold_fill threshold_fill_ok). Qed.

(** C4. Compaction never merges.  Whenever the engine is between two
    calls and its registry holds two segments or more, the compaction
    started by a flush returns with the engine as it was: the registry
    holds the same segments, no file has been created, changed or
    removed, and one line that starts with "Error during compaction" has
    been printed. *)
Theorem compaction_never_merges (w : World) (l : LSMTree) :
  engine_ok w l → (2 ≤ length (ssTables l))%nat →
  ∃ w' msg,
    LSMTree_triggerCompaction w l = Returns () w' l ∧
    fs_dirs w' = fs_dirs w ∧ fs_files w' = fs_files w ∧
    stdout w' = stdout w ++ ["Error during compaction: " +:+ msg +:+ String LF ""].
Proof.
  intros (Hmu & _ & _ & Hdirs) Hlen.
  destruct l as [d mt ts wl mu ch]. simpl in *. subst mu.
  destruct ts as [|s0 [|s1 rest]]; simpl in Hlen; [lia..|].
  unfold LSMTree_triggerCompaction, with_Lock. simpl.
  match goal with
  | |- context [LSMTree_compactSSTables ?l0 s0 s1 w] =>
      destruct (LSMTree_compactSSTables_fails l0 s0 s1 w Hdirs)
        as (err & w' & -> & Hd & Hf & Hout & _)
  end.
  exists (Printf ("Error during compaction: " +:+ err +:+ String LF "") w'), err.
  split_and!; [done|done|done|]. simpl. by rewrite Hout.
Qed.
End claims.

(** On the state with two segments, compaction returns and leaves both. *)
Lemma compaction_never_merges_witness :
  ∃ w' msg,
    LSMTree_triggerCompaction (H := go_amd64) compaction_state.1 compaction_state.2
      = Returns () w' compaction_state.2 ∧
    fs_dirs w' = fs_dirs compaction_state.1 ∧
    fs_files w' = fs_files compaction_state.1 ∧
    stdout w' = stdout compaction_state.1 ++
                ["Error during compaction: " +:+ msg +:+ String LF ""].
Proof.
  apply (compaction_never_merges (H := go_amd64)).
  - apply engine_ok_data; vm_compute; reflexivity.
  - vm_compute. lia.
Defined.

Section claims_k_first.
Local Existing Instance go_k_first.

(** C1. Read-your-writes fails once a tombstone reaches a segment file.
    On a runtime whose [range] loops visit k first: a value v and then
    the tombstone are written for k, each followed by
    [memTableSizeThreshold - 1] writes to other keys, so that [Set]
    flushes twice.  Every write succeeds and the last write for k is the
    tombstone; k is neither cached nor buffered when it is looked up, and
    the final [Get(k)] returns the overwritten value v instead of the
    empty value. *)
Theorem read_your_writes_fails :
  ∃ errs1 errs2,
    result ((e1 ← LSMTree_Set "k" "v"; es1 ← Set_each threshold_fill "x";
             e2 ← LSMTree_Set "k" ""; es2 ← Set_each threshold_fill "x";
             c ← cached "k"; b ← buffered "k"; g ← LSMTree_Get "k";
             mret (e1, es1, e2, es2, c, b, g)) empty_disk new_engine)
    = Some (None, errs1, None, errs2, false, None, ("v", None)) ∧
    Forall (λ e, e = None) (errs1 ++ errs2).
Proof. exact (stale_read_k_first threshold_fill threshold_fill_ok). Qed.
End claims_k_first.

(** ** Further properties of the engine *)

Section further.
Context `{GoRuntime}.
Local Arguments Cache_Set : simpl never.
Local Arguments WAL_Log : simpl never.
Local Arguments NewSSTable : simpl never.
Local Arguments MemTable_Size : simpl never.
Local Arguments Scanner_all : simpl never.
Local Arguments SSTable_Get : simpl never.
Local Arguments SSTable_List : simpl never.

(** A [Get] that follows a successful [Set] of the same key hits the cache. *)
Lemma LSMTree_Set_then_Get (key val : string) (w w' : World) (l l' : LSMTree) :
  LSMTree_Set key val w l = Returns None w' l' →
  ∃ l'', LSMTree_Get key w' l' = Returns (val, None) w' l''.
Proof.
  intros Hset.
  assert (mutex l' = RWMutex_free ∧
          ∃ c0 w0, cache l' = (Cache_Set c0 key val w0).1) as (Hmu & c0 & w0 & Hc).
  { revert Hset. unfold LSMTree_Set, with_Lock.
    destruct l as [d mt ts wl mu ch]. simpl.
    destruct (RWMutex_Lock mu) as [mu'|] eqn:Hlock; [|done].
    assert (mu' = mkRWMutex true 0) as ->.
    { unfold RWMutex_Lock in Hlock. destruct (writer mu), (readers mu); by inversion Hlock. }
    destruct (WAL_Log wl key val w) as [[err|] w1]; [done|].
    destruct (Cache_Set ch key val w1) as [c w2] eqn:Hcs. simpl.
    destruct (_ >=? _).
    - unfold LSMTree_flushMemTable. simpl.
      destruct (NewSSTable _ _ _) as [[err|s] w3]; simpl; [done|].
      intros [= <- <-]. split; [done|]. exists ch, w1. simpl. by rewrite Hcs.
    - intros [= <- <-]. split; [done|]. exists ch, w1. simpl. by rewrite Hcs. }
  destruct (Cache_Set_holds c0 key val w0) as (e & He & <-).
  rewrite <-Hc in He. by apply LSMTree_Get_cached.
Qed.

(** X1. Read-your-writes while the key is cached: whenever [Set(key, val)]
    returns without error, a [Get(key)] that follows returns [val]. *)
Theorem LSMTree_Get_after_Set (key val : string) (w w' : World) (l l' : LSMTree) :
  LSMTree_Set key val w l = Returns None w' l' →
  ∃ l'', LSMTree_Get key w' l' = Returns (val, None) w' l''.
Proof. intros Hset. by eapply LSMTree_Set_then_Get. Qed.
(** X4. A segment reads back what it was written with.  For a buffer of
    plain pairs, [NewSSTable] succeeds and [Get] on the new segment
    returns, for every key, the value of the buffer (less a trailing
    carriage return), and the empty value for a key the buffer does not
    hold. *)
Theorem NewSSTable_Get_round_trip (dir : string) (m : MemTable) (w : World) :
  dir ∈ fs_dirs w → filepath_Join dir (sstable_name (clock w)) ∉ fs_dirs w →
  (∀ key val, data m !! key = Some val → plain_entry (key, val)) →
  ∃ s w', NewSSTable dir m w = (inr s, w') ∧
    ∀ key, SSTable_Get s key w' =
           (from_option dropCR EmptyString (data m !! key), None).
Proof.
  intros Hdir Hpath Hplain.
  destruct (NewSSTable dir m w) as [[err|s] w'] eqn:Hnew.
  { by rewrite NewSSTable_created in Hnew. }
  pose proof (NewSSTable_segment_of dir m w w' s Hnew Hdir Hpath) as Hseg.
  exists s, w'. split; [done|]. intros key.
  destruct (data m !! key) as [val|] eqn:Hkey; simpl.
  - destruct (perm_split_entry (mapRange (rand w) (data m)) (data m) key val)
      as (pre & post & Hvisit & Hpost); [apply mapRange_perm|done|].
    rewrite Hvisit in Hseg.
    destruct (Hplain key val Hkey) as (Hk & Hv & Hlen).
    by apply (SSTable_Get_written s pre post key val w').
  - apply (SSTable_Get_absent s _ key w' Hseg).
    intros ([k v] & -> & Hin%mapRange_elem)%list_elem_of_fmap. simpl in Hkey. congruence.
Qed.

(** X5. [List] on a new segment returns the pairs of the buffer whose value
    (less a trailing carriage return) is not empty, and nothing else. *)
Theorem NewSSTable_List_round_trip (dir : string) (m : MemTable) (w : World) :
  dir ∈ fs_dirs w → filepath_Join dir (sstable_name (clock w)) ∉ fs_dirs w →
  (∀ key val, data m !! key = Some val → plain_entry (key, val)) →
  ∃ s w' listed, NewSSTable dir m w = (inr s, w') ∧
    SSTable_List s w' = inr listed ∧
    ∀ key val, listed !! key = Some val ↔
      ∃ v, data m !! key = Some v ∧ dropCR v = val ∧ val ≠ EmptyString.
Proof.
  intros Hdir Hpath Hplain.
  destruct (NewSSTable dir m w) as [[err|s] w'] eqn:Hnew.
  { by rewrite NewSSTable_created in Hnew. }
  pose proof (NewSSTable_segment_of dir m w w' s Hnew Hdir Hpath) as Hseg.
  destruct (SSTable_List_written s _ w' Hseg) as (listed & Hlist & Hlisted).
  { apply Forall_forall. intros [k v] Hin%mapRange_elem. by apply Hplain. }
  { eapply perm_NoDup_fst, mapRange_perm. }
  exists s, w', listed. split_and!; [done..|].
  intros key val. rewrite Hlisted. by setoid_rewrite mapRange_elem.
Qed.






End further.

Section crash.
Context `{GoRuntime}.
Local Arguments Cache_Set : simpl never.
Local Arguments WAL_Log : simpl never.
Local Arguments NewSSTable : simpl never.
Local Arguments MemTable_Size : simpl never.
Local Arguments Scanner_all : simpl never.
Local Arguments LSMTree_Set : simpl never.
Local Arguments LSMTree_Recover : simpl never.
Local Arguments LSMTree_Get : simpl never.
Local Arguments Sprintf_entry : simpl never.
Local Arguments filepath_Join : simpl never.

Lemma mapRange_singleton {V : Type} (r : nat) (k : string) (v : V) :
  mapRange r ({[k := v]} : gmap string V) = [(k, v)].
Proof.
  apply Permutation_singleton_r. rewrite mapRange_perm. by rewrite map_to_list_singleton.
Qed.

(** [Recover] with one line in the WAL: the pair is buffered and the WAL
    is truncated. *)
Lemma LSMTree_Recover_one (key val : string) (w : World) (l : LSMTree) :
  mutex l = RWMutex_free → plain_entry (key, val) →
  fs_files w !! wal_filePath (wal l) = Some (Sprintf_entry key val) →
  ∃ w', LSMTree_Recover w l =
          Returns None w' (set_memTable (MemTable_Set (memTable l) key (dropCR val)) l) ∧
        fs_files w' !! wal_filePath (wal l) = Some EmptyString.
Proof.
  intros Hmu Hplain Hfile. destruct l as [d mt ts wl mu ch]. simpl in *. subst mu.
  assert (Hrec : WAL_Recover wl w = inr {[key := dropCR val]}).
  { unfold WAL_Recover, os_Open. rewrite Hfile.
    replace (Sprintf_entry key val) with (entries_bytes [(key, val)])
      by (simpl; apply append_nil_r).
    rewrite Scanner_all_entries by (by constructor). simpl.
    rewrite recover_line_scanned by apply Hplain. by rewrite insert_empty. }
  unfold LSMTree_Recover, with_Lock. simpl. rewrite Hrec. cbn [range].
  rewrite mapRange_singleton, map_size_singleton. simpl.
  unfold WAL_Clear, os_Truncate_0. simpl. rewrite Hfile. simpl.
  eexists. split; [done|]. simpl. by rewrite lookup_insert_eq.
Qed.

(** A lookup that misses the cache and hits the buffer. *)
Lemma LSMTree_Get_buffered (key val : string) (w : World) (l : LSMTree) :
  mutex l = RWMutex_free → entries (cache l) !! key = None →
  data (memTable l) !! key = Some val →
  ∃ w' l', LSMTree_Get key w l = Returns (val, None) w' l'.
Proof.
  intros Hmu Hc Hm. destruct l as [d mt ts wl mu ch]. simpl in *. subst mu.
  unfold LSMTree_Get, with_RLock, Cache_Get, MemTable_Get. simpl.
  rewrite Hc. simpl. rewrite Hm.
  destruct (Cache_Set ch key val w) as [c' w']. by eexists _, _.
Qed.

(** X7. Crash before flush.  A plain pair is written on a new engine, the
    process restarts and calls [Recover]: it returns without error, the
    WAL is then empty, and [Get] returns the value written (less a
    trailing carriage return). *)
Theorem recover_after_crash (key val : string) :
  plain_entry (key, val) →
  result ((e ← LSMTree_Set key val; _ ← restart; r ← LSMTree_Recover;
           b ← wal_bytes; g ← LSMTree_Get key; mret (e, r, b, g))
          empty_disk new_engine)
  = Some (None, None, Some EmptyString, (dropCR val, None)).
Proof.
  intros Hplain.
  destruct (LSMTree_Set_logged key val empty_disk new_engine engine_ok_new)
    as (w1 & l1 & Hset & Hdir & _ & _ & Hwal).
  { simpl. rewrite insert_empty, map_size_singleton. by unfold memTableSizeThreshold. }
  rewrite (bind_Returns _ _ _ _ _ _ _ Hset). cbv beta.
  unfold mbind at 1. unfold method_bind at 1. unfold restart at 1. cbv beta iota.
  rewrite Hdir. change (dataDir new_engine) with "/data".
  destruct (LSMTree_Recover_one key val
              (mkWorld (fs_dirs w1) (fs_files w1) (clock w1) (rand w1) [] 0)
              (NewLSMTree "/data")) as (w2 & Hrec & Hwal2); [done|done|exact Hwal|].
  rewrite (bind_Returns _ _ _ _ _ _ _ Hrec). cbv beta.
  unfold mbind at 1. unfold method_bind at 1. unfold wal_bytes at 1. cbv beta iota.
  change (wal (set_memTable _ (NewLSMTree "/data"))) with (wal (NewLSMTree "/data")).
  rewrite Hwal2.
  destruct (LSMTree_Get_buffered key (dropCR val) w2
              (set_memTable (MemTable_Set (memTable (NewLSMTree "/data")) key (dropCR val))
                            (NewLSMTree "/data"))) as (w3 & l3 & Hget); [done|done| |].
  { simpl. by rewrite lookup_insert_eq. }
  by rewrite (bind_Returns _ _ _ _ _ _ _ Hget).
Qed.
End crash.

(** *** Instances on a concrete machine *)

Definition one_entry : MemTable := MemTable_Set NewMemTable "foo" "bar".

Lemma one_entry_plain (key val : string) :
  data one_entry !! key = Some val → plain_entry (key, val).
Proof.
  unfold one_entry, MemTable_Set, NewMemTable. simpl. rewrite insert_empty.
  intros [<- <-]%lookup_singleton_Some. by vm_compute.
Qed.

Lemma data_dir_exists : "/data" ∈ fs_dirs empty_disk.
Proof. simpl. by apply elem_of_singleton. Qed.

Lemma data_dir_flat (name : string) : filepath_Join "/data" name ∉ fs_dirs empty_disk.
Proof.
  simpl. intros Hin%elem_of_singleton.
  by apply (longer_not_equal "/data" (String slash name)).
Qed.

Lemma NewSSTable_Get_round_trip_witness :
  ∃ s w', NewSSTable (H := go_amd64) "/data" one_entry empty_disk = (inr s, w') ∧
    ∀ key, SSTable_Get s key w' =
           (from_option dropCR EmptyString (data one_entry !! key), None).
Proof.
  apply (NewSSTable_Get_round_trip (H := go_amd64) "/data" one_entry empty_disk).
  - apply data_dir_exists.
  - apply data_dir_flat.
  - apply one_entry_plain.
Defined.

Lemma NewSSTable_List_round_trip_witness :
  ∃ s w' listed, NewSSTable (H := go_amd64) "/data" one_entry empty_disk = (inr s, w') ∧
    SSTable_List s w' = inr listed ∧
    ∀ key val, listed !! key = Some val ↔
      ∃ v, data one_entry !! key = Some v ∧ dropCR v = val ∧ val ≠ EmptyString.
Proof.
  apply (NewSSTable_List_round_trip (H := go_amd64) "/data" one_entry empty_disk).
  - apply data_dir_exists.
  - apply data_dir_flat.
  - apply one_entry_plain.
Defined.

Lemma LSMTree_Get_after_Set_witness :
  ∃ w' l',
    LSMTree_Set (H := go_amd64) "foo" "bar" empty_disk new_engine = Returns None w' l' ∧
    ∃ l'', LSMTree_Get (H := go_amd64) "foo" w' l' = Returns ("bar", None) w' l''.
Proof.
  eexists _, _. split; [vm_compute; reflexivity|].
  eapply (LSMTree_Get_after_Set (H := go_amd64) "foo" "bar" empty_disk _ new_engine _).
  vm_compute. reflexivity.
Defined.

Lemma Cache_within_capacity_witness :
  Z.of_nat (base.size (entries
    (Cache_run (H := go_amd64)
       [OpSet "a" "1"; OpSet "b" "2"; OpGet "a"; OpSet "c" "3"]
       (NewCache 2, empty_disk)).1)) ≤ 2.
Proof. apply (Cache_within_capacity (H := go_amd64)); by vm_compute. Defined.

(** A cache of capacity 2 that is full: a has been read once more than b. *)
Definition full_cache : Cache :=
  (Cache_run (H := go_amd64) [OpSet "a" "1"; OpGet "a"; OpSet "b" "2"]
     (NewCache 2, empty_disk)).1.

Lemma Cache_Set_evicts_least_accessed_witness :
  ∃ victim cnt,
    accessCount full_cache !! victim = Some cnt ∧
    (∀ k cnt', accessCount full_cache !! k = Some cnt' → cnt ≤ cnt') ∧
    entries (Cache_Set (H := go_amd64) full_cache "c" "3" empty_disk).1 =
      <["c" := mkCacheEntry "3" (clock empty_disk)]> (delete victim (entries full_cache)) ∧
    accessCount (Cache_Set (H := go_amd64) full_cache "c" "3" empty_disk).1 =
      <["c" := 1]> (delete victim (accessCount full_cache)).
Proof.
  refine (Cache_Set_evicts_least_accessed (H := go_amd64) 2
            [OpSet "a" "1"; OpGet "a"; OpSet "b" "2"] empty_disk empty_disk "c" "3" _ _ _);
    by vm_compute.
Defined.

(** The machine and the engine after a first write and a restart. *)
Definition crashed_state : World * LSMTree :=
  match (_ ← LSMTree_Set (H := go_amd64) "k" "v"; restart) empty_disk new_engine with
  | Returns _ w l => (w, l)
  | Blocks => (empty_disk, new_engine)
  end.


Lemma recover_after_crash_witness :
  result ((e ← LSMTree_Set (H := go_amd64) "k" "v"; _ ← restart;
           r ← LSMTree_Recover (H := go_amd64);
           b ← wal_bytes; g ← LSMTree_Get (H := go_amd64) "k"; mret (e, r, b, g))
          empty_disk new_engine)
  = Some (None, None, Some EmptyString, ("v", None)).
Proof. apply (recover_after_crash (H := go_amd64) "k" "v"). by vm_compute. Defined.



(** ** The write-ahead log *)

(** [w.Log(key, value)] for each pair of a list, in order. *)
Fixpoint WAL_Log_each (wl : WAL) (pairs : list (string * string)) (w : World)
  : list error * World :=
  match pairs with
  | [] => ([], w)
  | kv :: pairs =>
      let '(e, w) := WAL_Log wl kv.1 kv.2 w in
      let '(es, w) := WAL_Log_each wl pairs w in
      (e :: es, w)
  end.

(** The map in which later pairs shadow earlier ones, each value less a
    trailing carriage return. *)
Definition last_writes (pairs : list (string * string)) : gmap string string :=
  foldl (λ m kv, <[kv.1 := dropCR kv.2]> m) ∅ pairs.

(** The bytes of the WAL file, none when it does not exist. *)
Definition wal_content (wl : WAL) (w : World) : string :=
  default EmptyString (fs_files w !! wal_filePath wl).

Section wal.
Local Arguments WAL_Log : simpl never.
Local Arguments Scanner_all : simpl never.
Local Arguments filepath_Join : simpl never.
Local Arguments Sprintf_entry : simpl never.

Lemma WAL_Log_each_ok (dir : string) (pairs : list (string * string)) (w : World) :
  dir ∈ fs_dirs w → filepath_Join dir "wal.log" ∉ fs_dirs w →
  ∃ w', WAL_Log_each (NewWAL dir) pairs w = (replicate (length pairs) None, w') ∧
        fs_dirs w' = fs_dirs w ∧
        wal_content (NewWAL dir) w' = wal_content (NewWAL dir) w +:+ entries_bytes pairs.
Proof.
  revert w. induction pairs as [|[k v] pairs IH]; intros w Hdir Hfile.
  - exists w. split_and!; [done..|]. simpl. by rewrite append_nil_r.
  - cbn [WAL_Log_each fst snd]. rewrite WAL_Log_ok by done.
    set (w1 := set_files _ w).
    destruct (IH w1) as (w' & -> & Hd & Hc); [done..|].
    exists w'. split_and!; [done|done|]. rewrite Hc. unfold wal_content, w1. simpl.
    rewrite lookup_insert_eq. simpl. by rewrite append_assoc.
Qed.

Lemma WAL_Recover_content (wl : WAL) (w : World) :
  WAL_Recover wl w =
  match Scanner_all (wal_content wl w) with
  | (lines, Some err) => inl (Errorf_w "failed to read WAL" err)
  | (lines, None) => inr (foldl recover_line ∅ lines)
  end.
Proof.
  unfold WAL_Recover, wal_content, os_Open. by destruct (fs_files w !! _).
Qed.

Lemma recover_lines_scanned (pairs : list (string * string)) (m : gmap string string) :
  Forall plain_entry pairs →
  foldl recover_line m (scanned_line <$> pairs) =
  foldl (λ m kv, <[kv.1 := dropCR kv.2]> m) m pairs.
Proof.
  intros Hplain. revert m. induction Hplain as [|kv pairs Hkv _ IH]; intros m; [done|].
  simpl. rewrite recover_line_scanned by apply Hkv. apply IH.
Qed.

(** X9. The WAL round trip.  When the WAL holds the lines of plain pairs
    (or does not exist), logging further plain pairs succeeds, and
    [Recover] then returns the map of all these pairs in which, for each
    key, the last pair logged wins. *)
Theorem WAL_Recover_Log_each (dir : string) (logged pairs : list (string * string))
    (w : World) :
  dir ∈ fs_dirs w → filepath_Join dir "wal.log" ∉ fs_dirs w →
  wal_content (NewWAL dir) w = entries_bytes logged →
  Forall plain_entry (logged ++ pairs) →
  ∃ w', WAL_Log_each (NewWAL dir) pairs w = (replicate (length pairs) None, w') ∧
        WAL_Recover (NewWAL dir) w' = inr (last_writes (logged ++ pairs)).
Proof.
  intros Hdir Hfile Hlogged Hplain.
  destruct (WAL_Log_each_ok dir pairs w Hdir Hfile) as (w' & Hrun & _ & Hc).
  exists w'. split; [done|].
  rewrite WAL_Recover_content, Hc, Hlogged, <-entries_bytes_app.
  rewrite Scanner_all_entries by done. by rewrite recover_lines_scanned.
Qed.
End wal.

Lemma WAL_Recover_Log_each_witness :
  ∃ w', WAL_Log_each (NewWAL "/data")
          [("a", "1"); ("b", "2"); ("a", "3")] empty_disk
        = (replicate 3 None, w') ∧
        WAL_Recover (NewWAL "/data") w' = inr (last_writes ([] ++ [("a", "1"); ("b", "2"); ("a", "3")])).
Proof.
  apply (WAL_Recover_Log_each "/data" [] [("a", "1"); ("b", "2"); ("a", "3")]
           empty_disk).
  - apply data_dir_exists.
  - apply data_dir_flat.
  - reflexivity.
  - repeat constructor; by vm_compute.
Defined.

(** ** Recovery *)

Section recover.
Context `{GoRuntime}.
Local Arguments WAL_Log : simpl never.
Local Arguments Scanner_all : simpl never.
Local Arguments filepath_Join : simpl never.
Local Arguments Sprintf_entry : simpl never.
Local Arguments LSMTree_Set : simpl never.
Local Arguments LSMTree_Recover : simpl never.
Local Arguments WAL_Recover : simpl never.

Lemma replay_union (visit : list (string * string)) (mt : MemTable) :
  NoDup visit.*1 →
  data (foldl (λ m (kv : string * string), MemTable_Set m kv.1 kv.2) mt visit)
  = list_to_map visit ∪ data mt.
Proof.
  revert mt. induction visit as [|[k v] visit IH]; intros mt Hnd.
  - simpl. by rewrite (left_id_L ∅ (∪)).
  - rewrite fmap_cons in Hnd. apply NoDup_cons in Hnd as [Hk Hnd].
    cbn [foldl]. rewrite IH by done. simpl.
    rewrite <-insert_union_l, <-insert_union_r; [done|].
    by apply not_elem_of_list_to_map_1.
Qed.

(** X10. What [Recover] loads.  When the WAL can be read, [Recover] returns
    without error; the write buffer then holds every pair read from the
    WAL, and the pairs it held before under other keys; no other file is
    touched, and the WAL is empty if a pair was read. *)
Theorem LSMTree_Recover_loads (w : World) (l : LSMTree) (recovered : gmap string string) :
  mutex l = RWMutex_free → WAL_Recover (wal l) w = inr recovered →
  ∃ w', LSMTree_Recover w l =
          Returns None w' (set_memTable (mkMemTable (recovered ∪ data (memTable l))) l) ∧
        fs_dirs w' = fs_dirs w ∧
        (∀ p, p ≠ wal_filePath (wal l) → fs_files w' !! p = fs_files w !! p) ∧
        (recovered ≠ ∅ → fs_files w' !! wal_filePath (wal l) = Some EmptyString).
Proof.
  intros Hmu Hrec. destruct l as [d mt ts wl mu ch]. simpl in *. subst mu.
  unfold LSMTree_Recover, with_Lock. simpl. rewrite Hrec. cbn [range].
  assert (Hmt : foldl (λ m (kv : string * string), MemTable_Set m kv.1 kv.2) mt
                  (mapRange (rand w) recovered) = mkMemTable (recovered ∪ data mt)).
  { pose proof (replay_union (mapRange (rand w) recovered) mt) as Hu.
    destruct (foldl _ mt _) as [dm]. simpl in Hu. rewrite Hu by apply mapRange_NoDup.
    f_equal. f_equal. rewrite <-(list_to_map_to_list recovered) at 2.
    apply list_to_map_proper; [apply mapRange_NoDup|apply mapRange_perm]. }
  rewrite Hmt.
  destruct (Z.ltb_spec 0 (Z.of_nat (base.size recovered))) as [Hpos|Hzero].
  - unfold WAL_Clear, os_Truncate_0. simpl.
    destruct (fs_files w !! wal_filePath wl) as [bytes|] eqn:Hfile.
    + simpl. eexists. split_and!; [done|done| |].
      * intros p Hp. simpl. by rewrite lookup_insert_ne.
      * intros _. simpl. by rewrite lookup_insert_eq.
    + exfalso. revert Hrec. unfold WAL_Recover, os_Open. rewrite Hfile.
      intros [= <-]. rewrite map_size_empty in Hpos. lia.
  - eexists. split_and!; [done|done|done|].
    intros Hne. destruct Hne. apply map_size_empty_inv. lia.
Qed.

(** When the WAL cannot be read, [Recover] returns the error and changes
    nothing. *)
Lemma LSMTree_Recover_error (w : World) (l : LSMTree) (err : string) :
  mutex l = RWMutex_free → WAL_Recover (wal l) w = inl err →
  LSMTree_Recover w l = Returns (Some ("failed to recover from WAL: " +:+ err)) w l.
Proof.
  intros Hmu Hrec. destruct l as [d mt ts wl mu ch]. simpl in *. subst mu.
  unfold LSMTree_Recover, with_Lock. simpl. by rewrite Hrec.
Qed.

Lemma Scanner_all_long_line (key val rest : string) :
  plain_key key → has_byte LF val = false →
  MaxScanTokenSize ≤ len key + 1 + len val →
  Scanner_all (Sprintf_entry key val +:+ rest) = ([], Some ErrTooLong).
Proof.
  intros [Hcomma Hlf] Hval Hlen. unfold Scanner_all.
  rewrite Sprintf_entry_append.
  replace (key +:+ String comma (val +:+ String LF rest))
    with ((key +:+ String comma val) +:+ String LF rest)
    by (by rewrite append_assoc, append_cons).
  rewrite raw_lines_line by (rewrite has_byte_append; simpl; by rewrite Hlf, Hval).
  cbn [scan_tokens]. unfold fits_buffer. rewrite len_append. unfold len at 2.
  simpl String.length.
  destruct (Z.ltb_spec (len key + Z.of_nat (S (String.length val))) MaxScanTokenSize);
    [unfold len in *; lia|done].
Qed.

(** X11. A long value makes the store unrecoverable.  [Set] of a plain key
    with a value that brings the line to 64 KiB or more succeeds on a new
    engine; after a restart [Recover] fails with "token too long" and
    leaves the WAL as it is, so that it fails again after the next
    restart. *)
Theorem recover_fails_after_long_value (key val : string) :
  plain_key key → has_byte LF val = false →
  MaxScanTokenSize ≤ len key + 1 + len val →
  result ((e ← LSMTree_Set key val;
           _ ← restart; r1 ← LSMTree_Recover;
           _ ← restart; r2 ← LSMTree_Recover;
           mret (e, r1, r2)) empty_disk new_engine)
  = Some (None,
          Some "failed to recover from WAL: failed to read WAL: bufio.Scanner: token too long",
          Some "failed to recover from WAL: failed to read WAL: bufio.Scanner: token too long").
Proof.
  intros Hkey Hval Hlen.
  destruct (LSMTree_Set_logged key val empty_disk new_engine engine_ok_new)
    as (w1 & l1 & Hset & Hdir & _ & _ & Hwal).
  { simpl. rewrite insert_empty, map_size_singleton. by unfold memTableSizeThreshold. }
  rewrite (bind_Returns _ _ _ _ _ _ _ Hset). cbv beta.
  unfold mbind at 1. unfold method_bind at 1. unfold restart at 1. cbv beta iota.
  rewrite Hdir. change (dataDir new_engine) with "/data".
  set (w2 := mkWorld (fs_dirs w1) (fs_files w1) (clock w1) (rand w1) [] 0).
  assert (Hrec : WAL_Recover (wal (NewLSMTree "/data")) w2 =
                 inl "failed to read WAL: bufio.Scanner: token too long").
  { unfold WAL_Recover, os_Open.
    change (fs_files w2 !! wal_filePath (wal (NewLSMTree "/data")))
      with (fs_files w1 !! wal_path new_engine).
    rewrite Hwal. simpl default. rewrite append_nil_l.
    rewrite <-(append_nil_r (Sprintf_entry key val)).
    by rewrite Scanner_all_long_line. }
  rewrite (bind_Returns _ _ _ _ _ _ _
             (LSMTree_Recover_error w2 (NewLSMTree "/data") _ eq_refl Hrec)). cbv beta.
  unfold mbind at 1. unfold method_bind at 1. unfold restart at 1. cbv beta iota.
  change (dataDir (NewLSMTree "/data")) with "/data".
  change (mkWorld (fs_dirs w2) (fs_files w2) (clock w2) (rand w2) [] 0) with w2.
  by rewrite (bind_Returns _ _ _ _ _ _ _
                (LSMTree_Recover_error w2 (NewLSMTree "/data") _ eq_refl Hrec)).
Qed.
End recover.

(** A value of 65,534 bytes: with a key of one byte the line has 64 KiB. *)
Definition long_value : string := N.iter 65534 (String "x") EmptyString.

Lemma recover_fails_after_long_value_witness :
  result ((e ← LSMTree_Set (H := go_amd64) "k" long_value;
           _ ← restart; r1 ← LSMTree_Recover (H := go_amd64);
           _ ← restart; r2 ← LSMTree_Recover (H := go_amd64);
           mret (e, r1, r2)) empty_disk new_engine)
  = Some (None,
          Some "failed to recover from WAL: failed to read WAL: bufio.Scanner: token too long",
          Some "failed to recover from WAL: failed to read WAL: bufio.Scanner: token too long").
Proof.
  apply (recover_fails_after_long_value (H := go_amd64) "k" long_value); by vm_compute.
Defined.

Lemma LSMTree_Recover_loads_witness :
  ∃ w', LSMTree_Recover (H := go_amd64) crashed_state.1 crashed_state.2 =
          Returns None w'
            (set_memTable (mkMemTable ({[ "k" := "v" ]} ∪ data (memTable crashed_state.2)))
                          crashed_state.2) ∧
        fs_dirs w' = fs_dirs crashed_state.1 ∧
        (∀ p, p ≠ wal_filePath (wal crashed_state.2) →
              fs_files w' !! p = fs_files crashed_state.1 !! p) ∧
        (({[ "k" := "v" ]} : gmap string string) ≠ ∅ →
         fs_files w' !! wal_filePath (wal crashed_state.2) = Some EmptyString).
Proof.
  apply (LSMTree_Recover_loads (H := go_amd64) crashed_state.1 crashed_state.2);
    vm_compute; reflexivity.
Defined.

(** ** Listing *)

(** The value a map gives a key, unless it is the empty string. *)
Definition live (m : gmap string string) (key : string) : option string :=
  match m !! key with
  | Some val => if decide (val = EmptyString) then None else Some val
  | None => None
  end.

(** The first live value for a key in a list of maps. *)
Fixpoint first_live (ms : list (gmap string string)) (key : string) : option string :=
  match ms with
  | [] => None
  | m :: ms =>
      match live m key with
      | Some val => Some val
      | None => first_live ms key
      end
  end.

Section list.
Context `{GoRuntime}.
Local Arguments SSTable_List : simpl never.

Lemma SSTable_List_files (s : SSTable) (w w' : World) :
  fs_files w' = fs_files w → SSTable_List s w' = SSTable_List s w.
Proof. intros Hf. unfold SSTable_List, os_Open. by rewrite Hf. Qed.

Lemma list_find_mapRange (r : nat) (m : gmap string string) (key : string) :
  (λ '(_, (_, val)), val) <$> list_find (λ kv : string * string, kv.1 = key) (mapRange r m)
  = m !! key.
Proof.
  destruct (m !! key) as [val|] eqn:Hm.
  - destruct (list_find_key (mapRange r m) key val) as (i & ->);
      [apply mapRange_NoDup|by apply mapRange_elem|done].
  - rewrite list_find_no_key; [done|].
    intros ([k v] & -> & Hin%mapRange_elem)%list_elem_of_fmap. simpl in Hm. congruence.
Qed.

Lemma list_memTable_live (r : nat) (m : gmap string string) (key : string) :
  foldl list_memTable_entry ∅ (mapRange r m) !! key = live m key.
Proof.
  rewrite list_memTable_lookup by apply mapRange_NoDup. unfold live.
  rewrite <-(list_find_mapRange r m key), lookup_empty.
  by destruct (list_find _ _) as [[i [k v]]|].
Qed.

Lemma list_segment_live (r : nat) (m result : gmap string string) (key : string) :
  foldl list_segment_entry result (mapRange r m) !! key =
  match result !! key with
  | Some val => Some val
  | None => live m key
  end.
Proof.
  rewrite list_segment_lookup by apply mapRange_NoDup. unfold live.
  rewrite <-(list_find_mapRange r m key).
  by destruct (list_find _ _) as [[i [k v]]|].
Qed.

Lemma list_ssTables_spec (w : World) (ts : list SSTable) (ms : list (gmap string string)) :
  Forall2 (λ s m, SSTable_List s w = inr m) ts ms →
  ∀ (result : gmap string string) (w1 : World), fs_files w1 = fs_files w →
  ∃ listed w2, list_ssTables ts result w1 = (inr listed, w2) ∧
    ∀ key, listed !! key =
           match result !! key with
           | Some val => Some val
           | None => first_live ms key
           end.
Proof.
  induction 1 as [|s m ts ms Hs _ IH]; intros result w1 Hf.
  - exists result, w1. split; [done|]. intros key. simpl. by destruct (result !! key).
  - cbn [list_ssTables]. rewrite (SSTable_List_files s w w1 Hf), Hs. cbn [range].
    destruct (IH (foldl list_segment_entry result (mapRange (rand w1) m))
                 (set_rand (S (rand w1)) w1) Hf) as (listed & w2 & -> & Hl).
    exists listed, w2. split; [done|]. intros key.
    rewrite Hl, list_segment_live. simpl. by destruct (result !! key), (live m key).
Qed.

(** X12. What [List] returns.  When no writer holds the lock and each
    segment can be listed, [List] returns, for every key, the buffered
    value unless that is empty or missing, and otherwise the value of the
    newest segment whose own listing has the key with a value that is not
    empty. *)
Theorem LSMTree_List_first_live (w : World) (l : LSMTree)
    (listings : list (gmap string string)) :
  writer (mutex l) = false →
  Forall2 (λ s m, SSTable_List s w = inr m) (reverse (ssTables l)) listings →
  ∃ listed w', LSMTree_List w l = Returns (inr listed) w' l ∧
    ∀ key, listed !! key = first_live (data (memTable l) :: listings) key.
Proof.
  intros Hw Hls. unfold LSMTree_List, with_RLock.
  destruct (RWMutex_RLock (mutex l)) as [mu|] eqn:Hlock;
    [|unfold RWMutex_RLock in Hlock; by rewrite Hw in Hlock].
  cbn [range MemTable_Entries].
  destruct (list_ssTables_spec w _ _ Hls
              (foldl list_memTable_entry ∅
                 (mapRange (rand w) (data (memTable (set_mutex mu l)))))
              (set_rand (S (rand w)) w) eq_refl) as (listed & w2 & Heq & Hl).
  change (ssTables (set_mutex mu l)) with (ssTables l).
  unfold MemTable_Entries. rewrite Heq, set_mutex_mutex, with_RLock_restores by done.
  exists listed, w2. split; [done|]. intros key.
  rewrite Hl, list_memTable_live. simpl.
  change (data (memTable (set_mutex mu l))) with (data (memTable l)).
  by destruct (live (data (memTable l)) key).
Qed.
End list.

Lemma LSMTree_List_first_live_witness :
  ∃ listed w',
    LSMTree_List (H := go_amd64) listing_state.1 listing_state.2
      = Returns (inr listed) w' listing_state.2 ∧
    ∀ key, listed !! key =
           first_live (data (memTable listing_state.2) :: [{[ "k" := "v" ]}]) key.
Proof.
  apply (LSMTree_List_first_live (H := go_amd64) listing_state.1 listing_state.2).
  - vm_compute. reflexivity.
  - repeat constructor.
Defined.

(** ** Segments are written once *)

(** Every segment of the registry is a file of the data directory named
    after a reading of the clock in the past. *)
Definition registry_named (w : World) (l : LSMTree) : Prop :=
  Forall (λ s, ∃ t, filePath s = filepath_Join (dataDir l) (sstable_name t) ∧ t < clock w)
         (ssTables l).

Section write_once.
Context `{GoRuntime}.
Local Arguments LSMTree_Set : simpl never.

(** [Set(key, val)] for each pair of a list, in order. *)
Fixpoint Set_pairs (pairs : list (string * string)) : method (list error) :=
  match pairs with
  | [] => mret []
  | kv :: pairs => e ← LSMTree_Set kv.1 kv.2; es ← Set_pairs pairs; mret (e :: es)
  end.

Lemma LSMTree_Set_keeps_segments (key val : string) (w : World) (l : LSMTree) :
  engine_ok w l → registry_named w l →
  ∃ w' l', LSMTree_Set key val w l = Returns None w' l' ∧
    engine_ok w' l' ∧ registry_named w' l' ∧
    ssTables l `prefix_of` ssTables l' ∧
    ∀ s, s ∈ ssTables l → fs_files w' !! filePath s = fs_files w !! filePath s.
Proof.
  intros Hok Hreg. unfold registry_named in *. rewrite Forall_forall in Hreg.
  destruct (Z.lt_ge_cases
              (Z.of_nat (base.size (<[key := val]> (data (memTable l)))))
              memTableSizeThreshold) as [Hlt|Hge].
  - destruct (LSMTree_Set_buffered key val w l Hok Hlt)
      as (w' & l' & w1 & Hset & Hok' & Hdir & _ & Hts & _ & (_ & _ & Hclock & Hfiles)).
    exists w', l'. split_and!; [done|done| |by rewrite Hts|].
    + rewrite Hts, Hdir. apply Forall_forall. intros s Hs.
      destruct (Hreg s Hs) as (t & Hpath & Ht). exists t. split; [done|lia].
    + intros s Hs. destruct (Hreg s Hs) as (t & Hpath & Ht). apply Hfiles.
      rewrite list_elem_of_singleton, Hpath. intros Heq.
      by apply (wal_not_sstable (dataDir l) t).
  - destruct (LSMTree_Set_flushed key val w l Hok) as
      (w' & l' & w1 & s' & t' & visit & Hset & Hok' & Hdir & _ & Hts & _ & Hpath' & Ht'
       & _ & _ & (_ & _ & Hclock & Hfiles)); [lia|].
    exists w', l'. split_and!; [done|done| |rewrite Hts; by apply prefix_app_r|].
    + rewrite Hts, Hdir. apply Forall_app. split.
      * apply Forall_forall. intros s Hs.
        destruct (Hreg s Hs) as (t & Hpath & Ht). exists t. split; [done|lia].
      * apply Forall_singleton. exists t'. split; [done|lia].
    + intros s Hs. destruct (Hreg s Hs) as (t & Hpath & Ht). apply Hfiles.
      rewrite !elem_of_cons, elem_of_nil, Hpath, Hpath'. intros [Heq|[Heq|[]]].
      * by apply (wal_not_sstable (dataDir l) t).
      * apply filepath_Join_inj, sstable_name_inj in Heq. lia.
Qed.

(** X13. Segments are written once.  On an engine between two calls whose
    data directory has no subdirectory, every [Set] of a sequence of
    writes returns without error, whether it flushes or not; the
    segments of the registry stay in it, in their order, and the bytes
    of their files stay as they are. *)
Theorem Set_pairs_keeps_segments (pairs : list (string * string)) (w : World) (l : LSMTree) :
  engine_ok w l → registry_named w l →
  ∃ errs w' l', Set_pairs pairs w l = Returns errs w' l' ∧
    Forall (λ e, e = None) errs ∧
    ssTables l `prefix_of` ssTables l' ∧
    ∀ s, s ∈ ssTables l → fs_files w' !! filePath s = fs_files w !! filePath s.
Proof.
  revert w l. induction pairs as [|[key val] pairs IH]; intros w l Hok Hreg.
  - exists [], w, l. by split_and!.
  - destruct (LSMTree_Set_keeps_segments key val w l Hok Hreg)
      as (w1 & l1 & Hset & Hok1 & Hreg1 & Hpre1 & Hf1).
    destruct (IH w1 l1 Hok1 Hreg1) as (errs & w2 & l2 & Hrun & Herrs & Hpre2 & Hf2).
    exists (None :: errs), w2, l2. split_and!.
    + cbn [Set_pairs fst snd]. rewrite (bind_Returns _ _ _ _ _ _ _ Hset). cbv beta.
      by rewrite (bind_Returns _ _ _ _ _ _ _ Hrun).
    + by constructor.
    + by etrans.
    + intros s Hs. rewrite Hf2, Hf1; [done|done|].
      destruct Hpre1 as [more ->]. apply elem_of_app. by left.
Qed.
End write_once.

Lemma compaction_state_ok : engine_ok compaction_state.1 compaction_state.2.
Proof. apply engine_ok_data; vm_compute; reflexivity. Qed.

Lemma compaction_state_named : registry_named compaction_state.1 compaction_state.2.
Proof.
  unfold registry_named.
  assert (∃ s0 s1, ssTables compaction_state.2 = [s0; s1] ∧
            filePath s0 = "/data/sstable_1700000000000000001.dat" ∧
            filePath s1 = "/data/sstable_1700000000000000003.dat")
    as (s0 & s1 & -> & Hp0 & Hp1).
  { eexists _, _. split_and!; vm_compute; reflexivity. }
  constructor; [|constructor; [|constructor]].
  - exists 1700000000000000001. split; [by rewrite Hp0|by vm_compute].
  - exists 1700000000000000003. split; [by rewrite Hp1|by vm_compute].
Qed.

Lemma Set_pairs_keeps_segments_witness :
  ∃ errs w' l',
    Set_pairs (H := go_amd64) [("c", "3"); ("a", "")] compaction_state.1 compaction_state.2
      = Returns errs w' l' ∧
    Forall (λ e, e = None) errs ∧
    ssTables compaction_state.2 `prefix_of` ssTables l' ∧
    ∀ s, s ∈ ssTables compaction_state.2 →
         fs_files w' !! filePath s = fs_files compaction_state.1 !! filePath s.
Proof.
  apply (Set_pairs_keeps_segments (H := go_amd64)).
  - apply compaction_state_ok.
  - apply compaction_state_named.
Defined.

(** ** Filter bits, clearing the WAL, missing files *)

Section filter_bits.

Lemma BloomFilter_Add_count (bf : BloomFilter) (key : string) (ss : list Z) :
  (base.size (bitArray (foldl (λ b i, mkBloomFilter ({[ BloomFilter_hash b key i ]} ∪ bitArray b)
                                      (size b) (hashFuncs b)) bf ss))
   ≤ base.size (bitArray bf) + length ss)%nat.
Proof.
  revert bf. induction ss as [|i ss IH]; intros bf; simpl; [lia|].
  etrans; [apply IH|]. simpl.
  pose proof (size_union_alt {[BloomFilter_hash bf key i]} (bitArray bf)) as Hu.
  assert (Hs : (base.size (bitArray bf ∖ {[BloomFilter_hash bf key i]})
                ≤ base.size (bitArray bf))%nat).
  { apply subseteq_size. intros x [Hx _]%elem_of_difference. exact Hx. }
  rewrite size_singleton in Hu. lia.
Qed.

(** X16. The bits of a filter.  In a filter that started as
    [NewBloomFilter], after any keys were added, every bit set lies
    within the 2^21 positions of the bit array, and at most seven bits
    are set for each key added; a filter to which nothing was added
    reports no key. *)
Theorem BloomFilter_bits_bounded (keys : list string) :
  let bf := foldl BloomFilter_Add NewBloomFilter keys in
  (∀ x, x ∈ bitArray bf → 0 ≤ x < 2 ^ 21) ∧
  (base.size (bitArray bf) ≤ 7 * length keys)%nat ∧
  ∀ key, BloomFilter_MightContain NewBloomFilter key = false.
Proof.
  cbv zeta. split_and!.
  - induction keys as [|k ks IH] using rev_ind; intros x.
    + simpl. by intros ?%elem_of_empty.
    + rewrite foldl_app. simpl. rewrite BloomFilter_Add_bits.
      intros [Hx|(i & _ & ->)]; [by apply IH|].
      destruct (BloomFilter_adds_shape ks) as [Hsize _].
      rewrite <-Hsize. apply BloomFilter_hash_in_range. rewrite Hsize. lia.
  - induction keys as [|k ks IH] using rev_ind.
    { change (bitArray (foldl BloomFilter_Add NewBloomFilter [])) with (∅ : gset Z).
      rewrite size_empty. simpl. lia. }
    rewrite foldl_app, length_app. cbn [foldl length].
    destruct (BloomFilter_adds_shape ks) as [_ Hfuncs].
    set (bf0 := foldl BloomFilter_Add NewBloomFilter ks) in *.
    assert (Hadd : (base.size (bitArray (BloomFilter_Add bf0 k))
                    ≤ base.size (bitArray bf0) + length (seeds bf0))%nat).
    { unfold BloomFilter_Add. apply BloomFilter_Add_count. }
    unfold seeds in Hadd. rewrite Hfuncs, length_seqZ in Hadd. lia.
  - intros key. apply not_true_is_false. rewrite BloomFilter_MightContain_spec.
    intros Hall. assert (Hin : 0 ∈ seeds NewBloomFilter).
    { unfold seeds. simpl. apply elem_of_seqZ. lia. }
    apply Hall in Hin. simpl in Hin. by apply elem_of_empty in Hin.
Qed.
End filter_bits.

Section clear.
Local Arguments Scanner_all : simpl never.

End clear.

Section missing_file.
Context `{GoRuntime}.
Local Arguments SSTable_List : simpl never.

Lemma SSTable_List_missing (s : SSTable) (w : World) :
  fs_files w !! filePath s = None →
  SSTable_List s w = inl ("failed to open SSTable file: " +:+ ENOENT "open" (filePath s)).
Proof. intros Hf. unfold SSTable_List, os_Open. by rewrite Hf. Qed.

Lemma list_ssTables_missing (ts : list SSTable) (s : SSTable) (result : gmap string string)
    (w : World) :
  s ∈ ts → fs_files w !! filePath s = None →
  ∃ err w', list_ssTables ts result w = (inl err, w') .
Proof.
  intros Hin Hf. revert result w Hf.
  induction ts as [|s0 ts IH]; intros result w Hf; [by apply elem_of_nil in Hin|].
  cbn [list_ssTables]. destruct (SSTable_List s0 w) as [err|listed] eqn:Hs0; [by eexists _, _|].
  apply elem_of_cons in Hin as [->|Hin].
  { by rewrite SSTable_List_missing in Hs0. }
  cbn [range]. by apply IH.
Qed.

(** X14. A missing segment file.  When the file of a segment of the
    registry is gone, [List] returns an error and no listing, whatever
    the buffer and the other segments hold. *)
Theorem LSMTree_List_missing_file (w : World) (l : LSMTree) (s : SSTable) :
  writer (mutex l) = false → s ∈ ssTables l → fs_files w !! filePath s = None →
  ∃ err w', LSMTree_List w l = Returns (inl err) w' l.
Proof.
  intros Hw Hin Hf. unfold LSMTree_List, with_RLock.
  destruct (RWMutex_RLock (mutex l)) as [mu|] eqn:Hlock;
    [|unfold RWMutex_RLock in Hlock; by rewrite Hw in Hlock].
  cbn [range].
  destruct (list_ssTables_missing (reverse (ssTables l)) s
              (foldl list_memTable_entry ∅
                 (mapRange (rand w) (MemTable_Entries (memTable (set_mutex mu l)))))
              (set_rand (S (rand w)) w)) as (err & w' & Heq);
    [by apply elem_of_reverse|done|].
  change (ssTables (set_mutex mu l)) with (ssTables l). rewrite Heq.
  rewrite set_mutex_mutex, with_RLock_restores by done. by exists err, w'.
Qed.
End missing_file.

(** ** tests/lsmtree/lsmtree_test.go *)

(** [testing.T]: whether the test has failed, and what it has logged. *)
Record T := mkT { failed : bool; logged : list string }.

(** [t.Errorf] logs and marks the test as failed; [t.Fatalf] does the same
    and stops the test, so that the test function returns what it gives. *)
Definition T_Errorf (line : string) (t : T) : T := mkT true (logged t ++ [line]).
Definition T_Fatalf (line : string) (t : T) : T := mkT true (logged t ++ [line]).

Section test.
Context `{GoRuntime}.

(** The test function: [None] when it never returns. *)
Definition TestLSMTreeSetGet (w : World) : option T :=
  let t := mkT false [] in
  let tree := NewLSMTree "/tmp/lsm-test" in
  match LSMTree_Set "foo" "bar" w tree with
  | Blocks => None
  | Returns (Some err) w tree => Some (T_Fatalf ("Failed to set value: " +:+ err) t)
  | Returns None w tree =>
      match LSMTree_Get "testKey" w tree with
      | Blocks => None
      | Returns (_, Some err) w tree => Some (T_Fatalf ("Failed to get value: " +:+ err) t)
      | Returns (value, None) w tree =>
          if decide (value ≠ "testValue")
          then Some (T_Errorf ("Expected 'testValue', got '" +:+ value +:+ "'") t)
          else Some t
      end
  end.

Local Arguments WAL_Log : simpl never.
Local Arguments Cache_Set : simpl never.

(** X17. The test of the repository fails on every machine: when the
    directory /tmp/lsm-test cannot hold the WAL, with the error of
    [Set]; otherwise because it looks up a key it has not written. *)
Theorem TestLSMTreeSetGet_fails (w : World) :
  (∃ err, TestLSMTreeSetGet w =
          Some (mkT true ["Failed to set value: failed to log to WAL: " +:+ err])) ∨
  TestLSMTreeSetGet w = Some (mkT true ["Expected 'testValue', got ''"]).
Proof.
  unfold TestLSMTreeSetGet, LSMTree_Set, with_Lock. simpl.
  destruct (WAL_Log _ "foo" "bar" w) as [[err|] w1]; [left; by exists err|right].
  assert ((MemTable_Size (MemTable_Set NewMemTable "foo" "bar") >=? memTableSizeThreshold)
          = false) as -> by (vm_compute; reflexivity).
  destruct (Cache_Set_unfold (NewCache 1000) "foo" "bar" w1) as (victim & Hc & _ & _).
  destruct (Cache_Set (NewCache 1000) "foo" "bar" w1) as [c w2]. simpl in Hc. subst c.
  unfold LSMTree_Get, with_RLock, Cache_Get, MemTable_Get. simpl.
  rewrite lookup_insert_ne by done.
  assert (from_option (λ v, delete v (∅ : gmap string CacheEntry)) ∅ victim !! "testKey"
          = None) as ->.
  { destruct victim; simpl; [by rewrite delete_empty|done]. }
  simpl. done.
Qed.
End test.

(** ** lsmtree.go without lock, cache and compaction *)

(** The copy of the engine that has neither [mutex] nor [cache]: its
    methods call one another freely and return in every case. *)
Module Plain.

Record LSMTree := mkLSMTree {
  dataDir : string;
  memTable : MemTable;
  ssTables : list SSTable;
  wal : WAL
}.

Definition set_memTable (m : MemTable) (l : LSMTree) : LSMTree :=
  mkLSMTree (dataDir l) m (ssTables l) (wal l).
Definition set_ssTables (ts : list SSTable) (l : LSMTree) : LSMTree :=
  mkLSMTree (dataDir l) (memTable l) ts (wal l).

Definition NewLSMTree (dataDir : string) : LSMTree :=
  mkLSMTree dataDir NewMemTable [] (NewWAL dataDir).

Section plain.
Context `{GoRuntime}.

Definition LSMTree_flushMemTable (w : World) (l : LSMTree) : error * World * LSMTree :=
  match NewSSTable (dataDir l) (memTable l) w with
  | (inl err, w) => (Some (Errorf_w "failed to create SSTable" err), w, l)
  | (inr ssTable, w) =>
      (None, w, set_memTable NewMemTable (set_ssTables (ssTables l ++ [ssTable]) l))
  end.

Definition LSMTree_Set (key val : string) (w : World) (l : LSMTree)
  : error * World * LSMTree :=
  match WAL_Log (wal l) key val w with
  | (Some err, w) => (Some (Errorf_w "failed to log to WAL" err), w, l)
  | (None, w) =>
      let l := set_memTable (MemTable_Set (memTable l) key val) l in
      if MemTable_Size (memTable l) >=? memTableSizeThreshold
      then match LSMTree_flushMemTable w l with
           | (Some err, w, l) => (Some (Errorf_w "failed to flush memtable" err), w, l)
           | (None, w, l) => (None, w, l)
           end
      else (None, w, l)
  end.

Definition LSMTree_Get (key : string) (w : World) (l : LSMTree) : string * error :=
  match MemTable_Get (memTable l) key with
  | (val, true) => (val, None)
  | (_, false) =>
      match search_ssTables (reverse (ssTables l)) key w with
      | inl err => (EmptyString, Some err)
      | inr (Some val) => (val, None)
      | inr None => (EmptyString, None)
      end
  end.

Definition LSMTree_Delete (key : string) (w : World) (l : LSMTree)
  : error * World * LSMTree :=
  match LSMTree_Get key w l with
  | (_, Some err) => (Some (Errorf_w "failed to check key existence" err), w, l)
  | (val, None) =>
      if decide (val = EmptyString) then (Some "key not found", w, l)
      else match LSMTree_Set key EmptyString w l with
           | (Some err, w, l) => (Some (Errorf_w "failed to mark key as deleted" err), w, l)
           | (None, w, l) => (None, w, l)
           end
  end.

Definition LSMTree_Recover (w : World) (l : LSMTree) : error * World * LSMTree :=
  match WAL_Recover (wal l) w with
  | inl err => (Some (Errorf_w "failed to recover from WAL" err), w, l)
  | inr recovered =>
      let '(visit, w) := range recovered w in
      let l := set_memTable
                 (foldl (λ m (kv : string * string), MemTable_Set m kv.1 kv.2)
                        (memTable l) visit) l in
      if 0 <? Z.of_nat (base.size recovered)
      then match WAL_Clear (wal l) w with
           | (Some err, w) => (Some (Errorf_w "failed to clear WAL" err), w, l)
           | (None, w) => (None, w, l)
           end
      else (None, w, l)
  end.

Definition LSMTree_List (w : World) (l : LSMTree)
  : (string + gmap string string) * World :=
  let '(visit, w) := range (MemTable_Entries (memTable l)) w in
  let result := foldl list_memTable_entry ∅ visit in
  list_ssTables (reverse (ssTables l)) result w.

End plain.
End Plain.

Section plain_properties.
Context `{GoRuntime}.
Local Arguments WAL_Log : simpl never.
Local Arguments filepath_Join : simpl never.
Local Arguments MemTable_Size : simpl never.

(** The directory of the engine exists and its WAL is wal.log in it. *)
Definition plain_ok (w : World) (l : Plain.LSMTree) : Prop :=
  Plain.wal l = NewWAL (Plain.dataDir l) ∧ Plain.dataDir l ∈ fs_dirs w ∧
  filepath_Join (Plain.dataDir l) "wal.log" ∉ fs_dirs w.

Lemma Plain_Set_buffered (key val : string) (w : World) (l : Plain.LSMTree) :
  plain_ok w l →
  Z.of_nat (base.size (<[key := val]> (data (Plain.memTable l)))) < memTableSizeThreshold →
  ∃ w', Plain.LSMTree_Set key val w l =
          (None, w', Plain.set_memTable (MemTable_Set (Plain.memTable l) key val) l) ∧
        fs_dirs w' = fs_dirs w ∧
        (∀ p, p ≠ filepath_Join (Plain.dataDir l) "wal.log" →
              fs_files w' !! p = fs_files w !! p).
Proof.
  intros (Hwal & Hdir & Hfile) Hsize. unfold Plain.LSMTree_Set.
  rewrite Hwal, WAL_Log_ok by done. cbn [Plain.memTable Plain.set_memTable].
  destruct (Z.geb_spec (MemTable_Size (MemTable_Set (Plain.memTable l) key val))
                       memTableSizeThreshold) as [Hge|_].
  { unfold MemTable_Size, MemTable_Set in Hge. simpl in Hge. lia. }
  eexists. split_and!; [done|done|]. intros p Hp. simpl. by rewrite lookup_insert_ne.
Qed.

Lemma Plain_Get_buffered (key val : string) (w : World) (l : Plain.LSMTree) :
  data (Plain.memTable l) !! key = Some val → Plain.LSMTree_Get key w l = (val, None).
Proof. intros Hm. unfold Plain.LSMTree_Get, MemTable_Get. by rewrite Hm. Qed.

(** X18. Deletion in the engine without lock.  When [Get(key)] finds a
    value that is not empty and the buffer has room, [Delete(key)]
    returns without error and buffers the tombstone; [Get(key)] then
    returns the empty value, and a second [Delete(key)] returns the error
    "key not found" and changes nothing. *)
Theorem Plain_Delete_masks (key val : string) (w : World) (l : Plain.LSMTree) :
  plain_ok w l →
  Plain.LSMTree_Get key w l = (val, None) → val ≠ EmptyString →
  Z.of_nat (base.size (<[key := EmptyString]> (data (Plain.memTable l))))
    < memTableSizeThreshold →
  ∃ w' l',
    Plain.LSMTree_Delete key w l = (None, w', l') ∧
    data (Plain.memTable l') = <[key := EmptyString]> (data (Plain.memTable l)) ∧
    Plain.ssTables l' = Plain.ssTables l ∧
    Plain.LSMTree_Get key w' l' = (EmptyString, None) ∧
    Plain.LSMTree_Delete key w' l' = (Some "key not found", w', l').
Proof.
  intros Hok Hget Hval Hsize.
  destruct (Plain_Set_buffered key EmptyString w l Hok Hsize) as (w' & Hset & _ & _).
  assert (Hget' : Plain.LSMTree_Get key w'
                    (Plain.set_memTable (MemTable_Set (Plain.memTable l) key EmptyString) l)
                  = (EmptyString, None)).
  { apply Plain_Get_buffered. simpl. by rewrite lookup_insert_eq. }
  eexists w', _. split_and!.
  - unfold Plain.LSMTree_Delete. rewrite Hget, decide_False by done. by rewrite Hset.
  - done.
  - done.
  - done.
  - unfold Plain.LSMTree_Delete. by rewrite Hget'.
Qed.
End plain_properties.

(** An engine without lock that has buffered one pair. *)
Definition plain_state : World * Plain.LSMTree :=
  (empty_disk, Plain.set_memTable (MemTable_Set NewMemTable "foo" "bar")
                 (Plain.NewLSMTree "/data")).

Lemma Plain_Delete_masks_witness :
  ∃ w' l',
    Plain.LSMTree_Delete (H := go_amd64) "foo" plain_state.1 plain_state.2 = (None, w', l') ∧
    data (Plain.memTable l') = <["foo" := EmptyString]> (data (Plain.memTable plain_state.2)) ∧
    Plain.ssTables l' = Plain.ssTables plain_state.2 ∧
    Plain.LSMTree_Get "foo" w' l' = (EmptyString, None) ∧
    Plain.LSMTree_Delete (H := go_amd64) "foo" w' l' = (Some "key not found", w', l').
Proof.
  apply (Plain_Delete_masks (H := go_amd64) "foo" "bar" plain_state.1 plain_state.2).
  - split_and!; [done|apply data_dir_exists|apply data_dir_flat].
  - vm_compute. reflexivity.
  - done.
  - by vm_compute.
Defined.

(** ** The terminal interface (cli package) *)

(** [unicode.IsSpace] on the UTF-8 bytes a string starts with: the width
    in bytes of the white space character at the head of the string, or 0
    when there is none.  White space is U+0009..U+000D, U+0020, U+0085,
    U+00A0, U+1680, U+2000..U+200A, U+2028, U+2029, U+202F, U+205F and
    U+3000; any other byte sequence, well formed or not, is no space. *)
Definition space_width (s : string) : nat :=
  match s with
  | EmptyString => 0
  | String c rest =>
      let b := byte_val c in
      if (9 <=? b) && (b <=? 13) || (b =? 32) then 1%nat
      else
        match rest with
        | String c1 rest1 =>
            let b1 := byte_val c1 in
            if (b =? 194) && ((b1 =? 133) || (b1 =? 160)) then 2%nat
            else
              match rest1 with
              | String c2 _ =>
                  let b2 := byte_val c2 in
                  if (b =? 225) && (b1 =? 154) && (b2 =? 128) then 3%nat
                  else if (b =? 226) && (b1 =? 128) &&
                          ((128 <=? b2) && (b2 <=? 138) || (b2 =? 168) || (b2 =? 169)
                           || (b2 =? 175)) then 3%nat
                  else if (b =? 226) && (b1 =? 129) && (b2 =? 159) then 3%nat
                  else if (b =? 227) && (b1 =? 128) && (b2 =? 128) then 3%nat
                  else 0%nat
              | EmptyString => 0%nat
              end
        | EmptyString => 0%nat
        end
  end.

(** The loop of [strings.Fields]: [skip] counts the bytes still to pass
    of the white space character being read, [field] is the field being
    read. *)
Fixpoint Fields_loop (s : string) (skip : nat) (field : string) : list string :=
  match s with
  | EmptyString => if decide (field = EmptyString) then [] else [field]
  | String c rest =>
      match skip with
      | S n => Fields_loop rest n field
      | O =>
          match space_width s with
          | O => Fields_loop rest 0 (field +:+ String c EmptyString)
          | S n =>
              (if decide (field = EmptyString) then [] else [field])
              ++ Fields_loop rest n EmptyString
          end
      end
  end.

(** [strings.Fields(s)] *)
Definition Fields (s : string) : list string := Fields_loop s 0 EmptyString.

(** [s[:n]] for [n <= len(s)]. *)
Fixpoint take_bytes (n : nat) (s : string) : string :=
  match n, s with
  | S n, String c s => String c (take_bytes n s)
  | _, _ => EmptyString
  end.

(** What [executeCommand] reads and writes of the [model]: the rows of
    the table and the messages. *)
Record model := mkModel {
  input_value : string;                   (* [m.input.Value()] *)
  table_rows : list (string * string);    (* [m.table.Rows()] *)
  statusMessage : string;
  errorMessage : string;
  showTable : bool
}.

Definition set_statusMessage (s : string) (m : model) : model :=
  mkModel (input_value m) (table_rows m) s (errorMessage m) (showTable m).
Definition set_errorMessage (s : string) (m : model) : model :=
  mkModel (input_value m) (table_rows m) (statusMessage m) s (showTable m).
Definition set_showTable (b : bool) (m : model) : model :=
  mkModel (input_value m) (table_rows m) (statusMessage m) (errorMessage m) b.
Definition table_SetRows (rows : list (string * string)) (m : model) : model :=
  mkModel (input_value m) rows (statusMessage m) (errorMessage m) (showTable m).
Definition input_SetValue (s : string) (m : model) : model :=
  mkModel s (table_rows m) (statusMessage m) (errorMessage m) (showTable m).

Definition help_text : string :=
  "Available commands:" +:+ String LF
  "- set <key> <value>: Set a key-value pair" +:+ String LF
  "- get <key>: Retrieve the value for a given key" +:+ String LF
  "- delete <key>: Delete a key-value pair" +:+ String LF
  "- list: Show all key-value pairs" +:+ String LF
  "- help: Display this help message".

(** The body of the loop over the listing: long keys and values are cut
    and marked with an ellipsis. *)
Definition list_row (kv : string * string) : string * string :=
  let k := if 27 <? len kv.1 then take_bytes 27 kv.1 +:+ "..." else kv.1 in
  let v := if 47 <? len kv.2 then take_bytes 47 kv.2 +:+ "..." else kv.2 in
  (k, v).

Section ui.
Context `{GoRuntime}.

Definition executeCommand (input : string) (m : model) : method model := λ w l,
  match Fields input with
  | [] => Returns (set_errorMessage "Error: Empty command" m) w l
  | command :: args =>
      if decide (command = "set") then
        match args with
        | [key; val] =>
            match LSMTree_Set key val w l with
            | Blocks => Blocks
            | Returns (Some err) w l => Returns (set_errorMessage ("Error: " +:+ err) m) w l
            | Returns None w l =>
                Returns (set_statusMessage ("Set " +:+ key +:+ " to " +:+ val) m) w l
            end
        | _ => Returns (set_errorMessage
                          "Error: Invalid set command. Usage: set <key> <value>" m) w l
        end
      else if decide (command = "get") then
        match args with
        | [key] =>
            match LSMTree_Get key w l with
            | Blocks => Blocks
            | Returns (_, Some err) w l =>
                Returns (set_errorMessage ("Error: " +:+ err) m) w l
            | Returns (val, None) w l =>
                if decide (val = EmptyString)
                then Returns (set_statusMessage ("Key " +:+ key +:+ " not found") m) w l
                else Returns (set_statusMessage (key +:+ ": " +:+ val) m) w l
            end
        | _ => Returns (set_errorMessage
                          "Error: Invalid get command. Usage: get <key>" m) w l
        end
      else if decide (command = "delete") then
        match args with
        | [key] =>
            match LSMTree_Delete key w l with
            | Blocks => Blocks
            | Returns (Some err) w l => Returns (set_errorMessage ("Error: " +:+ err) m) w l
            | Returns None w l => Returns (set_statusMessage ("Deleted " +:+ key) m) w l
            end
        | _ => Returns (set_errorMessage
                          "Error: Invalid delete command. Usage: delete <key>" m) w l
        end
      else if decide (command = "list") then
        match LSMTree_List w l with
        | Blocks => Blocks
        | Returns (inl err) w l =>
            Returns (set_errorMessage ("Error listing entries: " +:+ err) m) w l
        | Returns (inr listed) w l =>
            let '(visit, w) := range listed w in
            let rows := list_row <$> visit in
            let m := set_showTable true (table_SetRows rows m) in
            if decide (length rows = 0%nat)
            then Returns (set_statusMessage "No items found" m) w l
            else Returns (set_statusMessage
                            ("Listed " +:+ pretty (length rows) +:+
                             " items. Use arrow keys to navigate.") m) w l
        end
      else if decide (command = "help") then
        Returns (set_statusMessage help_text (set_showTable false m)) w l
      else
        Returns (set_errorMessage
                   "Error: Invalid command. Use set, get, delete, list, or help" m) w l
  end.

(** [Update] on the Enter key: the messages are cleared, the command in
    the input line is executed, and the input line is emptied. *)
Definition Update_KeyEnter (m : model) : method model := λ w l,
  let m0 := set_showTable false (set_errorMessage EmptyString
              (set_statusMessage EmptyString m)) in
  match executeCommand (input_value m) m0 w l with
  | Blocks => Blocks
  | Returns m1 w l => Returns (input_SetValue EmptyString m1) w l
  end.
End ui.

(** *** Properties *)

Definition ascii_space (c : ascii) : bool :=
  let b := byte_val c in (9 <=? b) && (b <=? 13) || (b =? 32).

Lemma space_width_ascii (c : ascii) (rest : string) :
  ascii_space c = true → space_width (String c rest) ≠ 0%nat.
Proof. unfold ascii_space, space_width. by intros ->. Qed.

Fixpoint has_ascii_space (s : string) : bool :=
  match s with
  | EmptyString => false
  | String c rest => ascii_space c || has_ascii_space rest
  end.

Lemma has_ascii_space_append (a b : string) :
  has_ascii_space (a +:+ b) = has_ascii_space a || has_ascii_space b.
Proof.
  induction a as [|x a IH]; [done|]. rewrite append_cons. simpl.
  by rewrite IH, orb_assoc.
Qed.

Lemma Fields_loop_words (s : string) (skip : nat) (field : string) :
  has_ascii_space field = false →
  Forall (λ f, f ≠ EmptyString ∧ has_ascii_space f = false) (Fields_loop s skip field).
Proof.
  revert skip field. induction s as [|c rest IH]; intros skip field Hfield.
  - simpl. destruct (decide (field = EmptyString)); [done|]. by repeat constructor.
  - cbn [Fields_loop]. destruct skip as [|n]; [|by apply IH].
    destruct (space_width (String c rest)) as [|n] eqn:Hw.
    + apply IH. rewrite has_ascii_space_append, Hfield. simpl.
      destruct (ascii_space c) eqn:Hc; [|done].
      by destruct (space_width_ascii c rest Hc).
    + apply Forall_app. split; [|by apply IH].
      destruct (decide (field = EmptyString)); [done|]. by repeat constructor.
Qed.

(** The fields [strings.Fields] returns are not empty and hold no
    space, tab, newline or other ASCII white space. *)
Lemma Fields_words (s : string) :
  Forall (λ f, f ≠ EmptyString ∧ has_ascii_space f = false) (Fields s).
Proof. by apply Fields_loop_words. Qed.


Section ui_properties.
Context `{GoRuntime}.
Local Arguments LSMTree_Set : simpl never.
Local Arguments LSMTree_Get : simpl never.
Local Arguments LSMTree_Delete : simpl never.
Local Arguments LSMTree_List : simpl never.

(** X19. A delete command freezes the interface: whatever the state of
    the engine, Enter on a line that reads delete and one key never
    returns. *)
Theorem Update_KeyEnter_delete_blocks (m : model) (key : string) (w : World) (l : LSMTree) :
  Fields (input_value m) = ["delete"; key] → Update_KeyEnter m w l = Blocks.
Proof.
  intros Hf. unfold Update_KeyEnter, executeCommand. rewrite Hf. simpl.
  unfold LSMTree_Delete, with_Lock.
  destruct (RWMutex_Lock (mutex l)) as [mu|] eqn:Hlock; [|done].
  by rewrite (LSMTree_Get_under_Lock key w l mu Hlock).
Qed.

(** X20. A value set through the interface is shown by the next get: if
    Enter on a line that reads set, a key and a value leaves no error
    message, then Enter on a line that reads get and that key shows the
    key and the value. *)
Theorem Update_KeyEnter_set_get (m m1 : model) (key val : string)
    (w w1 : World) (l l1 : LSMTree) :
  Fields (input_value m) = ["set"; key; val] →
  Update_KeyEnter m w l = Returns m1 w1 l1 → errorMessage m1 = EmptyString →
  ∀ line, Fields line = ["get"; key] →
  ∃ m2 l2, Update_KeyEnter (input_SetValue line m1) w1 l1 = Returns m2 w1 l2 ∧
           statusMessage m2 = key +:+ ": " +:+ val ∧ errorMessage m2 = EmptyString.
Proof.
  intros Hf Hrun Herr line Hline.
  assert (Hval : val ≠ EmptyString).
  { pose proof (Fields_words (input_value m)) as Hw. rewrite Hf in Hw.
    apply Forall_cons in Hw as [_ Hw]. apply Forall_cons in Hw as [_ Hw].
    by apply Forall_cons in Hw as [[? _] _]. }
  revert Hrun. unfold Update_KeyEnter at 1. unfold executeCommand. rewrite Hf. simpl.
  destruct (LSMTree_Set key val w l) as [[err|] w' l'|] eqn:Hset; [| |done].
  { intros [= <- <- <-]. simpl in Herr. by destruct err. }
  intros [= <- <- <-].
  destruct (LSMTree_Set_then_Get key val w w' l l' Hset) as (l2 & Hget).
  unfold Update_KeyEnter, executeCommand. simpl. rewrite Hline. simpl.
  rewrite Hget, decide_False by done. by eexists _, _.
Qed.

Lemma list_row_short (kv : string * string) :
  len (list_row kv).1 ≤ 30 ∧ len (list_row kv).2 ≤ 50.
Proof.
  assert (Htake : ∀ n s, len (take_bytes n s) ≤ Z.of_nat n).
  { unfold len. induction n as [|n IH]; intros [|c s];
      cbn [take_bytes String.length]; try lia.
    specialize (IH s). lia. }
  unfold list_row. cbn [fst snd]. split.
  - destruct (Z.ltb_spec 27 (len kv.1)); [|lia].
    rewrite len_append. change (len "...") with 3. specialize (Htake 27%nat kv.1). lia.
  - destruct (Z.ltb_spec 47 (len kv.2)); [|lia].
    rewrite len_append. change (len "...") with 3. specialize (Htake 47%nat kv.2). lia.
Qed.

(** X21. The table of a listing.  When [List] returns a listing, the list
    command fills the table with one row for each of its pairs; a pair
    with a key of at most 27 bytes and a value of at most 47 bytes is a
    row as it is, and no row has a key longer than 30 bytes or a value
    longer than 50. *)
Theorem executeCommand_list_rows (input : string) (args : list string) (m : model)
    (w w1 : World) (l l1 : LSMTree) (listed : gmap string string) :
  Fields input = "list" :: args →
  LSMTree_List w l = Returns (inr listed) w1 l1 →
  ∃ m' w2, executeCommand input m w l = Returns m' w2 l1 ∧
    showTable m' = true ∧
    length (table_rows m') = base.size listed ∧
    Forall (λ row, len row.1 ≤ 30 ∧ len row.2 ≤ 50) (table_rows m') ∧
    ∀ key val, listed !! key = Some val → len key ≤ 27 → len val ≤ 47 →
               (key, val) ∈ table_rows m'.
Proof.
  intros Hf Hlist. unfold executeCommand. rewrite Hf. simpl. rewrite Hlist. cbn [range].
  set (rows := list_row <$> mapRange (rand w1) listed).
  assert (Hlen : length rows = base.size listed).
  { unfold rows. rewrite length_fmap, (Permutation_length (mapRange_perm _ _ _)).
    apply length_map_to_list. }
  assert (Hshort : Forall (λ row, len row.1 ≤ 30 ∧ len row.2 ≤ 50) rows).
  { apply Forall_fmap, Forall_forall. intros kv _. apply list_row_short. }
  assert (Hrow : ∀ key val, listed !! key = Some val → len key ≤ 27 → len val ≤ 47 →
                            (key, val) ∈ rows).
  { intros key val Hin Hk Hv. apply list_elem_of_fmap. exists (key, val). split.
    - unfold list_row. cbn [fst snd].
      destruct (Z.ltb_spec 27 (len key)); [lia|].
      by destruct (Z.ltb_spec 47 (len val)); [lia|].
    - by apply mapRange_elem. }
  destruct (decide (length rows = 0%nat)); by eexists _, _.
Qed.
End ui_properties.

(** *** The interface on a concrete machine *)

Definition typed (line : string) : model := mkModel line [] EmptyString EmptyString false.

Lemma Update_KeyEnter_delete_blocks_witness :
  Update_KeyEnter (H := go_amd64) (typed "delete foo") empty_disk new_engine = Blocks.
Proof.
  apply (Update_KeyEnter_delete_blocks (H := go_amd64) (typed "delete foo") "foo").
  reflexivity.
Defined.

Lemma Update_KeyEnter_set_get_witness :
  ∃ m1 w1 l1,
    Update_KeyEnter (H := go_amd64) (typed "set foo bar") empty_disk new_engine
      = Returns m1 w1 l1 ∧
    ∃ m2 l2,
      Update_KeyEnter (H := go_amd64) (input_SetValue "get  foo " m1) w1 l1
        = Returns m2 w1 l2 ∧
      statusMessage m2 = "foo: bar" ∧ errorMessage m2 = EmptyString.
Proof.
  eexists _, _, _. split; [vm_compute; reflexivity|].
  refine (Update_KeyEnter_set_get (H := go_amd64) (typed "set foo bar") _ "foo" "bar"
            empty_disk _ new_engine _ _ _ _ "get  foo " _);
    vm_compute; reflexivity.
Defined.

Lemma executeCommand_list_rows_witness :
  ∃ m' w2,
    executeCommand (H := go_amd64) "list" (typed "list") listing_state.1 listing_state.2
      = Returns m' w2 listing_state.2 ∧
    showTable m' = true ∧
    length (table_rows m') = base.size ({[ "j" := "u"; "k" := "v" ]} : gmap string string) ∧
    Forall (λ row, len row.1 ≤ 30 ∧ len row.2 ≤ 50) (table_rows m') ∧
    ∀ key val, ({[ "j" := "u"; "k" := "v" ]} : gmap string string) !! key = Some val →
               len key ≤ 27 → len val ≤ 47 → (key, val) ∈ table_rows m'.
Proof.
  eapply (executeCommand_list_rows (H := go_amd64) "list" [] (typed "list")
            listing_state.1 _ listing_state.2 listing_state.2);
    vm_compute; reflexivity.
Defined.

Lemma LSMTree_List_missing_file_witness :
  ∃ err w',
    LSMTree_List (H := go_amd64) (set_files ∅ compaction_state.1) compaction_state.2
    = Returns (inl err) w' compaction_state.2.
Proof.
  assert (∃ s0 s1, ssTables compaction_state.2 = [s0; s1]) as (s0 & s1 & Hts).
  { eexists _, _. vm_compute. reflexivity. }
  apply (LSMTree_List_missing_file (H := go_amd64) _ _ s0).
  - vm_compute. reflexivity.
  - rewrite Hts. apply elem_of_cons. by left.
  - apply lookup_empty.
Defined.

(** ** What [Get] leaves alone; the two copies of the engine *)

(** The engine without its lock and its cache. *)
Definition unlocked (l : LSMTree) : Plain.LSMTree :=
  Plain.mkLSMTree (dataDir l) (memTable l) (ssTables l) (wal l).

Section agree.
Context `{GoRuntime}.
Local Arguments Cache_Set : simpl never.
Local Arguments search_ssTables : simpl never.
Local Arguments WAL_Recover : simpl never.
Local Arguments WAL_Clear : simpl never.
Local Arguments list_ssTables : simpl never.

(** X23. The two copies of the engine agree.  While nobody holds the
    lock, [Recover] and [List] of the engine with lock and cache return
    what those of the engine without return, and leave the same buffer,
    registry and machine; so does [Get] for a key that is not cached. *)
Theorem Plain_agrees (key : string) (w : World) (l : LSMTree) :
  mutex l = RWMutex_free →
  (∃ e w' l', LSMTree_Recover w l = Returns e w' l' ∧
              Plain.LSMTree_Recover w (unlocked l) = (e, w', unlocked l') ∧
              cache l' = cache l ∧ mutex l' = RWMutex_free) ∧
  (∃ r w', LSMTree_List w l = Returns r w' l ∧
           Plain.LSMTree_List w (unlocked l) = (r, w')) ∧
  (entries (cache l) !! key = None →
   ∃ w' l', LSMTree_Get key w l = Returns (Plain.LSMTree_Get key w (unlocked l)) w' l').
Proof.
  intros Hmu. destruct l as [d mt ts wl mu ch]. simpl in Hmu. subst mu. split_and!.
  - unfold LSMTree_Recover, Plain.LSMTree_Recover, with_Lock, unlocked. simpl.
    destruct (WAL_Recover wl w) as [err|recovered]; [by eexists _, _, _|].
    cbn [range]. destruct (0 <? Z.of_nat (base.size recovered)); [|by eexists _, _, _].
    simpl. destruct (WAL_Clear wl _) as [[err|] w']; by eexists _, _, _.
  - unfold LSMTree_List, Plain.LSMTree_List, with_RLock, unlocked. simpl.
    destruct (list_ssTables _ _ _) as [r w']. by eexists _, _.
  - intros Hc. unfold LSMTree_Get, Plain.LSMTree_Get, with_RLock, Cache_Get, unlocked.
    simpl in *. rewrite Hc. simpl.
    destruct (MemTable_Get mt key) as [val [|]]; simpl.
    + destruct (Cache_Set ch key val w) as [c w']. by eexists _, _.
    + destruct (search_ssTables (reverse ts) key w) as [err|[found|]];
        [by eexists _, _| |by eexists _, _].
      destruct (Cache_Set ch key found w) as [c w']. by eexists _, _.
Qed.
End agree.

Section get_frame.
Context `{GoRuntime}.
Local Arguments Cache_Set : simpl never.
Local Arguments search_ssTables : simpl never.

(** X22. [Get] writes nothing but the cache: whenever it returns, the
    write buffer, the registry, the WAL handle and the lock of the engine
    are as before, and so are the directories, the files and the output
    of the machine; the cached value of every other key is as before
    unless the cache was full. *)
Theorem LSMTree_Get_frame (key : string) (w w' : World) (l l' : LSMTree)
    (r : string * error) :
  LSMTree_Get key w l = Returns r w' l' →
  l' = set_cache (cache l') l ∧
  fs_dirs w' = fs_dirs w ∧ fs_files w' = fs_files w ∧ stdout w' = stdout w ∧
  goroutines w' = goroutines w ∧
  (Z.of_nat (base.size (entries (cache l))) < maxSize (cache l) →
   ∀ k, k ≠ key → entries (cache l') !! k = entries (cache l) !! k).
Proof.
  unfold LSMTree_Get, with_RLock.
  destruct (RWMutex_RLock (mutex l)) as [mu|] eqn:Hlock; [|done].
  assert (Hl : ∀ c, set_mutex (RWMutex_RUnlock mu) (set_cache c (set_mutex mu l))
                    = set_cache c l).
  { intros c. unfold RWMutex_RLock in Hlock. destruct l as [d m ts wl [wr rd] ch].
    simpl in *. destruct wr; [done|]. by injection Hlock as <-. }
  assert (Hset : ∀ val,
    let cw := Cache_Set (cache l) key val w in
    fs_dirs cw.2 = fs_dirs w ∧ fs_files cw.2 = fs_files w ∧ stdout cw.2 = stdout w ∧
    goroutines cw.2 = goroutines w ∧
    (Z.of_nat (base.size (entries (cache l))) < maxSize (cache l) →
     ∀ k, k ≠ key → entries cw.1 !! k = entries (cache l) !! k)).
  { intros val cw. subst cw.
    destruct (Cache_Set_world (cache l) key val w) as ((Hd & Ho & _ & Hf) & Hg & _).
    split_and!; [done| |done|done|].
    - apply map_eq. intros p. apply Hf, not_elem_of_nil.
    - intros Hroom k Hk.
      destruct (Cache_Set_unfold (cache l) key val w) as (victim & -> & Hfull & _).
      apply Hfull in Hroom as ->. simpl. by rewrite lookup_insert_ne. }
  unfold Cache_Get.
  destruct (entries (cache l) !! key) as [entry|] eqn:Hc; simpl; rewrite ?Hc; simpl.
  - intros [= <- <- <-]. simpl. rewrite Hl. by split_and!.
  - unfold MemTable_Get. simpl. destruct (data (memTable l) !! key) as [val|]; simpl.
    + specialize (Hset val). cbv zeta in Hset.
      destruct (Cache_Set (cache l) key val w) as [c w1]. simpl in *.
      intros [= <- <- <-]. simpl. by rewrite Hl.
    + destruct (search_ssTables (reverse (ssTables l)) key w) as [err|[val|]].
      * intros [= <- <- <-]. simpl.
        replace (set_mutex (RWMutex_RUnlock mu) (set_mutex mu l)) with l
          by (symmetry; by apply with_RLock_restores).
        by split_and!.
      * specialize (Hset val). cbv zeta in Hset.
        destruct (Cache_Set (cache l) key val w) as [c w1]. simpl in *.
        intros [= <- <- <-]. simpl. by rewrite Hl.
      * intros [= <- <- <-]. simpl.
        replace (set_mutex (RWMutex_RUnlock mu) (set_mutex mu l)) with l
          by (symmetry; by apply with_RLock_restores).
        by split_and!.
Qed.
End get_frame.

Lemma Plain_agrees_witness :
  (∃ e w' l', LSMTree_Recover (H := go_amd64) crashed_state.1 crashed_state.2
                = Returns e w' l' ∧
              Plain.LSMTree_Recover (H := go_amd64) crashed_state.1 (unlocked crashed_state.2)
                = (e, w', unlocked l') ∧
              cache l' = cache crashed_state.2 ∧ mutex l' = RWMutex_free) ∧
  (∃ r w', LSMTree_List (H := go_amd64) crashed_state.1 crashed_state.2
             = Returns r w' crashed_state.2 ∧
           Plain.LSMTree_List (H := go_amd64) crashed_state.1 (unlocked crashed_state.2)
             = (r, w')) ∧
  (entries (cache crashed_state.2) !! "k" = None →
   ∃ w' l', LSMTree_Get (H := go_amd64) "k" crashed_state.1 crashed_state.2
            = Returns (Plain.LSMTree_Get "k" crashed_state.1 (unlocked crashed_state.2)) w' l').
Proof.
  apply (Plain_agrees (H := go_amd64) "k" crashed_state.1 crashed_state.2).
  vm_compute. reflexivity.
Defined.

Lemma LSMTree_Get_frame_witness :
  ∃ r w' l',
    LSMTree_Get (H := go_amd64) "k" listing_state.1 listing_state.2 = Returns r w' l' ∧
    l' = set_cache (cache l') listing_state.2 ∧
    fs_dirs w' = fs_dirs listing_state.1 ∧ fs_files w' = fs_files listing_state.1 ∧
    stdout w' = stdout listing_state.1 ∧ goroutines w' = goroutines listing_state.1 ∧
    (Z.of_nat (base.size (entries (cache listing_state.2))) < maxSize (cache listing_state.2) →
     ∀ k, k ≠ "k" → entries (cache l') !! k = entries (cache listing_state.2) !! k).
Proof.
  eexists _, _, _. split; [vm_compute; reflexivity|].
  eapply (LSMTree_Get_frame (H := go_amd64) "k" listing_state.1 _ listing_state.2 _ _).
  vm_compute. reflexivity.
Defined.

(** ** Keys with a comma *)

Section comma_keys.
Context `{GoRuntime}.
Local Arguments Cache_Set : simpl never.
Local Arguments WAL_Log : simpl never.
Local Arguments NewSSTable : simpl never.
Local Arguments MemTable_Size : simpl never.
Local Arguments Scanner_all : simpl never.
Local Arguments LSMTree_Set : simpl never.
Local Arguments LSMTree_Recover : simpl never.
Local Arguments LSMTree_Get : simpl never.
Local Arguments Sprintf_entry : simpl never.
Local Arguments filepath_Join : simpl never.

Lemma Sprintf_entry_comma (k1 k2 val : string) :
  Sprintf_entry (k1 +:+ String comma k2) val = Sprintf_entry k1 (k2 +:+ String comma val).
Proof. unfold Sprintf_entry. by rewrite !append_assoc, !append_cons. Qed.

(** A lookup that finds the key nowhere, in an engine without segments. *)
Lemma LSMTree_Get_nowhere (key : string) (w : World) (l : LSMTree) :
  mutex l = RWMutex_free → entries (cache l) !! key = None →
  data (memTable l) !! key = None → ssTables l = [] →
  LSMTree_Get key w l = Returns (EmptyString, None) w l.
Proof.
  intros Hmu Hc Hm Hts. destruct l as [d mt ts wl mu ch]. simpl in *. subst mu ts.
  unfold LSMTree_Get, with_RLock, Cache_Get, MemTable_Get. simpl.
  by rewrite Hc, Hm.
Qed.

(** X24. A key with a comma does not survive a crash.  A pair whose key
    has a comma is written on a new engine, the process restarts and
    calls [Recover]: it returns without error, but [Get] of the key then
    returns the empty value, and the part of the key before its first
    comma has become a key whose value is the rest of the line. *)
Theorem recover_splits_key_at_comma (k1 k2 val : string) :
  plain_entry (k1, k2 +:+ String comma val) →
  result ((e ← LSMTree_Set (k1 +:+ String comma k2) val;
           _ ← restart; r ← LSMTree_Recover;
           g ← LSMTree_Get (k1 +:+ String comma k2); g1 ← LSMTree_Get k1;
           mret (e, r, g, g1)) empty_disk new_engine)
  = Some (None, None, (EmptyString, None), (dropCR (k2 +:+ String comma val), None)).
Proof.
  intros Hplain.
  destruct (LSMTree_Set_logged (k1 +:+ String comma k2) val empty_disk new_engine engine_ok_new)
    as (w1 & l1 & Hset & Hdir & _ & _ & Hwal).
  { simpl. rewrite insert_empty, map_size_singleton. by unfold memTableSizeThreshold. }
  rewrite (bind_Returns _ _ _ _ _ _ _ Hset). cbv beta.
  unfold mbind at 1. unfold method_bind at 1. unfold restart at 1. cbv beta iota.
  rewrite Hdir. change (dataDir new_engine) with "/data".
  rewrite Sprintf_entry_comma in Hwal.
  destruct (LSMTree_Recover_one k1 (k2 +:+ String comma val)
              (mkWorld (fs_dirs w1) (fs_files w1) (clock w1) (rand w1) [] 0)
              (NewLSMTree "/data")) as (w2 & Hrec & _); [done|done|exact Hwal|].
  rewrite (bind_Returns _ _ _ _ _ _ _ Hrec). cbv beta.
  set (l2 := set_memTable _ (NewLSMTree "/data")).
  assert (Hne : k1 +:+ String comma k2 ≠ k1).
  { intros Heq. symmetry in Heq. by apply (longer_not_equal k1 (String comma k2)) in Heq. }
  rewrite (bind_Returns _ _ _ _ _ _ _
             (LSMTree_Get_nowhere (k1 +:+ String comma k2) w2 l2 eq_refl eq_refl
                ltac:(simpl; rewrite insert_empty; by apply lookup_singleton_ne) eq_refl)).
  cbv beta.
  destruct (LSMTree_Get_buffered k1 (dropCR (k2 +:+ String comma val)) w2 l2)
    as (w3 & l3 & Hget); [done|done| |].
  { simpl. by rewrite lookup_insert_eq. }
  by rewrite (bind_Returns _ _ _ _ _ _ _ Hget).
Qed.
End comma_keys.

Lemma recover_splits_key_at_comma_witness :
  result ((e ← LSMTree_Set (H := go_amd64) "a,b" "c";
           _ ← restart; r ← LSMTree_Recover (H := go_amd64);
           g ← LSMTree_Get (H := go_amd64) "a,b"; g1 ← LSMTree_Get (H := go_amd64) "a";
           mret (e, r, g, g1)) empty_disk new_engine)
  = Some (None, None, (EmptyString, None), ("b,c", None)).
Proof.
  apply (recover_splits_key_at_comma (H := go_amd64) "a" "b" "c"). by vm_compute.
Defined.
